(** * iambicToneGenerator: the paddle and tone state machines

    A shallow embedding of the Arduino sketch [iambicToneGenerator.ino], in
    the revision that has the serial command interface and [setWordSpeed].
    The sketch keeps all of its state in global variables; here they are
    the fields of one record that every function takes and returns.

    - The [int] variables [state], [toneState], [lastTone] and [toneType]
      are integers compared against the [#define]d constants, as the
      [switch] statements do: a value that matches no [case] falls through.
    - [digitalRead] is a parameter of [updateMainState], a function from pin
      number to level.
    - [millis()] is a parameter of [updateToneState]; the reads of it inside
      one call are taken to return the same value.
    - [tone] and [noTone] are recorded as the list of calls made.
    - [DIT_TIME] and [DAH_TIME] are floating-point macro expressions, so
      [millis() + DIT_TIME] is a floating-point sum that the assignment to
      [toneTimer] converts back to [unsigned long].  The sketch is written
      for the Arduino Nano, where floating point is the 32-bit format with
      24 significant bits and [unsigned long] has 32 bits: the model rounds
      the clock reading and the sum to that format, and a sum that does not
      fit [unsigned long] is undefined.  Clock readings below 2^24 - 180 ms
      give the exact sums. *)

From Stdlib Require Import ZArith QArith Qround List Bool Lia.
Import ListNotations.
Open Scope Z_scope.

(** ** Constants of the sketch *)

Definition CODE_SPEED : Z := 20.
Definition TONE_FREQ : Z := 800.

Definition LED_PIN : Z := 13.
Definition TONE_PIN : Z := 12.
Definition DIT_PIN : Z := 2.
Definition DAH_PIN : Z := 3.

Definition IDLE_STATE : Z := 0.
Definition DIT_INPUT : Z := 1.
Definition DAH_INPUT : Z := 2.
Definition DIT_DAH_INPUT : Z := 3.
Definition DAH_DIT_INPUT : Z := 4.
Definition TONE_ON : Z := 1.
Definition TONE_PAUSE : Z := 2.

Definition QUIET : Z := 0.
Definition DIT : Z := 1.
Definition DAH : Z := 2.
Definition DIT_DAH : Z := 3.
Definition DAH_DIT : Z := 4.

(** Arduino pin levels. *)
Definition LOW : Z := 0.
Definition HIGH : Z := 1.

(** The timing macros are textual: [DIT_TIME] expands to
    [1000 * 60.0 / CODE_SPEED / 50] and [DAH_TIME] to that followed by
    [* 3], both read left to right. *)
Definition DIT_TIME : Q := (1000 * 60 / inject_Z CODE_SPEED / 50)%Q.
Definition DAH_TIME : Q := (1000 * 60 / inject_Z CODE_SPEED / 50 * 3)%Q.

(** ** Conversions to [unsigned long] *)

(** A floating-point value converted to an integer type is truncated
    towards zero. *)
Definition Qtrunc (q : Q) : Z := Z.quot (Qnum q) (Zpos (Qden q)).

(** The conversion is undefined when the truncated value does not fit the
    32-bit unsigned type. *)
Definition to_ulong (q : Q) : option Z :=
  let t := Qtrunc q in
  if (0 <=? t) && (t <? 2 ^ 32) then Some t else None.

(** ** Floating point *)

(** The floating-point number nearest to a whole number [n] that is not
    negative: [n] itself below 2^24, and from there on the nearest multiple
    of the spacing [2 ^ e] that leaves 24 significant bits, the even one of
    two that are equally near. *)
Definition to_float (n : Z) : Z :=
  if n <? 2 ^ 24 then n
  else
    let e := Z.log2 n - 23 in
    let q := n / 2 ^ e in
    let r := n mod 2 ^ e in
    let half := 2 ^ (e - 1) in
    let q' := if r <? half then q
              else if half <? r then q + 1
              else if Z.even q then q else q + 1 in
    q' * 2 ^ e.

(** [millis() + d] stored into an [unsigned long], for a macro [d] whose
    value is a whole number: the clock reading is converted to floating
    point, the sum of the two whole numbers is rounded to floating point,
    and the result is converted back. *)
Definition deadline (millis : Z) (d : Q) : option Z :=
  to_ulong (inject_Z (to_float (Qtrunc (inject_Z (to_float millis) + d)))).

(** The clock readings for which the sums with [DIT_TIME] and [DAH_TIME]
    are exact. *)
Definition exact_clock (millis : Z) : Prop := 0 <= millis < 2 ^ 24 - 180.

(** The clock readings for which the sums fit [unsigned long]. *)
Definition safe_clock (millis : Z) : Prop := 0 <= millis < 2 ^ 32 - 512.

(** ** Global variables *)

Record Globals : Type := mkGlobals {
  toneFrequency : Z;
  state : Z;
  toneState : Z;
  lastTone : Z;
  toneType : Z;
  toneTimer : Z;
  wordTime : Z;
  ditTime : Z;
  dahTime : Z
}.

Definition set_toneFrequency (v : Z) (g : Globals) : Globals :=
  mkGlobals v (state g) (toneState g) (lastTone g) (toneType g)
            (toneTimer g) (wordTime g) (ditTime g) (dahTime g).
Definition set_state (v : Z) (g : Globals) : Globals :=
  mkGlobals (toneFrequency g) v (toneState g) (lastTone g) (toneType g)
            (toneTimer g) (wordTime g) (ditTime g) (dahTime g).
Definition set_toneState (v : Z) (g : Globals) : Globals :=
  mkGlobals (toneFrequency g) (state g) v (lastTone g) (toneType g)
            (toneTimer g) (wordTime g) (ditTime g) (dahTime g).
Definition set_lastTone (v : Z) (g : Globals) : Globals :=
  mkGlobals (toneFrequency g) (state g) (toneState g) v (toneType g)
            (toneTimer g) (wordTime g) (ditTime g) (dahTime g).
Definition set_toneType (v : Z) (g : Globals) : Globals :=
  mkGlobals (toneFrequency g) (state g) (toneState g) (lastTone g) v
            (toneTimer g) (wordTime g) (ditTime g) (dahTime g).
Definition set_toneTimer (v : Z) (g : Globals) : Globals :=
  mkGlobals (toneFrequency g) (state g) (toneState g) (lastTone g) (toneType g)
            v (wordTime g) (ditTime g) (dahTime g).
Definition set_ditTime (v : Z) (g : Globals) : Globals :=
  mkGlobals (toneFrequency g) (state g) (toneState g) (lastTone g) (toneType g)
            (toneTimer g) (wordTime g) v (dahTime g).
Definition set_dahTime (v : Z) (g : Globals) : Globals :=
  mkGlobals (toneFrequency g) (state g) (toneState g) (lastTone g) (toneType g)
            (toneTimer g) (wordTime g) (ditTime g) v.

(** Globals are zero when the program starts. *)
Definition power_on : Globals := mkGlobals 0 0 0 0 0 0 0 0 0.

(** ** setWordSpeed *)

(** [wordTime] here is the local variable of the function, which hides the
    global of the same name; the global is never written.  A zero [speed]
    divides by zero and the conversion of the infinite quotient is
    undefined.  For the other values of an [int] the floating-point
    operations agree with the rational ones after truncation: a quotient
    [60.0 / speed] that is not an integer lies further from the next integer
    than rounding can move it, and the products and quotients that follow
    are integers below 2^24. *)
Definition setWordSpeed (speed : Z) (g : Globals) : option Globals :=
  if speed =? 0 then None else
  match to_ulong (60 / inject_Z speed)%Q with
  | None => None
  | Some wordTime =>
    match to_ulong (1000 * inject_Z wordTime / 50)%Q with
    | None => None
    | Some dit =>
      let g := set_ditTime dit g in
      match to_ulong (inject_Z (ditTime g) * 3)%Q with
      | None => None
      | Some dah => Some (set_dahTime dah g)
      end
    end
  end.

(** ** updateMainState: the paddle state machine *)

Definition updateMainState (digitalRead : Z -> Z) (g : Globals) : Globals :=
  let ditKeyInput := digitalRead DIT_PIN =? LOW in
  let dahKeyInput := digitalRead DAH_PIN =? LOW in
  if state g =? IDLE_STATE then
    if ditKeyInput then
      let g := set_toneType DIT g in
      set_state DIT_INPUT g
    else if dahKeyInput then
      let g := set_toneType DAH g in
      set_state DAH_INPUT g
    else
      set_toneType QUIET g
  else if state g =? DIT_INPUT then
    if negb ditKeyInput && negb dahKeyInput then
      let g := set_toneType QUIET g in
      set_state IDLE_STATE g
    else if ditKeyInput && dahKeyInput then
      let g := set_toneType DIT_DAH g in
      set_state DIT_DAH_INPUT g
    else g
  else if state g =? DAH_INPUT then
    if negb ditKeyInput && negb dahKeyInput then
      let g := set_toneType QUIET g in
      set_state IDLE_STATE g
    else if ditKeyInput && dahKeyInput then
      let g := set_toneType DAH_DIT g in
      set_state DIT_DAH_INPUT g
    else g
  else if state g =? DIT_DAH_INPUT then
    if negb ditKeyInput || negb dahKeyInput then
      let g := set_toneType QUIET g in
      set_state IDLE_STATE g
    else g
  else g.

(** ** updateToneState: the tone state machine *)

(** Calls made to the tone generator. *)
Inductive Effect : Type :=
| tone (pin frequency : Z)
| noTone (pin : Z).

(** What one call leaves behind: the globals, the calls it made to the tone
    generator, and its return value. *)
Record ToneResult : Type := mkToneResult {
  after : Globals;
  emitted : list Effect;
  done : bool
}.

(** The parameter [toneType] hides the global of the same name.  The call
    is undefined where the deadline it stores is. *)
Definition updateToneState (millis : Z) (toneType : Z) (g : Globals)
  : option ToneResult :=
  if toneState g =? IDLE_STATE then
    if (toneType =? DIT) || (toneType =? DIT_DAH) then
      match deadline millis DIT_TIME with
      | None => None
      | Some t =>
        let g := set_toneTimer t g in
        let g := set_lastTone DIT g in
        let g := set_toneState TONE_ON g in
        Some (mkToneResult g [tone TONE_PIN TONE_FREQ] false)
      end
    else if (toneType =? DAH) || (toneType =? DAH_DIT) then
      match deadline millis DAH_TIME with
      | None => None
      | Some t =>
        let g := set_toneTimer t g in
        let g := set_lastTone DAH g in
        let g := set_toneState TONE_ON g in
        Some (mkToneResult g [tone TONE_PIN TONE_FREQ] false)
      end
    else Some (mkToneResult g [] false)
  else if toneState g =? TONE_ON then
    if millis >? toneTimer g then
      match deadline millis DIT_TIME with
      | None => None
      | Some t =>
        let g := set_toneTimer t g in
        let g := set_toneState TONE_PAUSE g in
        Some (mkToneResult g [noTone TONE_PIN] false)
      end
    else Some (mkToneResult g [] false)
  else if toneState g =? TONE_PAUSE then
    if millis >? toneTimer g then
      if (toneType =? QUIET) || (toneType =? DIT) || (toneType =? DAH) then
        let g := set_toneState IDLE_STATE g in
        let g := set_lastTone QUIET g in
        Some (mkToneResult g [] true)
      else if (toneType =? DIT_DAH) || (toneType =? DAH_DIT) then
        if DIT =? lastTone g then
          match deadline millis DAH_TIME with
          | None => None
          | Some t =>
            let g := set_toneTimer t g in
            let g := set_lastTone DAH g in
            let g := set_toneState TONE_ON g in
            Some (mkToneResult g [tone TONE_PIN TONE_FREQ] false)
          end
        else
          match deadline millis DIT_TIME with
          | None => None
          | Some t =>
            let g := set_toneTimer t g in
            let g := set_lastTone DIT g in
            let g := set_toneState TONE_ON g in
            Some (mkToneResult g [tone TONE_PIN TONE_FREQ] false)
          end
      else Some (mkToneResult g [] false)
    else Some (mkToneResult g [] false)
  else Some (mkToneResult g [] false).

(** ** setup and loop *)

(** The parts of [setup] that write the globals ([pinMode], [Serial.begin]
    and [printHelp] do not). *)
Definition setup (g : Globals) : option Globals :=
  match setWordSpeed CODE_SPEED g with
  | None => None
  | Some g =>
    let g := set_toneFrequency TONE_FREQ g in
    let g := set_toneState IDLE_STATE g in
    let g := set_state (toneState g) g in
    let g := set_lastTone QUIET g in
    Some g
  end.

(** The two state machines of one pass of [loop].  [updateCommands], which
    the revision with the command interface runs before them, reads the
    serial port; of the globals above it can write only [ditTime] and
    [dahTime], and only by calling [setWordSpeed].  Neither state machine
    reads those two (see [loop_ignores_speed]). *)
Definition loop (digitalRead : Z -> Z) (millis : Z) (g : Globals)
  : option (Globals * list Effect) :=
  let g := updateMainState digitalRead g in
  match updateToneState millis (toneType g) g with
  | None => None
  | Some r => Some (after r, emitted r)
  end.

(** ** Runs of the main loop *)

(** The state [setup] leaves behind. *)
Definition initial_state : Globals :=
  mkGlobals TONE_FREQ IDLE_STATE IDLE_STATE QUIET 0 0 0 60 180.

(** What one pass of [loop] reads from outside: the pin levels and the
    clock. *)
Record Tick : Type := mkTick {
  pins : Z -> Z;
  clock : Z
}.

(** Pin levels for the two paddles; a pressed paddle grounds its pin, and
    the pull-ups keep every other pin high. *)
Definition paddles (ditPressed dahPressed : bool) : Z -> Z :=
  fun pin =>
    if pin =? DIT_PIN then (if ditPressed then LOW else HIGH)
    else if pin =? DAH_PIN then (if dahPressed then LOW else HIGH)
    else HIGH.

(** A run of the loop.  Its behaviour is defined up to the first pass that
    is undefined, and the run ends there: [run] is the state before that
    pass. *)
Fixpoint run (ticks : list Tick) (g : Globals) : Globals :=
  match ticks with
  | [] => g
  | t :: rest =>
    match loop (pins t) (clock t) g with
    | None => g
    | Some (g', _) => run rest g'
    end
  end.

(** Every pass of the run is defined. *)
Fixpoint defined (ticks : list Tick) (g : Globals) : Prop :=
  match ticks with
  | [] => True
  | t :: rest =>
    match loop (pins t) (clock t) g with
    | None => False
    | Some (g', _) => defined rest g'
    end
  end.

(** The calls to the tone generator made during a run, each with the clock
    reading of the pass that made it. *)
Fixpoint trace (ticks : list Tick) (g : Globals) : list (Z * Effect) :=
  match ticks with
  | [] => []
  | t :: rest =>
    match loop (pins t) (clock t) g with
    | None => []
    | Some (g', effs) => map (pair (clock t)) effs ++ trace rest g'
    end
  end.

(** The element a call of [tone] starts is the one the sequencer has just
    stored in [lastTone]. *)
Definition started (g : Globals) (effs : list Effect) : list Z :=
  flat_map (fun e => match e with
                     | tone _ _ => [lastTone g]
                     | noTone _ => []
                     end) effs.

Fixpoint elements (ticks : list Tick) (g : Globals) : list Z :=
  match ticks with
  | [] => []
  | t :: rest =>
    match loop (pins t) (clock t) g with
    | None => []
    | Some (g', effs) => started g' effs ++ elements rest g'
    end
  end.

(** [n] elements that alternate, beginning with [first]. *)
Fixpoint alternating (first : Z) (n : nat) : list Z :=
  match n with
  | O => []
  | S n' => first :: alternating (if first =? DIT then DAH else DIT) n'
  end.

(** The clock never runs backwards. *)
Fixpoint clock_monotone (ticks : list Tick) : Prop :=
  match ticks with
  | [] => True
  | t :: rest =>
    match rest with
    | [] => True
    | t' :: _ => clock t <= clock t'
    end /\ clock_monotone rest
  end.

(** A trace of the tone generator in which tone and silence take turns, and
    every end of a tone is separated from the next start of a tone by more
    than [pause] milliseconds. *)
Fixpoint silences_kept (pause : Z) (tr : list (Z * Effect)) : Prop :=
  match tr with
  | [] => True
  | (t, e) :: rest =>
    match e, rest with
    | noTone _, (t', tone _ _) :: _ => t + pause < t'
    | noTone _, (_, noTone _) :: _ => False
    | tone _ _, (_, tone _ _) :: _ => False
    | _, _ => True
    end /\ silences_kept pause rest
  end.

Definition is_tone (e : Effect) : Prop :=
  match e with tone _ _ => True | noTone _ => False end.

Definition is_noTone (e : Effect) : Prop :=
  match e with tone _ _ => False | noTone _ => True end.

(** What the first call in the trace of a run from [g] must be, when no
    pass of that run reads a clock below [lo]. *)
Definition head_ok (g : Globals) (lo : Z) (tr : list (Z * Effect)) : Prop :=
  match tr with
  | [] => True
  | (t, e) :: _ =>
    lo <= t /\
    (toneState g = IDLE_STATE -> is_tone e) /\
    (toneState g = TONE_ON -> is_noTone e) /\
    (toneState g = TONE_PAUSE -> is_tone e /\ toneTimer g < t)
  end.

(** The tone state is one of the three the sequencer uses. *)
Definition tone_state_ok (g : Globals) : Prop :=
  toneState g = IDLE_STATE \/ toneState g = TONE_ON \/ toneState g = TONE_PAUSE.

(** The four things a call of [updateToneState] can do to the tone state,
    the timer and the tone generator. *)
Inductive tone_step (millis : Z) (g g' : Globals) (effs : list Effect)
  : Prop :=
| step_nothing :
    effs = [] ->
    toneState g' = toneState g -> toneTimer g' = toneTimer g ->
    tone_step millis g g' effs
| step_start :
    (toneState g = IDLE_STATE \/
     (toneState g = TONE_PAUSE /\ toneTimer g < millis)) ->
    effs = [tone TONE_PIN TONE_FREQ] ->
    toneState g' = TONE_ON ->
    tone_step millis g g' effs
| step_stop :
    toneState g = TONE_ON -> toneTimer g < millis ->
    effs = [noTone TONE_PIN] ->
    toneState g' = TONE_PAUSE ->
    deadline millis DIT_TIME = Some (toneTimer g') ->
    tone_step millis g g' effs
| step_finish :
    toneState g = TONE_PAUSE -> toneTimer g < millis ->
    effs = [] ->
    toneState g' = IDLE_STATE ->
    tone_step millis g g' effs.

(** Calls of [updateToneState] alone, each with its clock reading and the
    tone type passed. *)
Fixpoint run_tone (calls : list (Z * Z)) (g : Globals)
  : option (Globals * list (Z * Effect) * list bool) :=
  match calls with
  | [] => Some (g, [], [])
  | (millis, toneType) :: rest =>
    match updateToneState millis toneType g with
    | None => None
    | Some r =>
      match run_tone rest (after r) with
      | None => None
      | Some (g', tr, ds) =>
        Some (g', map (pair millis) (emitted r) ++ tr, done r :: ds)
      end
    end
  end.

(** The sequencer is inside a phase: a tone whose end, or a pause whose
    end, the clock has not passed. *)
Definition mid_phase (millis : Z) (g : Globals) : Prop :=
  (toneState g = TONE_ON \/ toneState g = TONE_PAUSE) /\ millis <= toneTimer g.

(** One-millisecond passes from [start] on, all with the same pin levels. *)
Fixpoint hold (digitalRead : Z -> Z) (start : Z) (n : nat) : list Tick :=
  match n with
  | O => []
  | S n' => mkTick digitalRead start :: hold digitalRead (start + 1) n'
  end.

(** What the paddle state machine maintains between its state and the tone
    type it hands to the sequencer. *)
Definition main_inv (g : Globals) : Prop :=
  (state g = IDLE_STATE /\ toneType g = QUIET) \/
  (state g = DIT_INPUT /\ toneType g = DIT) \/
  (state g = DAH_INPUT /\ toneType g = DAH) \/
  (state g = DIT_DAH_INPUT /\ (toneType g = DIT_DAH \/ toneType g = DAH_DIT)).

(** The element that follows [last] in a squeeze, as the test
    [DIT == lastTone] chooses it. *)
Definition other (last : Z) : Z := if last =? DIT then DAH else DIT.

(** Both paddles read pressed. *)
Definition both_pressed (t : Tick) : Prop :=
  pins t DIT_PIN = LOW /\ pins t DAH_PIN = LOW.

(** A paddle is held and an element or its pause is in progress. *)
Definition held (g : Globals) : Prop :=
  main_inv g /\ state g <> IDLE_STATE /\
  (toneState g = TONE_ON \/ toneState g = TONE_PAUSE).

(** Consecutive passes are more than [gap] milliseconds apart. *)
Fixpoint spaced (gap : Z) (ticks : list Tick) : Prop :=
  match ticks with
  | [] => True
  | t :: rest =>
    match rest with
    | [] => True
    | t' :: _ => clock t + gap < clock t'
    end /\ spaced gap rest
  end.

(** A speed change while a dit is sounding: the dit paddle is pressed at
    time 0, [setWordSpeed] is called, the paddle is released, the dit and
    its pause run out, and the paddle is pressed again at time 123. *)
Definition speed_change_run (speed : Z) : option Globals :=
  let g := run [mkTick (paddles true false) 0] initial_state in
  match setWordSpeed speed g with
  | None => None
  | Some g =>
    Some (run [mkTick (paddles false false) 61;
               mkTick (paddles false false) 122;
               mkTick (paddles true false) 123] g)
  end.

(** ** More about runs of the loop *)

(** What a pass reads from the paddles. *)
Definition released (t : Tick) : Prop :=
  pins t DIT_PIN <> LOW /\ pins t DAH_PIN <> LOW.

Definition dit_only (t : Tick) : Prop :=
  pins t DIT_PIN = LOW /\ pins t DAH_PIN <> LOW.

Definition dah_only (t : Tick) : Prop :=
  pins t DIT_PIN <> LOW /\ pins t DAH_PIN = LOW.

(** The time the sequencer gives an element: [DIT_TIME] for a dit,
    [DAH_TIME] for a dah, in milliseconds. *)
Definition duration (element : Z) : Z := if element =? DIT then 60 else 180.

(** The same as the macro the sequencer adds to the clock reading. *)
Definition element_time (element : Z) : Q :=
  if element =? DIT then DIT_TIME else DAH_TIME.

(** The trace of a run, each call with the element in [lastTone] after the
    pass that made it: the element a [tone] starts, the element a [noTone]
    ends. *)
Fixpoint labelled (ticks : list Tick) (g : Globals)
  : list (Z * Effect * Z) :=
  match ticks with
  | [] => []
  | t :: rest =>
    match loop (pins t) (clock t) g with
    | None => []
    | Some (g', effs) =>
      map (fun e => (clock t, e, lastTone g')) effs ++ labelled rest g'
    end
  end.

(** Every tone that is stopped is a dit or a dah, is stopped as the element
    it was started as, and has sounded for more than the duration of that
    element. *)
Fixpoint tones_kept (tr : list (Z * Effect * Z)) : Prop :=
  match tr with
  | [] => True
  | (t, e, element) :: rest =>
    match e, rest with
    | tone _ _, (t', noTone _, element') :: _ =>
      element' = element /\ (element = DIT \/ element = DAH) /\
      t + duration element < t'
    | tone _ _, (_, tone _ _, _) :: _ => False
    | _, _ => True
    end /\ tones_kept rest
  end.

(** Whether the tone generator is left oscillating by a sequence of calls,
    given whether it was before. *)
Definition sounding (before : bool) (tr : list (Z * Effect)) : bool :=
  fold_left (fun _ te => match snd te with
                         | tone _ _ => true
                         | noTone _ => false
                         end) tr before.

(** What the sequencer maintains between its state and [lastTone]. *)
Definition tone_inv (g : Globals) : Prop :=
  (toneState g = IDLE_STATE /\ lastTone g = QUIET) \/
  ((toneState g = TONE_ON \/ toneState g = TONE_PAUSE) /\
   (lastTone g = DIT \/ lastTone g = DAH)).

(** Calls as a user of the sketch's functions can make them: a pass of the
    loop, or a change of speed. *)
Inductive Call : Type :=
| Pass (t : Tick)
| SetWordSpeed (speed : Z).

Fixpoint passes (calls : list Call) : list Tick :=
  match calls with
  | [] => []
  | Pass t :: rest => t :: passes rest
  | SetWordSpeed _ :: rest => passes rest
  end.

(** The tone trace of a sequence of calls; nothing when a call among them
    is undefined. *)
Fixpoint trace_calls (calls : list Call) (g : Globals)
  : option (list (Z * Effect)) :=
  match calls with
  | [] => Some []
  | Pass t :: rest =>
    match loop (pins t) (clock t) g with
    | None => None
    | Some (g', effs) =>
      match trace_calls rest g' with
      | None => None
      | Some tr => Some (map (pair (clock t)) effs ++ tr)
      end
    end
  | SetWordSpeed speed :: rest =>
    match setWordSpeed speed g with
    | None => None
    | Some g' => trace_calls rest g'
    end
  end.

(** Every pass reads the clock in the given range. *)
Definition clocks (range : Z -> Prop) (ticks : list Tick) : Prop :=
  Forall (fun t => range (clock t)) ticks.

(** The element a squeeze starts with: the opposite of the element in
    progress or in its pause; when the sequencer is idle, the element of
    the paddle that was pressed first. *)
Definition squeeze_first (g : Globals) : Z :=
  if toneState g =? IDLE_STATE then
    if (state g =? DIT_INPUT) || (toneType g =? DIT_DAH) then DIT else DAH
  else other (lastTone g).

From Stdlib Require Import Ascii String.
From Stdlib Require Import List.
Import ListNotations.
Open Scope Z_scope.

(** ** The serial command interface *)

(** Characters arrive from and are sent to the serial port as bytes.  A
    pass of [updateCommands] is given the bytes it reads while
    [Serial.available()] is positive, and the sketch's state carries the
    bytes sent so far. *)

Definition VERSION : Z := 2.
Definition BAUDRATE : Z := 19200.

Definition CMD_IDLE : Z := 0.
Definition CMD_ARGUMENT : Z := 1.

Definition PRINT_HELP : Z := 0.
Definition SET_SPEED : Z := 1.

Definition LINE_BUFFER_SIZE : Z := 80.

Definition NUL : ascii := "000"%char.
Definition CR : ascii := "013"%char.
Definition LF : ascii := "010"%char.

(** The value of a [char] in a comparison.  Only the range from ['0'] to
    ['9'] is tested, which reads the same whether [char] is signed or
    not. *)
Definition char_code (c : ascii) : Z := Z.of_N (N_of_ascii c).

(** [Serial.print] and [Serial.println] of a string, of a character and of
    nothing; [println] ends the line with a carriage return and a line
    feed. *)
Definition Serial_print (s : string) (sent : list ascii) : list ascii :=
  sent ++ list_ascii_of_string s.

Definition Serial_println (s : string) (sent : list ascii) : list ascii :=
  sent ++ list_ascii_of_string s ++ [CR; LF].

Definition Serial_print_char (c : ascii) (sent : list ascii) : list ascii :=
  sent ++ [c].

Definition Serial_println_char (c : ascii) (sent : list ascii)
  : list ascii :=
  sent ++ [c; CR; LF].

Definition Serial_println_empty (sent : list ascii) : list ascii :=
  sent ++ [CR; LF].

(** [Serial.println(VERSION)] prints the number 2 in decimal. *)
Definition printHelp (sent : list ascii) : list ascii :=
  let sent := Serial_println_empty sent in
  let sent := Serial_print "Iambic Tone Generator version " sent in
  let sent := Serial_println "2" sent in
  let sent := Serial_println "Commands:" sent in
  let sent := Serial_println "?          Print this help." sent in
  Serial_println "w speed    Set speed as words per minute." sent.

Module Command.

(** [struct Command]; [line] is the array of 80 characters. *)
Record t : Type := mk {
  state : Z;
  command : Z;
  index : Z;
  line : list ascii
}.

Definition begin (cmd : Z) (c : t) : t :=
  mk CMD_ARGUMENT cmd 0 (repeat NUL (Z.to_nat LINE_BUFFER_SIZE)).

Definition set_state (v : Z) (c : t) : t :=
  mk v (command c) (index c) (line c).

(** The command as the program starts: all zero. *)
Definition power_on : t := mk 0 0 0 (repeat NUL 80).

End Command.

(** What goes wrong where the C++ is undefined. *)
Inductive Fault : Type :=
| BufferOverrun
| UndefinedConversion.

(** [line[i] = c], undefined outside the 80 characters of the array. *)
Definition store (line : list ascii) (i : Z) (c : ascii)
  : option (list ascii) :=
  if (0 <=? i) && (i <? 80) then
    Some (firstn (Z.to_nat i) line ++ c :: skipn (S (Z.to_nat i)) line)
  else None.

Module Sketch.

(** The whole sketch: the globals of the two state machines, the global
    [command], and the bytes sent to the serial port. *)
Record t : Type := mk {
  globals : Globals;
  command : Command.t;
  sent : list ascii
}.

(** The body of the [while] loop of [updateCommands], for the character
    [c] just read.  [atoi] is the C library's. *)
Definition updateCommands_char (atoi : list ascii -> Z) (c : ascii) (s : t)
  : Fault + t :=
  let g := globals s in
  let cmd := command s in
  let out := sent s in
  if Command.state cmd =? CMD_IDLE then
    if Ascii.eqb c "?" then
      inr (mk g (Command.begin PRINT_HELP cmd) out)
    else if Ascii.eqb c "w" then
      let out := Serial_print "Set code speed to " out in
      let out := Serial_println " words per minute." out in
      inr (mk g cmd out)
    else
      let out := Serial_print "Unrecognized command " out in
      let out := Serial_println_char c out in
      inr (mk g cmd out)
  else if Command.state cmd =? CMD_ARGUMENT then
    if Command.command cmd =? PRINT_HELP then
      if Ascii.eqb c CR || Ascii.eqb c LF then
        let out := printHelp out in
        inr (mk g (Command.set_state CMD_IDLE cmd) out)
      else inr s
    else if Command.command cmd =? SET_SPEED then
      if Ascii.eqb c CR || Ascii.eqb c LF then
        let codeSpeed := atoi (Command.line cmd) in
        match setWordSpeed codeSpeed g with
        | None => inl UndefinedConversion
        | Some g =>
          let out := Serial_println_empty out in
          inr (mk g (Command.set_state CMD_IDLE cmd) out)
        end
      else if (char_code "0" <=? char_code c) &&
              (char_code c <=? char_code "9") then
        match store (Command.line cmd) (Command.index cmd) c with
        | None => inl BufferOverrun
        | Some line =>
          let cmd := Command.mk (Command.state cmd) (Command.command cmd)
                                (Command.index cmd + 1) line in
          let out := Serial_print_char c out in
          if Command.index cmd >=? LINE_BUFFER_SIZE then
            inr (mk g (Command.set_state CMD_IDLE cmd) out)
          else inr (mk g cmd out)
        end
      else inr s
    else inr s
  else inr s.

(** [received] holds the characters [Serial.read()] returns while
    [Serial.available()] is positive. *)
Fixpoint updateCommands (atoi : list ascii -> Z) (received : list ascii)
  (s : t) : Fault + t :=
  match received with
  | [] => inr s
  | c :: rest =>
    match updateCommands_char atoi c s with
    | inl f => inl f
    | inr s => updateCommands atoi rest s
    end
  end.

(** [setup], with the command interface. *)
Definition setup (s : t) : Fault + t :=
  match setWordSpeed CODE_SPEED (globals s) with
  | None => inl UndefinedConversion
  | Some g =>
    let g := set_toneFrequency TONE_FREQ g in
    let g := set_toneState IDLE_STATE g in
    let g := set_state (toneState g) g in
    let g := set_lastTone QUIET g in
    let cmd := Command.set_state CMD_IDLE (command s) in
    inr (mk g cmd (printHelp (sent s)))
  end.

(** [loop], with the command interface. *)
Definition loop (atoi : list ascii -> Z) (received : list ascii)
  (digitalRead : Z -> Z) (millis : Z) (s : t)
  : Fault + (t * list Effect) :=
  match updateCommands atoi received s with
  | inl f => inl f
  | inr s =>
    let g := updateMainState digitalRead (globals s) in
    match updateToneState millis (toneType g) g with
    | None => inl UndefinedConversion
    | Some r => inr (mk (after r) (command s) (sent s), emitted r)
    end
  end.

(** What one pass of the loop reads from outside. *)
Record Pass : Type := mkPass {
  received : list ascii;
  tick : Tick
}.

Fixpoint run (atoi : list ascii -> Z) (passes : list Pass) (s : t)
  : Fault + (t * list (Z * Effect)) :=
  match passes with
  | [] => inr (s, [])
  | p :: rest =>
    match loop atoi (received p) (pins (tick p)) (clock (tick p)) s with
    | inl f => inl f
    | inr (s, effs) =>
      match run atoi rest s with
      | inl f => inl f
      | inr (s, tr) => inr (s, map (pair (clock (tick p))) effs ++ tr)
      end
    end
  end.

(** The sketch as the program starts. *)
Definition power_on : t := mk power_on Command.power_on [].

End Sketch.

(** The digits among the characters typed. *)
Definition is_digit (c : ascii) : bool :=
  (char_code "0" <=? char_code c) && (char_code c <=? char_code "9").

Definition is_newline (c : ascii) : bool := Ascii.eqb c CR || Ascii.eqb c LF.

(** What the sketch answers to a character in [CMD_IDLE] other than the
    question mark. *)
Definition idle_reply (c : ascii) : list ascii :=
  if Ascii.eqb c "w" then
    list_ascii_of_string "Set code speed to " ++
    list_ascii_of_string " words per minute." ++ [CR; LF]
  else
    list_ascii_of_string "Unrecognized command " ++ [c; CR; LF].

(** The line buffer keeps its 80 characters, and an argument is only
    awaited with room left in it. *)
Definition command_ok (c : Command.t) : Prop :=
  length (Command.line c) = 80%nat /\
  (Command.state c = CMD_ARGUMENT -> 0 <= Command.index c < 80).

(** What stands between the serial port and the speed: after [setup] the
    command is only ever [PRINT_HELP]. *)
Definition help_only (c : Command.t) : Prop :=
  Command.command c = PRINT_HELP /\
  (Command.state c = CMD_IDLE \/ Command.state c = CMD_ARGUMENT).

(** The sketch while a speed is being typed: the digits [ds] so far at the
    start of the line buffer, the rest of it still zero. *)
Definition entry_state (g : Globals) (ds : list ascii) (sent : list ascii)
  : Sketch.t :=
  Sketch.mk g
    (Command.mk CMD_ARGUMENT SET_SPEED (Z.of_nat (length ds))
       (ds ++ repeat NUL (80 - length ds)))
    sent.

(** ** Basic facts *)

Lemma DIT_TIME_ms : forall n, Qtrunc (inject_Z n + DIT_TIME) = n + 60.
Proof.
  intro n. unfold Qtrunc, DIT_TIME. cbn.
  replace (n * 1000 + 60000) with ((n + 60) * 1000) by ring.
  apply Z.quot_mul. discriminate.
Qed.

Lemma DAH_TIME_ms : forall n, Qtrunc (inject_Z n + DAH_TIME) = n + 180.
Proof.
  intro n. unfold Qtrunc, DAH_TIME. cbn.
  replace (n * 1000 + 180000) with ((n + 180) * 1000) by ring.
  apply Z.quot_mul. discriminate.
Qed.

#[global] Opaque DIT_TIME DAH_TIME.
Arguments Qtrunc : simpl never.

(** *** Rounding to floating point *)

Lemma to_float_small : forall n, n < 2 ^ 24 -> to_float n = n.
Proof.
  intros n H. unfold to_float.
  destruct (Z.ltb_spec n (2 ^ 24)); [reflexivity | lia].
Qed.

(** Below 2^32 the spacing is at most 256, so rounding moves a number by at
    most 128. *)
Lemma to_float_near : forall n,
  2 ^ 24 <= n < 2 ^ 32 -> n - 128 <= to_float n <= n + 128.
Proof.
  intros n [Hlo Hhi]. unfold to_float.
  destruct (Z.ltb_spec n (2 ^ 24)) as [H | _]; [lia |].
  assert (Hpos : 0 < n) by lia.
  assert (H24 : 24 <= Z.log2 n).
  { change 24 with (Z.log2 (2 ^ 24)). apply Z.log2_le_mono. exact Hlo. }
  assert (H32 : Z.log2 n < 32) by (apply Z.log2_lt_pow2; lia).
  set (e := Z.log2 n - 23).
  assert (He : e = 1 \/ e = 2 \/ e = 3 \/ e = 4 \/
               e = 5 \/ e = 6 \/ e = 7 \/ e = 8) by (subst e; lia).
  clearbody e.
  assert (Hcase : forall p h,
            0 < h -> p = 2 * h -> h <= 128 ->
            n - 128 <=
            (if n mod p <? h then n / p
             else if h <? n mod p then n / p + 1
                  else if Z.even (n / p) then n / p else n / p + 1) * p
            <= n + 128).
  { intros p h Hh Hp Hb.
    pose proof (Z.div_mod n p ltac:(lia)) as Hdm.
    pose proof (Z.mod_pos_bound n p ltac:(lia)) as Hm.
    destruct (Z.ltb_spec (n mod p) h); [nia |].
    destruct (Z.ltb_spec h (n mod p)); [nia |].
    destruct (Z.even (n / p)); nia. }
  destruct He as [-> | [-> | [-> | [-> | [-> | [-> | [-> | ->]]]]]]];
    cbv zeta.
  - apply (Hcase 2 1); lia.
  - apply (Hcase 4 2); lia.
  - apply (Hcase 8 4); lia.
  - apply (Hcase 16 8); lia.
  - apply (Hcase 32 16); lia.
  - apply (Hcase 64 32); lia.
  - apply (Hcase 128 64); lia.
  - apply (Hcase 256 128); lia.
Qed.

Lemma to_float_bounds : forall n,
  0 <= n < 2 ^ 32 -> 0 <= to_float n <= n + 128.
Proof.
  intros n [H0 H1]. destruct (Z.lt_ge_cases n (2 ^ 24)) as [H | H].
  - rewrite to_float_small by exact H. lia.
  - pose proof (to_float_near n (conj H H1)). lia.
Qed.

Lemma to_ulong_whole : forall t,
  0 <= t < 2 ^ 32 -> to_ulong (inject_Z t) = Some t.
Proof.
  intros t [H0 H1]. unfold to_ulong.
  replace (Qtrunc (inject_Z t)) with t
    by (unfold Qtrunc; cbn [inject_Z Qnum Qden]; rewrite Z.quot_1_r;
        reflexivity).
  destruct (Z.leb_spec 0 t); [| lia].
  destruct (Z.ltb_spec t (2 ^ 32)); [reflexivity | lia].
Qed.

(** *** Deadlines *)

Lemma deadline_dit : forall millis,
  deadline millis DIT_TIME =
  to_ulong (inject_Z (to_float (to_float millis + 60))).
Proof. intro millis. unfold deadline. rewrite DIT_TIME_ms. reflexivity. Qed.

Lemma deadline_dah : forall millis,
  deadline millis DAH_TIME =
  to_ulong (inject_Z (to_float (to_float millis + 180))).
Proof. intro millis. unfold deadline. rewrite DAH_TIME_ms. reflexivity. Qed.

#[global] Opaque deadline.

(** In the first 2^24 - 180 milliseconds the deadlines are exact. *)
Lemma deadline_exact_dit : forall millis,
  exact_clock millis -> deadline millis DIT_TIME = Some (millis + 60).
Proof.
  intros millis [H0 H1]. rewrite deadline_dit.
  change (2 ^ 24) with 16777216 in H1.
  rewrite (to_float_small millis) by (change (2 ^ 24) with 16777216; lia).
  rewrite (to_float_small (millis + 60))
    by (change (2 ^ 24) with 16777216; lia).
  apply to_ulong_whole. change (2 ^ 32) with 4294967296. lia.
Qed.

Lemma deadline_exact_dah : forall millis,
  exact_clock millis -> deadline millis DAH_TIME = Some (millis + 180).
Proof.
  intros millis [H0 H1]. rewrite deadline_dah.
  change (2 ^ 24) with 16777216 in H1.
  rewrite (to_float_small millis) by (change (2 ^ 24) with 16777216; lia).
  rewrite (to_float_small (millis + 180))
    by (change (2 ^ 24) with 16777216; lia).
  apply to_ulong_whole. change (2 ^ 32) with 4294967296. lia.
Qed.

(** Up to 2^32 - 512 milliseconds they fit [unsigned long]. *)
Lemma deadline_safe : forall millis,
  safe_clock millis ->
  (exists t, deadline millis DIT_TIME = Some t) /\
  (exists t, deadline millis DAH_TIME = Some t).
Proof.
  intros millis [H0 H1].
  change (2 ^ 32) with 4294967296 in H1.
  assert (Ha : 0 <= to_float millis <= millis + 128)
    by (apply to_float_bounds; change (2 ^ 32) with 4294967296; lia).
  rewrite deadline_dit, deadline_dah.
  split; eexists; apply to_ulong_whole.
  - assert (Hb : 0 <= to_float (to_float millis + 60)
                 <= to_float millis + 60 + 128)
      by (apply to_float_bounds; change (2 ^ 32) with 4294967296; lia).
    change (2 ^ 32) with 4294967296. lia.
  - assert (Hb : 0 <= to_float (to_float millis + 180)
                 <= to_float millis + 180 + 128)
      by (apply to_float_bounds; change (2 ^ 32) with 4294967296; lia).
    change (2 ^ 32) with 4294967296. lia.
Qed.

Lemma exact_clock_safe : forall millis, exact_clock millis -> safe_clock millis.
Proof.
  intros millis [H0 H1]. split; [exact H0 |].
  change (2 ^ 24) with 16777216 in H1. change (2 ^ 32) with 4294967296. lia.
Qed.

Lemma setup_power_on : setup power_on = Some initial_state.
Proof. vm_compute. reflexivity. Qed.

(** Case analysis on every test of a conditional in the goal. *)
Ltac split_ifs :=
  repeat match goal with
         | |- context [if ?b then _ else _] => destruct b
         end.

(** *** The tone state machine, state by state *)

Lemma tone_idle_dit : forall millis tt g,
  toneState g = IDLE_STATE -> tt = DIT \/ tt = DIT_DAH ->
  updateToneState millis tt g =
  option_map
    (fun t =>
       mkToneResult
         (set_toneState TONE_ON (set_lastTone DIT (set_toneTimer t g)))
         [tone TONE_PIN TONE_FREQ] false)
    (deadline millis DIT_TIME).
Proof.
  intros millis tt g Hs Ht. unfold updateToneState. rewrite Hs.
  destruct (deadline millis DIT_TIME); destruct Ht; subst tt; reflexivity.
Qed.

Lemma tone_idle_dah : forall millis tt g,
  toneState g = IDLE_STATE -> tt = DAH \/ tt = DAH_DIT ->
  updateToneState millis tt g =
  option_map
    (fun t =>
       mkToneResult
         (set_toneState TONE_ON (set_lastTone DAH (set_toneTimer t g)))
         [tone TONE_PIN TONE_FREQ] false)
    (deadline millis DAH_TIME).
Proof.
  intros millis tt g Hs Ht. unfold updateToneState. rewrite Hs.
  destruct (deadline millis DAH_TIME); destruct Ht; subst tt; reflexivity.
Qed.

Lemma tone_idle_other : forall millis tt g,
  toneState g = IDLE_STATE ->
  tt <> DIT -> tt <> DAH -> tt <> DIT_DAH -> tt <> DAH_DIT ->
  updateToneState millis tt g = Some (mkToneResult g [] false).
Proof.
  intros millis tt g Hs H1 H2 H3 H4. unfold updateToneState. rewrite Hs.
  cbn [Z.eqb IDLE_STATE].
  destruct (Z.eqb_spec tt DIT); [contradiction|].
  destruct (Z.eqb_spec tt DIT_DAH); [contradiction|].
  destruct (Z.eqb_spec tt DAH); [contradiction|].
  destruct (Z.eqb_spec tt DAH_DIT); [contradiction|].
  reflexivity.
Qed.

Lemma tone_on_expired : forall millis tt g,
  toneState g = TONE_ON -> toneTimer g < millis ->
  updateToneState millis tt g =
  option_map
    (fun t =>
       mkToneResult (set_toneState TONE_PAUSE (set_toneTimer t g))
                    [noTone TONE_PIN] false)
    (deadline millis DIT_TIME).
Proof.
  intros millis tt g Hs Ht. unfold updateToneState. rewrite Hs.
  cbn [Z.eqb Pos.eqb TONE_ON IDLE_STATE].
  replace (millis >? toneTimer g) with true by (symmetry; apply Z.gtb_lt; lia).
  destruct (deadline millis DIT_TIME); reflexivity.
Qed.

Lemma tone_on_running : forall millis tt g,
  toneState g = TONE_ON -> millis <= toneTimer g ->
  updateToneState millis tt g = Some (mkToneResult g [] false).
Proof.
  intros millis tt g Hs Ht. unfold updateToneState. rewrite Hs.
  cbn [Z.eqb Pos.eqb TONE_ON IDLE_STATE].
  destruct (Z.gtb_spec millis (toneTimer g)); [lia | reflexivity].
Qed.

Lemma tone_pause_running : forall millis tt g,
  toneState g = TONE_PAUSE -> millis <= toneTimer g ->
  updateToneState millis tt g = Some (mkToneResult g [] false).
Proof.
  intros millis tt g Hs Ht. unfold updateToneState. rewrite Hs.
  cbn [Z.eqb Pos.eqb TONE_PAUSE TONE_ON IDLE_STATE].
  destruct (Z.gtb_spec millis (toneTimer g)); [lia | reflexivity].
Qed.

Lemma tone_pause_finish : forall millis tt g,
  toneState g = TONE_PAUSE -> toneTimer g < millis ->
  tt = QUIET \/ tt = DIT \/ tt = DAH ->
  updateToneState millis tt g =
  Some (mkToneResult (set_lastTone QUIET (set_toneState IDLE_STATE g))
                     [] true).
Proof.
  intros millis tt g Hs Ht Htt. unfold updateToneState. rewrite Hs.
  cbn [Z.eqb Pos.eqb TONE_PAUSE TONE_ON IDLE_STATE].
  replace (millis >? toneTimer g) with true by (symmetry; apply Z.gtb_lt; lia).
  destruct Htt as [-> | [-> | ->]]; reflexivity.
Qed.

Lemma tone_pause_alternate : forall millis tt g,
  toneState g = TONE_PAUSE -> toneTimer g < millis ->
  tt = DIT_DAH \/ tt = DAH_DIT ->
  updateToneState millis tt g =
  if DIT =? lastTone g then
    option_map
      (fun t =>
         mkToneResult
           (set_toneState TONE_ON (set_lastTone DAH (set_toneTimer t g)))
           [tone TONE_PIN TONE_FREQ] false)
      (deadline millis DAH_TIME)
  else
    option_map
      (fun t =>
         mkToneResult
           (set_toneState TONE_ON (set_lastTone DIT (set_toneTimer t g)))
           [tone TONE_PIN TONE_FREQ] false)
      (deadline millis DIT_TIME).
Proof.
  intros millis tt g Hs Ht Htt. unfold updateToneState. rewrite Hs.
  cbn [Z.eqb Pos.eqb TONE_PAUSE TONE_ON IDLE_STATE].
  replace (millis >? toneTimer g) with true by (symmetry; apply Z.gtb_lt; lia).
  destruct (deadline millis DAH_TIME), (deadline millis DIT_TIME);
    destruct Htt as [-> | ->]; reflexivity.
Qed.

Lemma tone_pause_other : forall millis tt g,
  toneState g = TONE_PAUSE ->
  tt <> QUIET -> tt <> DIT -> tt <> DAH -> tt <> DIT_DAH -> tt <> DAH_DIT ->
  updateToneState millis tt g = Some (mkToneResult g [] false).
Proof.
  intros millis tt g Hs H0 H1 H2 H3 H4. unfold updateToneState. rewrite Hs.
  cbn [Z.eqb Pos.eqb TONE_PAUSE TONE_ON IDLE_STATE].
  destruct (millis >? toneTimer g); [|reflexivity].
  destruct (Z.eqb_spec tt QUIET); [contradiction|].
  destruct (Z.eqb_spec tt DIT); [contradiction|].
  destruct (Z.eqb_spec tt DAH); [contradiction|].
  destruct (Z.eqb_spec tt DIT_DAH); [contradiction|].
  destruct (Z.eqb_spec tt DAH_DIT); [contradiction|].
  reflexivity.
Qed.

Lemma tone_other_state : forall millis tt g,
  toneState g <> IDLE_STATE -> toneState g <> TONE_ON ->
  toneState g <> TONE_PAUSE ->
  updateToneState millis tt g = Some (mkToneResult g [] false).
Proof.
  intros millis tt g H0 H1 H2. unfold updateToneState.
  destruct (Z.eqb_spec (toneState g) IDLE_STATE); [contradiction|].
  destruct (Z.eqb_spec (toneState g) TONE_ON); [contradiction|].
  destruct (Z.eqb_spec (toneState g) TONE_PAUSE); [contradiction|].
  reflexivity.
Qed.

(** Clock ranges at concrete readings. *)
Ltac clock_range :=
  repeat match goal with x := _ |- _ => subst x end;
  unfold clocks;
  repeat first [apply Forall_nil | apply Forall_cons];
  unfold exact_clock, safe_clock; cbn [clock];
  try change (2 ^ 24) with 16777216;
  try change (2 ^ 32) with 4294967296;
  lia.

(** A property of every pass of a concrete run, pass by pass. *)
Ltac each_pass tac :=
  repeat match goal with x := _ |- _ => subst x end;
  repeat first [apply Forall_nil | apply Forall_cons];
  tac.

(** *** The paddle state machine *)

(** Case analysis on every test and every deadline of a hypothesis. *)
Ltac split_tone H :=
  repeat match type of H with
         | context [if ?b then _ else _] => destruct b
         | context [match deadline ?m ?d with _ => _ end] =>
           destruct (deadline m d)
         end.

(** [updateToneState] leaves the variables of the paddle machine and the
    speed settings alone. *)
Lemma updateToneState_frame : forall millis tt g r,
  updateToneState millis tt g = Some r ->
  let g' := after r in
  state g' = state g /\ toneType g' = toneType g /\
  ditTime g' = ditTime g /\ dahTime g' = dahTime g /\
  wordTime g' = wordTime g /\ toneFrequency g' = toneFrequency g.
Proof.
  intros millis tt g r H. unfold updateToneState in H.
  split_tone H; try discriminate; injection H as <-; cbn;
    repeat split; reflexivity.
Qed.

(** A pass of the loop, taken apart. *)
Lemma loop_some : forall dr millis g g' effs,
  loop dr millis g = Some (g', effs) ->
  exists r,
    updateToneState millis (toneType (updateMainState dr g))
                    (updateMainState dr g) = Some r /\
    g' = after r /\ effs = emitted r.
Proof.
  intros dr millis g g' effs H. unfold loop in H. cbv zeta in H.
  destruct (updateToneState millis (toneType (updateMainState dr g))
              (updateMainState dr g)) as [r |]; [| discriminate].
  injection H as <- <-. exists r. repeat split; reflexivity.
Qed.

(** [updateMainState] leaves the variables of the tone machine alone. *)
Lemma updateMainState_frame : forall dr g,
  let g' := updateMainState dr g in
  toneState g' = toneState g /\ lastTone g' = lastTone g /\
  toneTimer g' = toneTimer g /\
  ditTime g' = ditTime g /\ dahTime g' = dahTime g.
Proof.
  intros dr g. unfold updateMainState.
  split_ifs; cbn; repeat split; reflexivity.
Qed.

Lemma updateMainState_inv : forall dr g,
  main_inv g -> main_inv (updateMainState dr g).
Proof.
  intros dr g H. unfold main_inv in *. unfold updateMainState.
  destruct H as [[Hs Ht] | [[Hs Ht] | [[Hs Ht] | [Hs Ht]]]]; rewrite Hs;
    cbn [Z.eqb Pos.eqb IDLE_STATE DIT_INPUT DAH_INPUT DIT_DAH_INPUT];
    destruct (dr DIT_PIN =? LOW), (dr DAH_PIN =? LOW); cbn; tauto.
Qed.

Lemma loop_inv : forall dr millis g g' effs,
  main_inv g -> loop dr millis g = Some (g', effs) -> main_inv g'.
Proof.
  intros dr millis g g' effs H Hl.
  destruct (loop_some _ _ _ _ _ Hl) as (r & Hr & -> & _).
  pose proof (updateMainState_inv dr g H) as H1.
  pose proof (updateToneState_frame _ _ _ _ Hr) as (Es & Et & _).
  unfold main_inv in *. rewrite Es, Et. exact H1.
Qed.

Lemma run_inv : forall ticks g, main_inv g -> main_inv (run ticks g).
Proof.
  induction ticks as [|t rest IH]; intros g H; cbn [run].
  - exact H.
  - destruct (loop (pins t) (clock t) g) as [[g' effs] |] eqn:Hl.
    + apply IH. exact (loop_inv _ _ _ _ _ H Hl).
    + exact H.
Qed.

Lemma initial_inv : main_inv initial_state.
Proof. left. split; reflexivity. Qed.

(** C3. In the squeeze state [DIT_DAH_INPUT], a pass that reads either
    paddle released sets the tone type to [QUIET] and the state to
    [IDLE_STATE] in that same pass; whatever the pins read, the state after
    the pass is neither [DIT_INPUT] nor [DAH_INPUT]. *)
Theorem squeeze_release_goes_idle : forall digitalRead g,
  state g = DIT_DAH_INPUT ->
  let g' := updateMainState digitalRead g in
  (digitalRead DIT_PIN <> LOW \/ digitalRead DAH_PIN <> LOW ->
   toneType g' = QUIET /\ state g' = IDLE_STATE) /\
  state g' <> DIT_INPUT /\ state g' <> DAH_INPUT.
Proof.
  intros dr g Hs g'. subst g'. unfold updateMainState. rewrite Hs.
  cbn [Z.eqb Pos.eqb IDLE_STATE DIT_INPUT DAH_INPUT DIT_DAH_INPUT].
  destruct (Z.eqb_spec (dr DIT_PIN) LOW) as [Ed | Ed];
    destruct (Z.eqb_spec (dr DAH_PIN) LOW) as [Eh | Eh];
    cbn [negb orb set_state set_toneType state toneType]; rewrite ?Hs;
    (split; [intros Hr | split; discriminate]);
    try (split; reflexivity).
  destruct Hr; contradiction.
Qed.

Lemma squeeze_release_goes_idle_witness :
  let g := run [mkTick (paddles true false) 0; mkTick (paddles true true) 1]
               initial_state in
  let g' := updateMainState (paddles false true) g in
  state g = DIT_DAH_INPUT /\
  toneType g' = QUIET /\ state g' = IDLE_STATE /\
  state g' <> DIT_INPUT /\ state g' <> DAH_INPUT.
Proof.
  intros g g'.
  assert (Hs : state g = DIT_DAH_INPUT) by (vm_compute; reflexivity).
  destruct (squeeze_release_goes_idle (paddles false true) g Hs)
    as (Hrel & Hdit & Hdah).
  destruct Hrel as [Ht Hi]; [left; discriminate |].
  repeat split; assumption.
Defined.

(** C9. In any state the loop reaches, a pass in [DIT_INPUT] that reads the
    dit paddle released and the dah paddle pressed changes nothing: the tone
    type is and stays [DIT], the state stays [DIT_INPUT].  The same holds in
    [DAH_INPUT] with only the dit paddle pressed, for [DAH]. *)
Theorem opposite_paddle_keeps_sending : forall ticks digitalRead,
  let g := run ticks initial_state in
  let g' := updateMainState digitalRead g in
  (state g = DIT_INPUT ->
   digitalRead DIT_PIN <> LOW -> digitalRead DAH_PIN = LOW ->
   toneType g = DIT /\ toneType g' = DIT /\ state g' = DIT_INPUT) /\
  (state g = DAH_INPUT ->
   digitalRead DIT_PIN = LOW -> digitalRead DAH_PIN <> LOW ->
   toneType g = DAH /\ toneType g' = DAH /\ state g' = DAH_INPUT).
Proof.
  intros ticks dr g g'.
  pose proof (run_inv ticks initial_state initial_inv) as Hinv.
  fold g in Hinv. subst g'. unfold updateMainState.
  split; intros Hs Hd Hh; rewrite Hs;
    cbn [Z.eqb Pos.eqb IDLE_STATE DIT_INPUT DAH_INPUT DIT_DAH_INPUT];
    destruct (Z.eqb_spec (dr DIT_PIN) LOW) as [Ed | Ed]; try contradiction;
    destruct (Z.eqb_spec (dr DAH_PIN) LOW) as [Eh | Eh]; try contradiction;
    cbn [negb andb];
    destruct Hinv as [[Hs' Ht] | [[Hs' Ht] | [[Hs' Ht] | [Hs' Ht]]]];
    rewrite Hs in Hs'; try discriminate; auto.
Qed.

Lemma opposite_paddle_keeps_sending_witness :
  (let g := run [mkTick (paddles true false) 0] initial_state in
   let g' := updateMainState (paddles false true) g in
   toneType g = DIT /\ toneType g' = DIT /\ state g' = DIT_INPUT) /\
  (let g := run [mkTick (paddles false true) 0] initial_state in
   let g' := updateMainState (paddles true false) g in
   toneType g = DAH /\ toneType g' = DAH /\ state g' = DAH_INPUT).
Proof.
  split.
  - apply (opposite_paddle_keeps_sending
             [mkTick (paddles true false) 0] (paddles false true));
      [vm_compute; reflexivity | discriminate | reflexivity].
  - apply (opposite_paddle_keeps_sending
             [mkTick (paddles false true) 0] (paddles true false));
      [vm_compute; reflexivity | reflexivity | discriminate].
Defined.

(** C10. After any number of passes of the loop from the state [setup]
    leaves, the paddle state is [IDLE_STATE], [DIT_INPUT], [DAH_INPUT] or
    [DIT_DAH_INPUT], never [DAH_DIT_INPUT]; with both paddles pressed,
    [DIT_INPUT] moves to [DIT_DAH_INPUT] with tone type [DIT_DAH] and
    [DAH_INPUT] moves to the same [DIT_DAH_INPUT] with tone type
    [DAH_DIT]. *)
Theorem paddle_state_range : forall ticks,
  let g := run ticks initial_state in
  (state g = IDLE_STATE \/ state g = DIT_INPUT \/ state g = DAH_INPUT \/
   state g = DIT_DAH_INPUT) /\
  state g <> DAH_DIT_INPUT /\
  (forall digitalRead h,
     digitalRead DIT_PIN = LOW -> digitalRead DAH_PIN = LOW ->
     (state h = DIT_INPUT ->
      toneType (updateMainState digitalRead h) = DIT_DAH /\
      state (updateMainState digitalRead h) = DIT_DAH_INPUT) /\
     (state h = DAH_INPUT ->
      toneType (updateMainState digitalRead h) = DAH_DIT /\
      state (updateMainState digitalRead h) = DIT_DAH_INPUT)).
Proof.
  intros ticks g.
  pose proof (run_inv ticks initial_state initial_inv) as Hinv. fold g in Hinv.
  split; [|split].
  - destruct Hinv as [[H _] | [[H _] | [[H _] | [H _]]]]; auto.
  - destruct Hinv as [[H _] | [[H _] | [[H _] | [H _]]]]; rewrite H;
      discriminate.
  - intros dr h Hd Hh. unfold updateMainState. rewrite Hd, Hh.
    split; intros Hs; rewrite Hs; split; reflexivity.
Qed.

Lemma paddle_state_range_witness :
  (let g := run [mkTick (paddles true false) 0] initial_state in
   state g = DIT_INPUT /\
   toneType (updateMainState (paddles true true) g) = DIT_DAH /\
   state (updateMainState (paddles true true) g) = DIT_DAH_INPUT) /\
  (let g := run [mkTick (paddles false true) 0] initial_state in
   state g = DAH_INPUT /\
   toneType (updateMainState (paddles true true) g) = DAH_DIT /\
   state (updateMainState (paddles true true) g) = DIT_DAH_INPUT).
Proof.
  split; intro g; (split; [vm_compute; reflexivity |]).
  - apply (proj2 (proj2 (paddle_state_range [])) (paddles true true) g);
      reflexivity.
  - apply (proj2 (proj2 (paddle_state_range [])) (paddles true true) g);
      reflexivity.
Defined.

(** *** Definedness *)

(** Up to 2^32 - 512 ms every call of [updateToneState], and so every pass
    of the loop, is defined. *)
Lemma updateToneState_defined : forall millis tt g,
  safe_clock millis -> exists r, updateToneState millis tt g = Some r.
Proof.
  intros millis tt g Hc.
  destruct (deadline_safe millis Hc) as [[t1 H1] [t2 H2]].
  unfold updateToneState. rewrite H1, H2.
  split_ifs; eexists; reflexivity.
Qed.

Lemma loop_defined : forall dr millis g,
  safe_clock millis -> exists g' effs, loop dr millis g = Some (g', effs).
Proof.
  intros dr millis g Hc. unfold loop. cbv zeta.
  destruct (updateToneState_defined millis
              (toneType (updateMainState dr g)) (updateMainState dr g) Hc)
    as [r ->].
  eexists. eexists. reflexivity.
Qed.

Lemma defined_safe : forall ticks g,
  clocks safe_clock ticks -> defined ticks g.
Proof.
  induction ticks as [| t rest IH]; intros g Hc; cbn [defined].
  - exact I.
  - inversion Hc as [| ? ? Ht Hrest]; subst.
    destruct (loop_defined (pins t) (clock t) g Ht) as (g' & effs & ->).
    apply IH, Hrest.
Qed.

Lemma clocks_exact_safe : forall ticks,
  clocks exact_clock ticks -> clocks safe_clock ticks.
Proof.
  intros ticks H. unfold clocks in *.
  eapply Forall_impl; [| exact H].
  intros t Ht. apply exact_clock_safe, Ht.
Qed.

Lemma defined_exact : forall ticks g,
  clocks exact_clock ticks -> defined ticks g.
Proof. intros ticks g H. apply defined_safe, clocks_exact_safe, H. Qed.
(** *** The tone state machine *)

(** C5 (as the code has it). In [TONE_ON], a pass whose clock reading is
    greater than [toneTimer] stops the tone and moves to [TONE_PAUSE]; while
    the clock is below 2^24 - 180 ms it is defined and sets [toneTimer] to
    the reading plus [DIT_TIME] (60 ms).  A pass whose reading is less than
    or equal to [toneTimer] does nothing. *)
Theorem tone_on_until_deadline_passed : forall millis tt g,
  toneState g = TONE_ON ->
  (toneTimer g < millis -> exact_clock millis ->
   exists r,
     updateToneState millis tt g = Some r /\
     emitted r = [noTone TONE_PIN] /\
     toneTimer (after r) = millis + 60 /\
     toneState (after r) = TONE_PAUSE /\
     after r = set_toneState TONE_PAUSE (set_toneTimer (millis + 60) g)) /\
  (toneTimer g < millis ->
   forall r, updateToneState millis tt g = Some r ->
     emitted r = [noTone TONE_PIN] /\ toneState (after r) = TONE_PAUSE) /\
  (millis <= toneTimer g ->
   updateToneState millis tt g = Some (mkToneResult g [] false)).
Proof.
  intros millis tt g Hs. split; [| split].
  - intros Ht Hc. rewrite (tone_on_expired millis tt g Hs Ht).
    rewrite (deadline_exact_dit millis Hc). cbn [option_map].
    eexists. split; [reflexivity |]. cbn. auto.
  - intros Ht r Hr. rewrite (tone_on_expired millis tt g Hs Ht) in Hr.
    destruct (deadline millis DIT_TIME); [| discriminate].
    injection Hr as <-. cbn. auto.
  - intro Ht. apply tone_on_running; assumption.
Qed.

Lemma tone_on_until_deadline_passed_witness :
  let g := run [mkTick (paddles true false) 0] initial_state in
  toneState g = TONE_ON /\ toneTimer g = 60 /\
  (exists r,
     updateToneState 61 (toneType g) g = Some r /\
     emitted r = [noTone TONE_PIN] /\
     toneTimer (after r) = 61 + 60 /\
     toneState (after r) = TONE_PAUSE /\
     after r = set_toneState TONE_PAUSE (set_toneTimer (61 + 60) g)) /\
  updateToneState 60 (toneType g) g = Some (mkToneResult g [] false).
Proof.
  intro g.
  assert (Hs : toneState g = TONE_ON) by (vm_compute; reflexivity).
  assert (Ht : toneTimer g = 60) by (vm_compute; reflexivity).
  split; [exact Hs | split; [exact Ht | split]].
  - apply (proj1 (tone_on_until_deadline_passed 61 (toneType g) g Hs)).
    + rewrite Ht. lia.
    + clock_range.
  - apply (proj2 (proj2 (tone_on_until_deadline_passed 60 (toneType g) g Hs))).
    rewrite Ht. lia.
Defined.

(** C5, as stated, fails when the clock reading equals the deadline: the
    comparison in the code is strict.  After a dit has started at time 0
    its deadline is 60; the pass at time 60 leaves the tone on. *)
Lemma tone_on_at_deadline_continues :
  let g := run [mkTick (paddles true false) 0] initial_state in
  toneState g = TONE_ON /\ 60 >= toneTimer g /\
  exists r,
    updateToneState 60 (toneType g) g = Some r /\
    emitted r = [] /\ toneState (after r) = TONE_ON /\
    toneState (after r) <> TONE_PAUSE.
Proof.
  cbv zeta. split; [vm_compute; reflexivity |].
  split; [vm_compute; discriminate |].
  eexists. split; [vm_compute; reflexivity |].
  repeat split; try reflexivity. vm_compute; discriminate.
Qed.

(** C8. [updateToneState] returns true exactly when it moves from
    [TONE_PAUSE] to [IDLE_STATE], which is when the clock has passed the
    pause deadline and the tone type is [QUIET], [DIT] or [DAH]; with a
    squeeze tone type ([DIT_DAH] or [DAH_DIT]) it returns false. *)
Theorem done_iff_pause_to_idle : forall millis tt g,
  let o := updateToneState millis tt g in
  (forall r, o = Some r ->
     (done r = true <->
      toneState g = TONE_PAUSE /\ toneState (after r) = IDLE_STATE)) /\
  ((exists r, o = Some r /\ done r = true) <->
   toneState g = TONE_PAUSE /\ toneTimer g < millis /\
   (tt = QUIET \/ tt = DIT \/ tt = DAH)) /\
  (forall r, o = Some r -> tt = DIT_DAH \/ tt = DAH_DIT -> done r = false).
Proof.
  intros millis tt g o. subst o.
  assert (Hall : forall r, updateToneState millis tt g = Some r ->
            (done r = true <->
             toneState g = TONE_PAUSE /\ toneState (after r) = IDLE_STATE) /\
            (done r = true <->
             toneState g = TONE_PAUSE /\ toneTimer g < millis /\
             (tt = QUIET \/ tt = DIT \/ tt = DAH)) /\
            (tt = DIT_DAH \/ tt = DAH_DIT -> done r = false)).
  { intros r Hr. unfold updateToneState in Hr.
    destruct (Z.eqb_spec (toneState g) IDLE_STATE) as [E0 | E0];
    [| destruct (Z.eqb_spec (toneState g) TONE_ON) as [E1 | E1];
       [| destruct (Z.eqb_spec (toneState g) TONE_PAUSE) as [E2 | E2]]];
    destruct (Z.gtb_spec millis (toneTimer g)) as [Hg | Hg];
    destruct (Z.eqb_spec tt QUIET), (Z.eqb_spec tt DIT), (Z.eqb_spec tt DAH),
             (Z.eqb_spec tt DIT_DAH), (Z.eqb_spec tt DAH_DIT);
    try (subst tt; discriminate);
    try destruct (Z.eqb_spec DIT (lastTone g));
    cbn [orb] in Hr;
    try destruct (deadline millis DIT_TIME);
    try destruct (deadline millis DAH_TIME);
    try discriminate; injection Hr as <-;
    cbn [orb done after toneState set_toneState set_lastTone set_toneTimer];
    unfold IDLE_STATE, TONE_ON, TONE_PAUSE in *;
    unfold QUIET, DIT, DAH, DIT_DAH, DAH_DIT in *;
    (split; [| split]); try split; intros;
    repeat match goal with
           | H : _ /\ _ |- _ => destruct H
           | H : _ \/ _ |- _ => destruct H
           end;
    try discriminate; try lia; try reflexivity; try congruence;
    try (repeat split; first [reflexivity | lia | assumption | auto]). }
  split; [| split].
  - intros r Hr. apply (Hall r Hr).
  - split.
    + intros (r & Hr & Hd). apply (proj1 (proj2 (Hall r Hr))), Hd.
    + intros (Hs & Ht & Htt).
      rewrite (tone_pause_finish millis tt g Hs Ht Htt).
      eexists. split; reflexivity.
  - intros r Hr. apply (Hall r Hr).
Qed.

Lemma done_iff_pause_to_idle_witness :
  let g := run [mkTick (paddles true false) 0; mkTick (paddles false false) 61]
               initial_state in
  toneState g = TONE_PAUSE /\ toneTimer g = 121 /\ toneType g = QUIET /\
  (exists r, updateToneState 122 (toneType g) g = Some r /\ done r = true) /\
  (forall r, updateToneState 122 DIT_DAH g = Some r -> done r = false).
Proof.
  intro g.
  assert (Hs : toneState g = TONE_PAUSE) by (vm_compute; reflexivity).
  assert (Ht : toneTimer g = 121) by (vm_compute; reflexivity).
  assert (Hq : toneType g = QUIET) by (vm_compute; reflexivity).
  split; [exact Hs | split; [exact Ht | split; [exact Hq |]]].
  split.
  - apply (proj2 (proj1 (proj2 (done_iff_pause_to_idle 122 (toneType g) g)))).
    split; [exact Hs | split; [rewrite Ht; lia | left; exact Hq]].
  - intros r Hr.
    apply (proj2 (proj2 (done_iff_pause_to_idle 122 DIT_DAH g)) r Hr).
    left; reflexivity.
Defined.
(** *** The pause after every element *)

Lemma updateToneState_cases : forall millis tt g r,
  updateToneState millis tt g = Some r ->
  tone_step millis g (after r) (emitted r).
Proof.
  intros millis tt g r Hr. unfold updateToneState in Hr.
  destruct (Z.eqb_spec (toneState g) IDLE_STATE) as [E0 | E0].
  { destruct ((tt =? DIT) || (tt =? DIT_DAH)).
    - destruct (deadline millis DIT_TIME); [| discriminate].
      injection Hr as <-. apply step_start; auto.
    - destruct ((tt =? DAH) || (tt =? DAH_DIT)).
      + destruct (deadline millis DAH_TIME); [| discriminate].
        injection Hr as <-. apply step_start; auto.
      + injection Hr as <-. apply step_nothing; reflexivity. }
  destruct (Z.eqb_spec (toneState g) TONE_ON) as [E1 | E1].
  { destruct (Z.gtb_spec millis (toneTimer g)) as [Hg | Hg].
    - destruct (deadline millis DIT_TIME) eqn:Hd; [| discriminate].
      injection Hr as <-. apply step_stop; auto.
    - injection Hr as <-. apply step_nothing; reflexivity. }
  destruct (Z.eqb_spec (toneState g) TONE_PAUSE) as [E2 | E2].
  { destruct (Z.gtb_spec millis (toneTimer g)) as [Hg | Hg].
    - destruct ((tt =? QUIET) || (tt =? DIT) || (tt =? DAH)).
      + injection Hr as <-. apply step_finish; auto.
      + destruct ((tt =? DIT_DAH) || (tt =? DAH_DIT)).
        * destruct (DIT =? lastTone g);
            [destruct (deadline millis DAH_TIME)
            | destruct (deadline millis DIT_TIME)];
            try discriminate; injection Hr as <-; apply step_start; auto.
        * injection Hr as <-. apply step_nothing; reflexivity.
    - injection Hr as <-. apply step_nothing; reflexivity. }
  injection Hr as <-. apply step_nothing; reflexivity.
Qed.

Lemma loop_cases : forall dr millis g g' effs,
  loop dr millis g = Some (g', effs) -> tone_step millis g g' effs.
Proof.
  intros dr millis g g' effs Hl.
  destruct (loop_some _ _ _ _ _ Hl) as (r & Hr & -> & ->).
  set (m := updateMainState dr g) in *.
  pose proof (updateMainState_frame dr g) as (Fs & _ & Ft & _).
  fold m in Fs, Ft.
  destruct (updateToneState_cases millis (toneType m) m r Hr)
    as [Hn H1 H2 | Hst He Ha | Hst Ht He Ha Hd | Hst Ht He Ha];
    rewrite ?Fs, ?Ft in *.
  - apply step_nothing; assumption.
  - apply step_start; assumption.
  - apply step_stop; assumption.
  - apply step_finish; assumption.
Qed.

Lemma tone_step_ok : forall millis g g' effs,
  tone_state_ok g -> tone_step millis g g' effs -> tone_state_ok g'.
Proof.
  intros millis g g' effs Hok Hst. unfold tone_state_ok in *.
  destruct Hst as [_ H _ | _ _ H | _ _ _ H _ | _ _ _ H]; rewrite H; auto.
Qed.

(** The trace invariant, for a run from any state of the sequencer, while
    the deadlines are exact. *)
Lemma trace_silences : forall ticks g lo,
  tone_state_ok g ->
  clock_monotone ticks ->
  clocks exact_clock ticks ->
  match ticks with [] => True | t :: _ => lo <= clock t end ->
  silences_kept 60 (trace ticks g) /\ head_ok g lo (trace ticks g).
Proof.
  induction ticks as [| t rest IH]; intros g lo Hok Hmono Hex Hlo.
  - cbn. auto.
  - cbn [trace].
    inversion Hex as [| ? ? Hext Hexr]; subst.
    destruct (loop (pins t) (clock t) g) as [[g' effs] |] eqn:Hl;
      [| cbn; auto].
    pose proof (loop_cases _ _ _ _ _ Hl) as Hstep.
    pose proof (tone_step_ok _ _ _ _ Hok Hstep) as Hok'.
    destruct Hmono as [Hnext Hmono].
    assert (Hlo' : match rest with
                   | [] => True
                   | t' :: _ => clock t <= clock t'
                   end) by (destruct rest; auto).
    destruct (IH g' (clock t) Hok' Hmono Hexr Hlo') as [IHs IHh].
    unfold IDLE_STATE, TONE_ON, TONE_PAUSE in *.
    destruct Hstep as [He Hs Ht | Hst He Ha | Hst Ht He Ha Hd | Hst Ht He Ha];
      rewrite He; cbn [map app]; unfold IDLE_STATE, TONE_ON, TONE_PAUSE in *.
    + split; [exact IHs |].
      destruct (trace rest g') as [| [t' e'] tr']; cbn [head_ok] in *;
        [exact I |].
      rewrite Hs, Ht in IHh. destruct IHh as (H1 & H2). split; [lia | exact H2].
    + split.
      * cbn [silences_kept]. split; [| exact IHs].
        destruct (trace rest g') as [| [t' e'] tr']; [exact I |].
        cbn [head_ok] in IHh. destruct IHh as (_ & _ & H1 & _).
        destruct e'; [exact (H1 Ha) | exact I].
      * cbn. unfold IDLE_STATE, TONE_ON, TONE_PAUSE.
        split; [exact Hlo |]. repeat split; try exact I; intros; lia.
    + rewrite (deadline_exact_dit _ Hext) in Hd. injection Hd as Hd.
      split.
      * cbn [silences_kept]. split; [| exact IHs].
        destruct (trace rest g') as [| [t' e'] tr']; [exact I |].
        cbn [head_ok] in IHh. destruct IHh as (_ & _ & _ & H1).
        destruct (H1 Ha) as [H2 H3].
        destruct e'; [lia | exact H2].
      * cbn. unfold IDLE_STATE, TONE_ON, TONE_PAUSE.
        split; [exact Hlo |]. repeat split; try exact I; intros; lia.
    + split; [exact IHs |].
      destruct (trace rest g') as [| [t' e'] tr']; cbn [head_ok] in *;
        [exact I |].
      unfold IDLE_STATE, TONE_ON, TONE_PAUSE in *.
      destruct IHh as (H1 & H2 & _). split; [lia |].
      repeat split; intros; try lia; auto.
Qed.

(** C6 (where the code departs from it). With the clock at 2^31 + 100 ms
    the dit paddle is pressed and then both paddles are held, one pass per
    millisecond.  The sum of the clock reading and [DIT_TIME] is formed in
    32-bit floating point and rounds to 2^31, a deadline that has already
    passed: the dit is stopped after 1 ms, the pause deadline stored then is
    2^31 as well, and the next element starts 1 ms after the dit ended, not
    more than 60 ms after it. *)
Theorem pause_lost_to_rounding :
  let t0 := 2 ^ 31 + 100 in
  let ticks := [mkTick (paddles true false) t0;
                mkTick (paddles true true) (t0 + 1);
                mkTick (paddles true true) (t0 + 2)] in
  clock_monotone ticks /\
  defined ticks initial_state /\
  toneState (run (firstn 2 ticks) initial_state) = TONE_PAUSE /\
  toneTimer (run (firstn 2 ticks) initial_state) = 2 ^ 31 /\
  trace ticks initial_state =
    [(t0, tone TONE_PIN TONE_FREQ); (t0 + 1, noTone TONE_PIN);
     (t0 + 2, tone TONE_PIN TONE_FREQ)] /\
  ~ silences_kept 60 (trace ticks initial_state).
Proof.
  cbv zeta. split; [cbn; lia |].
  split; [vm_compute; exact I |].
  split; [vm_compute; reflexivity |].
  split; [vm_compute; reflexivity |].
  split; [vm_compute; reflexivity |].
  vm_compute. intros (_ & H & _). discriminate H.
Qed.

(** X20. Whatever element was playing, the pass that ends it stops the tone
    and, while the clock is below 2^24 - 180 ms, sets the pause deadline to
    the clock reading plus [DIT_TIME] (60 ms); until the clock has passed
    that deadline the sequencer does nothing, and the first pass after it
    leaves the pause; and every run of the loop from the state [setup]
    leaves, with a clock that does not run backwards and stays below
    2^24 - 180 ms, is defined, tone and silence take turns in it and every
    start of a tone comes more than 60 ms after the end of the tone before
    it. *)
Theorem pause_after_every_element :
  (forall millis tt g,
     toneState g = TONE_ON -> toneTimer g < millis -> exact_clock millis ->
     exists r,
       updateToneState millis tt g = Some r /\
       emitted r = [noTone TONE_PIN] /\ toneState (after r) = TONE_PAUSE /\
       toneTimer (after r) = millis + 60) /\
  (forall millis tt g,
     toneState g = TONE_PAUSE -> millis <= toneTimer g ->
     updateToneState millis tt g = Some (mkToneResult g [] false)) /\
  (forall millis tt g,
     toneState g = TONE_PAUSE -> toneTimer g < millis ->
     QUIET <= tt <= DAH_DIT -> exact_clock millis ->
     exists r,
       updateToneState millis tt g = Some r /\
       toneState (after r) <> TONE_PAUSE) /\
  (forall ticks,
     clock_monotone ticks -> clocks exact_clock ticks ->
     defined ticks initial_state /\
     silences_kept 60 (trace ticks initial_state)).
Proof.
  split; [| split; [| split]].
  - intros millis tt g Hs Ht Hc.
    rewrite (tone_on_expired millis tt g Hs Ht).
    rewrite (deadline_exact_dit millis Hc). cbn [option_map].
    eexists. split; [reflexivity |]. cbn. auto.
  - apply tone_pause_running.
  - intros millis tt g Hs Ht Htt Hc.
    unfold QUIET, DAH_DIT in Htt.
    assert (Hcase : (tt = QUIET \/ tt = DIT \/ tt = DAH) \/
                    (tt = DIT_DAH \/ tt = DAH_DIT))
      by (unfold QUIET, DIT, DAH, DIT_DAH, DAH_DIT; lia).
    destruct Hcase as [Hcase | Hcase].
    + rewrite (tone_pause_finish millis tt g Hs Ht Hcase).
      eexists. split; [reflexivity | discriminate].
    + rewrite (tone_pause_alternate millis tt g Hs Ht Hcase).
      rewrite (deadline_exact_dit millis Hc), (deadline_exact_dah millis Hc).
      destruct (DIT =? lastTone g); eexists;
        (split; [reflexivity | discriminate]).
  - intros ticks Hmono Hex. split; [apply defined_exact, Hex |].
    destruct ticks as [| t rest]; [exact I |].
    apply (trace_silences (t :: rest) initial_state (clock t)).
    + left. reflexivity.
    + exact Hmono.
    + exact Hex.
    + apply Z.le_refl.
Qed.

Lemma pause_after_every_element_witness :
  let ticks := [mkTick (paddles false true) 0; mkTick (paddles false true) 181;
                mkTick (paddles true true) 242; mkTick (paddles true true) 303;
                mkTick (paddles false false) 364] in
  clock_monotone ticks /\ clocks exact_clock ticks /\
  trace ticks initial_state =
    [(0, tone TONE_PIN TONE_FREQ); (181, noTone TONE_PIN);
     (242, tone TONE_PIN TONE_FREQ); (303, noTone TONE_PIN)] /\
  defined ticks initial_state /\
  silences_kept 60 (trace ticks initial_state) /\
  (let g := run [mkTick (paddles false true) 0] initial_state in
   lastTone g = DAH /\ toneTimer g = 180 /\
   exists r,
     updateToneState 181 (toneType g) g = Some r /\
     emitted r = [noTone TONE_PIN] /\ toneState (after r) = TONE_PAUSE /\
     toneTimer (after r) = 181 + 60).
Proof.
  intro ticks.
  assert (Hm : clock_monotone ticks) by (cbn; lia).
  assert (Hc : clocks exact_clock ticks) by (subst ticks; clock_range).
  split; [exact Hm | split; [exact Hc | split; [| split]]].
  - vm_compute. reflexivity.
  - apply (proj1 (proj2 (proj2 (proj2 pause_after_every_element)) ticks Hm Hc)).
  - split.
    + apply (proj2 (proj2 (proj2 (proj2 pause_after_every_element))
                      ticks Hm Hc)).
    + intro g.
      assert (Ht : toneTimer g = 180) by (vm_compute; reflexivity).
      split; [vm_compute; reflexivity | split; [exact Ht |]].
      apply (proj1 pause_after_every_element 181 (toneType g) g);
        [vm_compute; reflexivity | rewrite Ht; lia | clock_range].
Defined.
(** *** Inside a phase the tone type is not looked at *)

Lemma run_tone_app : forall a b g,
  run_tone (a ++ b) g =
  match run_tone a g with
  | None => None
  | Some (g1, tr1, d1) =>
    match run_tone b g1 with
    | None => None
    | Some (g2, tr2, d2) => Some (g2, tr1 ++ tr2, d1 ++ d2)
    end
  end.
Proof.
  induction a as [| [millis tt] a IH]; intros b g.
  - cbn. destruct (run_tone b g) as [[[g2 tr2] d2] |]; reflexivity.
  - cbn [app run_tone].
    destruct (updateToneState millis tt g) as [r |]; [| reflexivity].
    rewrite IH.
    destruct (run_tone a (after r)) as [[[g1 tr1] d1] |]; [| reflexivity].
    destruct (run_tone b g1) as [[[g2 tr2] d2] |]; [| reflexivity].
    rewrite app_assoc. reflexivity.
Qed.

Lemma run_tone_mid_phase : forall calls g,
  toneState g = TONE_ON \/ toneState g = TONE_PAUSE ->
  Forall (fun c => fst c <= toneTimer g) calls ->
  run_tone calls g = Some (g, [], repeat false (length calls)).
Proof.
  induction calls as [| [millis tt] calls IH]; intros g Hs Hall.
  - reflexivity.
  - inversion Hall as [| c l Hc Hrest]; subst. cbn [fst] in Hc.
    cbn [run_tone].
    assert (E : updateToneState millis tt g = Some (mkToneResult g [] false))
      by (destruct Hs; [apply tone_on_running | apply tone_pause_running];
          assumption).
    rewrite E. cbn [after emitted done]. rewrite (IH g Hs Hrest).
    reflexivity.
Qed.

(** C7 (where the code departs from it). With the clock at 2^31 + 100 ms
    the dit paddle is pressed, and released on the next pass, 1 ms later.
    The deadline stored for the dit is the 32-bit floating-point sum of the
    clock reading and [DIT_TIME], which rounds to 2^31 and has already
    passed: the pass that reads the paddle released stops the dit after
    1 ms instead of 60 ms, and the pass after that ends its pause after
    1 ms instead of 60 ms. *)
Theorem element_cut_short_by_rounding :
  let t0 := 2 ^ 31 + 100 in
  let ticks := [mkTick (paddles true false) t0;
                mkTick (paddles false false) (t0 + 1);
                mkTick (paddles false false) (t0 + 2)] in
  let g1 := run (firstn 1 ticks) initial_state in
  let g2 := run (firstn 2 ticks) initial_state in
  defined ticks initial_state /\
  (toneState g1 = TONE_ON /\ lastTone g1 = DIT /\ toneTimer g1 = 2 ^ 31) /\
  (toneType g2 = QUIET /\ toneState g2 = TONE_PAUSE /\
   toneTimer g2 = 2 ^ 31) /\
  toneState (run ticks initial_state) = IDLE_STATE /\
  trace ticks initial_state =
    [(t0, tone TONE_PIN TONE_FREQ); (t0 + 1, noTone TONE_PIN)].
Proof.
  cbv zeta. split; [vm_compute; exact I |].
  repeat split; vm_compute; reflexivity.
Qed.

(** X21. In [TONE_ON], and in [TONE_PAUSE] while the clock has not passed
    the deadline, the result of [updateToneState] does not depend on the
    tone type passed.  Hence, while the clock is below 2^24 - 180 ms, an
    element in progress runs its course whatever tone types arrive: nothing
    happens until the first call whose clock reading is past the tone
    deadline, that call stops the tone and sets the pause deadline 60 ms
    later, and nothing happens again until the clock has passed that
    deadline. *)
Theorem tone_type_ignored_mid_phase :
  (forall millis tt1 tt2 g,
     toneState g = TONE_ON \/ mid_phase millis g ->
     updateToneState millis tt1 g = updateToneState millis tt2 g) /\
  (forall g before millis tt between,
     toneState g = TONE_ON ->
     Forall (fun c => fst c <= toneTimer g) before ->
     toneTimer g < millis -> exact_clock millis ->
     Forall (fun c => fst c <= millis + 60) between ->
     run_tone (before ++ (millis, tt) :: between) g =
     Some
       (set_toneState TONE_PAUSE (set_toneTimer (millis + 60) g),
        [(millis, noTone TONE_PIN)],
        repeat false (length before) ++
        false :: repeat false (length between))).
Proof.
  split.
  - intros millis tt1 tt2 g [Hon | [[Hon | Hp] Hle]].
    + destruct (Z.lt_ge_cases (toneTimer g) millis) as [Hlt | Hge].
      * rewrite !(tone_on_expired millis _ g Hon Hlt). reflexivity.
      * rewrite !(tone_on_running millis _ g Hon Hge). reflexivity.
    + rewrite !(tone_on_running millis _ g Hon Hle). reflexivity.
    + rewrite !(tone_pause_running millis _ g Hp Hle). reflexivity.
  - intros g before millis tt between Hon Hbefore Hlt Hc Hbetween.
    rewrite run_tone_app.
    rewrite (run_tone_mid_phase before g (or_introl Hon) Hbefore).
    cbn [run_tone]. rewrite (tone_on_expired millis tt g Hon Hlt).
    rewrite (deadline_exact_dit millis Hc).
    cbn [option_map after emitted done map app].
    rewrite run_tone_mid_phase;
      [reflexivity | right; reflexivity | exact Hbetween].
Qed.

Lemma tone_type_ignored_mid_phase_witness :
  let g := run [mkTick (paddles true false) 0] initial_state in
  toneState g = TONE_ON /\ toneTimer g = 60 /\
  updateToneState 30 DIT g = updateToneState 30 QUIET g /\
  run_tone ([(1, DIT); (30, QUIET); (60, DAH)] ++
            (61, QUIET) :: [(62, DAH_DIT); (100, DIT); (121, DIT_DAH)]) g =
  Some
    (set_toneState TONE_PAUSE (set_toneTimer (61 + 60) g),
     [(61, noTone TONE_PIN)],
     repeat false 3 ++ false :: repeat false 3).
Proof.
  intro g.
  assert (Hon : toneState g = TONE_ON) by (vm_compute; reflexivity).
  assert (Ht : toneTimer g = 60) by (vm_compute; reflexivity).
  split; [exact Hon | split; [exact Ht | split]].
  - apply (proj1 tone_type_ignored_mid_phase 30 DIT QUIET g). left. exact Hon.
  - apply (proj2 tone_type_ignored_mid_phase g
             [(1, DIT); (30, QUIET); (60, DAH)] 61 QUIET
             [(62, DAH_DIT); (100, DIT); (121, DIT_DAH)] Hon).
    + rewrite Ht. repeat constructor; cbn [fst]; lia.
    + rewrite Ht. lia.
    + clock_range.
    + repeat constructor; cbn [fst]; lia.
Defined.

(** *** Squeeze *)

(** One pass of the loop with both paddles pressed while an element or its
    pause is in progress. *)
Lemma loop_held_cases : forall t g g' effs,
  held g -> both_pressed t ->
  loop (pins t) (clock t) g = Some (g', effs) ->
  held g' /\
  ((clock t <= toneTimer g /\ effs = [] /\
    toneState g' = toneState g /\ toneTimer g' = toneTimer g /\
    lastTone g' = lastTone g) \/
   (toneTimer g < clock t /\ toneState g = TONE_ON /\
    effs = [noTone TONE_PIN] /\
    toneState g' = TONE_PAUSE /\
    deadline (clock t) DIT_TIME = Some (toneTimer g') /\
    lastTone g' = lastTone g) \/
   (toneTimer g < clock t /\ toneState g = TONE_PAUSE /\
    effs = [tone TONE_PIN TONE_FREQ] /\
    toneState g' = TONE_ON /\
    deadline (clock t) (if lastTone g =? DIT then DAH_TIME else DIT_TIME) =
      Some (toneTimer g') /\
    lastTone g' = other (lastTone g))).
Proof.
  intros t g g' effs (Hinv & Hnidle & Hts) [Hd Hh] Hl.
  destruct (loop_some _ _ _ _ _ Hl) as (r & Hr & -> & ->).
  set (m := updateMainState (pins t) g) in *.
  assert (Hm : state m = DIT_DAH_INPUT /\
               (toneType m = DIT_DAH \/ toneType m = DAH_DIT)).
  { subst m. unfold updateMainState. rewrite Hd, Hh.
    destruct Hinv as [[Hs Ht] | [[Hs Ht] | [[Hs Ht] | [Hs Ht]]]];
      try contradiction; rewrite Hs; cbn; auto. }
  destruct Hm as [Hms Hmt].
  pose proof (updateMainState_frame (pins t) g) as (Fs & Fl & Ft & _).
  fold m in Fs, Fl, Ft.
  assert (Hinvm : main_inv m) by (apply updateMainState_inv; exact Hinv).
  assert (Hheld : forall m', state m' = state m -> toneType m' = toneType m ->
            toneState m' = TONE_ON \/ toneState m' = TONE_PAUSE -> held m').
  { intros m' Es Et Hs'.
    split; [| split]; [| rewrite Es, Hms; discriminate | exact Hs'].
    unfold main_inv in *. rewrite Es, Et. exact Hinvm. }
  rewrite <- Fs, <- Fl, <- Ft in *.
  destruct (Z.lt_ge_cases (toneTimer m) (clock t)) as [Hlt | Hge].
  - destruct Hts as [Hon | Hp].
    + rewrite (tone_on_expired (clock t) _ m Hon Hlt) in Hr.
      destruct (deadline (clock t) DIT_TIME) as [d |]; [| discriminate].
      injection Hr as <-. cbn [after emitted].
      split; [apply Hheld; auto |].
      right; left. repeat split; auto.
    + rewrite (tone_pause_alternate (clock t) _ m Hp Hlt Hmt) in Hr.
      unfold other. rewrite (Z.eqb_sym DIT (lastTone m)) in Hr.
      destruct (lastTone m =? DIT);
        [destruct (deadline (clock t) DAH_TIME) as [d |]
        | destruct (deadline (clock t) DIT_TIME) as [d |]];
        try discriminate; injection Hr as <-; cbn [after emitted];
        (split; [apply Hheld; auto |]);
        right; right; repeat split; auto.
  - assert (E : updateToneState (clock t) (toneType m) m =
                Some (mkToneResult m [] false))
      by (destruct Hts; [apply tone_on_running | apply tone_pause_running];
          assumption).
    rewrite E in Hr. injection Hr as <-. cbn [after emitted].
    split; [apply Hheld; auto |].
    left. repeat split; auto.
Qed.

Lemma elements_held : forall rest g,
  held g -> Forall both_pressed rest ->
  elements rest g = alternating (other (lastTone g)) (length (elements rest g)).
Proof.
  induction rest as [| t rest IH]; intros g Hheld Hall.
  - reflexivity.
  - inversion Hall as [| t0 l Hboth Hrest]; subst.
    cbn [elements].
    destruct (loop (pins t) (clock t) g) as [[g' effs] |] eqn:Hl;
      [| reflexivity].
    destruct (loop_held_cases t g g' effs Hheld Hboth Hl) as [Hheld' Hcases].
    pose proof (IH _ Hheld' Hrest) as IH'.
    destruct Hcases as [(_ & He & _ & _ & Hlast) |
                        [(_ & _ & He & _ & _ & Hlast) |
                         (_ & _ & He & _ & _ & Hlast)]];
      rewrite He; cbn [started flat_map app length alternating].
    + rewrite <- Hlast. exact IH'.
    + rewrite <- Hlast. exact IH'.
    + rewrite Hlast. f_equal. rewrite Hlast in IH'. exact IH'.
Qed.

(** When every pass comes more than a dah after the one before, every
    second pass starts an element. *)
Lemma elements_spaced : forall ticks g,
  held g -> Forall both_pressed ticks -> spaced 180 ticks ->
  clocks exact_clock ticks ->
  match ticks with [] => True | t :: _ => toneTimer g < clock t end ->
  length (elements ticks g) =
  Nat.div2 (length ticks + (if toneState g =? TONE_PAUSE then 1 else 0)).
Proof.
  induction ticks as [| t rest IH]; intros g Hheld Hall Hsp Hex Hlate.
  - cbn. destruct (toneState g =? TONE_PAUSE); reflexivity.
  - inversion Hall as [| t0 l Hboth Hrest]; subst.
    inversion Hex as [| ? ? Hext Hexr]; subst.
    destruct Hsp as [Hnext Hsp].
    cbn [elements].
    destruct (loop_defined (pins t) (clock t) g (exact_clock_safe _ Hext))
      as (g' & effs & Hl).
    rewrite Hl.
    destruct (loop_held_cases t g g' effs Hheld Hboth Hl) as [Hheld' Hcases].
    assert (Hlate' : toneTimer g' <= clock t + 180 ->
              match rest with
              | [] => True
              | t' :: _ => toneTimer g' < clock t'
              end)
      by (intro; destruct rest; [exact I | lia]).
    destruct Hcases as [(Hle & _) | [(_ & Hon & He & Hs' & Ht' & _) |
                        (_ & Hp & He & Hs' & Ht' & _)]].
    + lia.
    + rewrite (deadline_exact_dit _ Hext) in Ht'. injection Ht' as Ht'.
      rewrite He, Hon. cbn [started flat_map app].
      rewrite (IH _ Hheld' Hrest Hsp Hexr) by (apply Hlate'; lia).
      rewrite Hs'. cbn [Z.eqb Pos.eqb TONE_ON TONE_PAUSE length].
      f_equal. lia.
    + assert (Ht'' : toneTimer g' <= clock t + 180).
      { destruct (lastTone g =? DIT);
          [rewrite (deadline_exact_dah _ Hext) in Ht'
          | rewrite (deadline_exact_dit _ Hext) in Ht'];
          injection Ht' as Ht'; lia. }
      rewrite He, Hp. cbn [started flat_map app length].
      rewrite (IH _ Hheld' Hrest Hsp Hexr) by (apply Hlate'; exact Ht'').
      rewrite Hs'. cbn [Z.eqb Pos.eqb TONE_ON TONE_PAUSE length].
      rewrite Nat.add_0_r.
      replace (S (length rest) + 1)%nat with (S (S (length rest))) by lia.
      reflexivity.
Qed.

(** The tone state stays one of the three along a run. *)
Lemma run_tone_state_ok : forall ticks g,
  tone_state_ok g -> tone_state_ok (run ticks g).
Proof.
  induction ticks as [| t rest IH]; intros g H; cbn [run].
  - exact H.
  - destruct (loop (pins t) (clock t) g) as [[g' effs] |] eqn:Hl.
    + apply IH. exact (tone_step_ok _ _ _ _ H (loop_cases _ _ _ _ _ Hl)).
    + exact H.
Qed.

(** Both paddles pressed once the paddle machine has left its idle state:
    the elements alternate from [squeeze_first]. *)
Lemma elements_squeeze : forall ticks g,
  main_inv g -> tone_state_ok g -> state g <> IDLE_STATE ->
  Forall both_pressed ticks ->
  elements ticks g = alternating (squeeze_first g) (length (elements ticks g)).
Proof.
  intros ticks g Hinv Hok Hnidle Hall. unfold squeeze_first.
  destruct (Z.eqb_spec (toneState g) IDLE_STATE) as [Hidle | Hbusy].
  - destruct ticks as [| t rest]; [reflexivity |].
    inversion Hall as [| t0 l [Hd Hh] Hrest]; subst.
    cbn [elements].
    destruct (loop (pins t) (clock t) g) as [[g' effs] |] eqn:Hl;
      [| reflexivity].
    destruct (loop_some _ _ _ _ _ Hl) as (r & Hr & -> & ->).
    set (m := updateMainState (pins t) g) in *.
    pose proof (updateMainState_frame (pins t) g) as (Fs & _).
    fold m in Fs.
    assert (Hm : state m = DIT_DAH_INPUT /\
                 ((toneType m = DIT_DAH /\
                   (state g =? DIT_INPUT) || (toneType g =? DIT_DAH) = true) \/
                  (toneType m = DAH_DIT /\
                   (state g =? DIT_INPUT) || (toneType g =? DIT_DAH) = false))).
    { subst m. unfold updateMainState. rewrite Hd, Hh.
      destruct Hinv as [[Hs Ht] | [[Hs Ht] | [[Hs Ht] | [Hs [Ht | Ht]]]]];
        try contradiction; rewrite Hs, Ht; cbn; auto. }
    destruct Hm as [Hms Hmt].
    assert (Hheld : forall m', state m' = state m ->
              toneType m' = toneType m -> toneState m' = TONE_ON -> held m').
    { intros m' Es Et Hs'.
      split; [| split]; [| rewrite Es, Hms; discriminate | left; exact Hs'].
      right; right; right. rewrite Es, Et. split; [exact Hms |].
      destruct Hmt as [[E _] | [E _]]; auto. }
    rewrite <- Fs in Hidle.
    destruct Hmt as [[Emt Eb] | [Emt Eb]]; rewrite Eb.
    + rewrite (tone_idle_dit (clock t) _ m Hidle (or_intror Emt)) in Hr.
      destruct (deadline (clock t) DIT_TIME) as [d |]; [| discriminate].
      injection Hr as <-. cbn [after emitted started flat_map app lastTone
                               set_toneState set_lastTone length alternating].
      f_equal.
      apply (elements_held rest); [apply Hheld; reflexivity | exact Hrest].
    + rewrite (tone_idle_dah (clock t) _ m Hidle (or_intror Emt)) in Hr.
      destruct (deadline (clock t) DAH_TIME) as [d |]; [| discriminate].
      injection Hr as <-. cbn [after emitted started flat_map app lastTone
                               set_toneState set_lastTone length alternating].
      f_equal.
      apply (elements_held rest); [apply Hheld; reflexivity | exact Hrest].
  - apply elements_held; [| exact Hall].
    split; [exact Hinv | split; [exact Hnidle |]].
    destruct Hok as [H | [H | H]]; [contradiction | auto | auto].
Qed.

(** A pass that reads only the dit paddle while a dit is sounding and the
    paddle machine is in [DIT_INPUT] changes nothing. *)
Lemma dit_running_pass : forall t g,
  dit_only t -> state g = DIT_INPUT -> toneState g = TONE_ON ->
  clock t <= toneTimer g ->
  loop (pins t) (clock t) g = Some (g, []).
Proof.
  intros t g [Hd Hh] Hs Hon Hle. unfold loop. cbv zeta.
  assert (Em : updateMainState (pins t) g = g).
  { unfold updateMainState. rewrite Hs, Hd.
    destruct (Z.eqb_spec (pins t DAH_PIN) LOW); [contradiction |].
    reflexivity. }
  rewrite Em. rewrite (tone_on_running _ _ g Hon Hle). reflexivity.
Qed.

Lemma elements_dit_running : forall more rest g,
  Forall dit_only more -> state g = DIT_INPUT -> toneState g = TONE_ON ->
  Forall (fun t => clock t <= toneTimer g) more ->
  elements (more ++ rest) g = elements rest g.
Proof.
  induction more as [| t more IH]; intros rest g Hall Hs Hon Hle.
  - reflexivity.
  - inversion Hall as [| ? ? Ht Hmore]; subst.
    inversion Hle as [| ? ? Hlt Hlmore]; subst.
    cbn [app elements]. rewrite (dit_running_pass t g Ht Hs Hon Hlt).
    cbn [started flat_map app]. apply IH; assumption.
Qed.

(** The first pass of a press of the dit paddle alone, with both state
    machines idle. *)
Lemma first_dit_pass : forall t g,
  state g = IDLE_STATE -> toneState g = IDLE_STATE -> dit_only t ->
  loop (pins t) (clock t) g =
  option_map
    (fun d =>
       (set_toneState TONE_ON
          (set_lastTone DIT
             (set_toneTimer d (set_state DIT_INPUT (set_toneType DIT g)))),
        [tone TONE_PIN TONE_FREQ]))
    (deadline (clock t) DIT_TIME).
Proof.
  intros t g Hs Hi [Hd _]. unfold loop, updateMainState. rewrite Hd, Hs.
  cbn [Z.eqb IDLE_STATE LOW].
  rewrite (tone_idle_dit (clock t) DIT); [| exact Hi | left; reflexivity].
  destruct (deadline (clock t) DIT_TIME); reflexivity.
Qed.

(** C4 (as the code has it). In [TONE_PAUSE] with the clock past the
    deadline and a squeeze tone type, the sequencer starts the tone, moves
    to [TONE_ON] and stores in [lastTone] the opposite of what was there,
    [DAH] after [DIT] and [DIT] otherwise; while the clock is below
    2^24 - 180 ms the call is defined and the new deadline is the clock
    reading plus [DAH_TIME] (180 ms) for a dah, plus [DIT_TIME] (60 ms) for
    a dit.  Hence, in any state the loop reaches with the paddle machine
    out of its idle state, passes with both paddles pressed start elements
    that alternate, beginning with the opposite of the element in progress
    or in its pause, and when the sequencer is idle with the element of the
    paddle that was pressed first.  And when both machines are idle,
    passes with only the dit paddle pressed during the first dit, followed
    by passes with both pressed, start elements that alternate beginning
    with [DIT]; there is always the first, and when the passes come more
    than a dah apart every second one starts the next. *)
Theorem squeeze_alternates :
  (forall millis tt g,
     toneState g = TONE_PAUSE -> toneTimer g < millis ->
     tt = DIT_DAH \/ tt = DAH_DIT ->
     (forall r, updateToneState millis tt g = Some r ->
        emitted r = [tone TONE_PIN TONE_FREQ] /\
        toneState (after r) = TONE_ON /\
        lastTone (after r) = other (lastTone g)) /\
     (exact_clock millis ->
      exists r,
        updateToneState millis tt g = Some r /\
        emitted r = [tone TONE_PIN TONE_FREQ] /\
        toneState (after r) = TONE_ON /\
        (lastTone g = DIT ->
         toneTimer (after r) = millis + 180 /\ lastTone (after r) = DAH) /\
        (lastTone g <> DIT ->
         toneTimer (after r) = millis + 60 /\ lastTone (after r) = DIT))) /\
  (forall before ticks,
     let g := run before initial_state in
     state g <> IDLE_STATE -> Forall both_pressed ticks ->
     elements ticks g =
     alternating (squeeze_first g) (length (elements ticks g))) /\
  (forall g first more rest,
     state g = IDLE_STATE -> toneState g = IDLE_STATE ->
     dit_only first -> exact_clock (clock first) ->
     Forall dit_only more ->
     Forall (fun t => clock t <= clock first + 60) more ->
     Forall both_pressed rest ->
     (exists n,
        elements (first :: more ++ rest) g = alternating DIT (S n)) /\
     (clocks exact_clock rest -> spaced 180 (first :: rest) ->
      elements (first :: rest) g =
      alternating DIT (S (Nat.div2 (length rest))))).
Proof.
  split; [| split].
  - intros millis tt g Hs Ht Htt. split.
    + intros r Hr. rewrite (tone_pause_alternate millis tt g Hs Ht Htt) in Hr.
      unfold other. rewrite (Z.eqb_sym (lastTone g) DIT).
      destruct (DIT =? lastTone g);
        [destruct (deadline millis DAH_TIME)
        | destruct (deadline millis DIT_TIME)];
        try discriminate; injection Hr as <-; cbn; auto.
    + intro Hc. rewrite (tone_pause_alternate millis tt g Hs Ht Htt).
      rewrite (deadline_exact_dit millis Hc), (deadline_exact_dah millis Hc).
      destruct (Z.eqb_spec DIT (lastTone g)) as [E | E]; cbn [option_map];
        eexists; (split; [reflexivity |]); cbn;
        repeat split; try reflexivity; intros; congruence.
  - intros before ticks g Hnidle Hall.
    apply elements_squeeze; [| | exact Hnidle | exact Hall].
    + apply run_inv, initial_inv.
    + apply run_tone_state_ok. left. reflexivity.
  - intros g first more rest Hs Hi Hfirst Hc Hmore Hle Hrest.
    pose proof (first_dit_pass first g Hs Hi Hfirst) as E1.
    rewrite (deadline_exact_dit _ Hc) in E1. cbn [option_map] in E1.
    set (g1 := set_toneState TONE_ON _) in E1.
    assert (Hheld : held g1).
    { split; [| split]; [| discriminate | left; reflexivity].
      right; left. split; reflexivity. }
    pose proof (elements_held rest g1 Hheld Hrest) as Ha.
    split.
    + exists (length (elements rest g1)).
      cbn [elements]. rewrite E1. cbn [started flat_map app].
      rewrite (elements_dit_running more rest g1 Hmore);
        [| reflexivity | reflexivity | exact Hle].
      cbn [alternating lastTone]. f_equal. exact Ha.
    + intros Hex [Hnext Hsp]. cbn [elements]. rewrite E1.
      cbn [started flat_map app alternating]. f_equal.
      rewrite Ha. f_equal.
      rewrite (elements_spaced rest g1 Hheld Hrest Hsp Hex).
      * cbn. rewrite Nat.add_0_r. reflexivity.
      * destruct rest as [| t' rest']; [exact I |]. cbn. lia.
Qed.

Lemma squeeze_alternates_witness :
  (let g := run [mkTick (paddles true false) 0; mkTick (paddles true true) 61]
                initial_state in
   toneState g = TONE_PAUSE /\ toneTimer g = 121 /\ lastTone g = DIT /\
   toneType g = DIT_DAH /\
   exists r,
     updateToneState 122 (toneType g) g = Some r /\
     emitted r = [tone TONE_PIN TONE_FREQ] /\
     toneState (after r) = TONE_ON /\
     toneTimer (after r) = 122 + 180 /\ lastTone (after r) = DAH) /\
  (let before :=
     [mkTick (paddles true false) 0; mkTick (paddles false false) 61;
      mkTick (paddles true false) 100; mkTick (paddles true true) 110] in
   let ticks :=
     [mkTick (paddles true true) 122; mkTick (paddles true true) 303;
      mkTick (paddles true true) 364; mkTick (paddles true true) 425;
      mkTick (paddles true true) 486] in
   let g := run before initial_state in
   state g = DIT_DAH_INPUT /\ squeeze_first g = DAH /\
   elements ticks g = [DAH; DIT; DAH] /\
   elements ticks g =
   alternating (squeeze_first g) (length (elements ticks g))) /\
  (let first := mkTick (paddles true false) 0 in
   let more := [mkTick (paddles true false) 20;
                mkTick (paddles true false) 60] in
   let rest := [mkTick (paddles true true) 61; mkTick (paddles true true) 122;
                mkTick (paddles true true) 303] in
   elements (first :: more ++ rest) initial_state = [DIT; DAH] /\
   exists n,
     elements (first :: more ++ rest) initial_state = alternating DIT (S n)) /\
  (let first := mkTick (paddles true false) 0 in
   let rest :=
     [mkTick (paddles true true) 200; mkTick (paddles true true) 400;
      mkTick (paddles true true) 600; mkTick (paddles true true) 800] in
   spaced 180 (first :: rest) /\
   elements (first :: rest) initial_state = [DIT; DAH; DIT]).
Proof.
  split; [| split; [| split]].
  - intro g.
    assert (Hs : toneState g = TONE_PAUSE) by (vm_compute; reflexivity).
    assert (Ht : toneTimer g = 121) by (vm_compute; reflexivity).
    assert (Hl : lastTone g = DIT) by (vm_compute; reflexivity).
    assert (Hq : toneType g = DIT_DAH) by (vm_compute; reflexivity).
    assert (Hlt : toneTimer g < 122) by (rewrite Ht; lia).
    assert (Hc : exact_clock 122) by clock_range.
    destruct (proj2 (proj1 squeeze_alternates 122 (toneType g) g Hs Hlt
                       (or_introl Hq)) Hc)
      as (r & Hr & He & Hon & Hdit & _).
    destruct (Hdit Hl) as [Htimer Hlast].
    repeat split; try assumption.
    exists r. repeat split; assumption.
  - intros before ticks g.
    assert (Hs : state g = DIT_DAH_INPUT) by (vm_compute; reflexivity).
    split; [exact Hs |].
    split; [vm_compute; reflexivity |].
    split; [vm_compute; reflexivity |].
    apply (proj1 (proj2 squeeze_alternates) before ticks).
    + fold g. rewrite Hs. discriminate.
    + each_pass ltac:(split; reflexivity).
  - intros first more rest.
    split; [vm_compute; reflexivity |].
    apply (proj2 (proj2 squeeze_alternates) initial_state first more rest).
    + reflexivity.
    + reflexivity.
    + split; [reflexivity | discriminate].
    + clock_range.
    + each_pass ltac:(split; [reflexivity | discriminate]).
    + each_pass ltac:(cbn [clock]; lia).
    + each_pass ltac:(split; reflexivity).
  - intros first rest.
    assert (Hsp : spaced 180 (first :: rest)) by (cbn; lia).
    split; [exact Hsp |].
    apply (proj2 (proj2 squeeze_alternates) initial_state first [] rest).
    + reflexivity.
    + reflexivity.
    + split; [reflexivity | discriminate].
    + clock_range.
    + constructor.
    + constructor.
    + each_pass ltac:(split; reflexivity).
    + clock_range.
    + exact Hsp.
Defined.

(** C4, as stated, fails in three ways.  A squeeze that begins while the
    pause of an earlier dit is running starts with a dah, although the dit
    paddle is pressed first: the sequencer continues from [lastTone].  A
    dit paddle held alone for 184 ms before the dah paddle joins gives two
    dits before the first dah.  And at clock reading 16777219 the deadline
    of a dah is not the reading plus 180: the sum is formed in 32-bit
    floating point and stored as 16777400. *)
Lemma squeeze_after_dit_starts_with_dah :
  (let g := run [mkTick (paddles true false) 0;
                 mkTick (paddles false false) 61] initial_state in
   state g = IDLE_STATE /\ toneState g = TONE_PAUSE /\ lastTone g = DIT /\
   elements [mkTick (paddles true false) 100; mkTick (paddles true true) 110;
             mkTick (paddles true true) 122; mkTick (paddles true true) 303;
             mkTick (paddles true true) 364; mkTick (paddles true true) 425;
             mkTick (paddles true true) 486] g = [DAH; DIT; DAH]) /\
  elements [mkTick (paddles true false) 0; mkTick (paddles true false) 61;
            mkTick (paddles true false) 122; mkTick (paddles true false) 123;
            mkTick (paddles true true) 184; mkTick (paddles true true) 245]
           initial_state = [DIT; DIT; DAH] /\
  (let g := run [mkTick (paddles true false) 0;
                 mkTick (paddles true true) 61] initial_state in
   toneState g = TONE_PAUSE /\ toneTimer g < 16777219 /\
   toneType g = DIT_DAH /\ lastTone g = DIT /\
   exists r,
     updateToneState 16777219 (toneType g) g = Some r /\
     toneTimer (after r) = 16777400 /\
     toneTimer (after r) <> 16777219 + 180).
Proof.
  cbv zeta. split; [| split].
  - repeat split; vm_compute; reflexivity.
  - vm_compute. reflexivity.
  - split; [vm_compute; reflexivity |].
    split; [vm_compute; reflexivity |].
    split; [vm_compute; reflexivity |].
    split; [vm_compute; reflexivity |].
    eexists. split; [vm_compute; reflexivity |].
    split; [reflexivity | vm_compute; discriminate].
Qed.

(** *** Word speed *)

Lemma to_ulong_in_range : forall q,
  0 <= Qtrunc q < 2 ^ 32 -> to_ulong q = Some (Qtrunc q).
Proof.
  intros q [H0 H1]. unfold to_ulong.
  destruct (Z.leb_spec 0 (Qtrunc q)); [| lia].
  destruct (Z.ltb_spec (Qtrunc q) (2 ^ 32)); [| lia].
  reflexivity.
Qed.

Lemma Qtrunc_word_time : forall speed,
  0 < speed -> Qtrunc (60 / inject_Z speed) = 60 / speed.
Proof.
  intros speed Hpos. destruct speed as [| p | p]; try lia.
  unfold Qtrunc. cbn [Qdiv Qinv Qmult inject_Z Qnum Qden].
  rewrite Pos.mul_1_l. change (60 * 1) with 60.
  apply Z.quot_div_nonneg; lia.
Qed.

Lemma Qtrunc_dit_time : forall w,
  0 <= w -> Qtrunc (1000 * inject_Z w / 50) = 20 * w.
Proof.
  intros w Hw. unfold Qtrunc. cbn [Qdiv Qinv Qmult inject_Z Qnum Qden].
  change (Z.pos (1 * 1 * 50)) with 50.
  rewrite Z.quot_div_nonneg by lia.
  replace (1000 * w * 1) with (20 * w * 50) by ring.
  apply Z.div_mul. discriminate.
Qed.

Lemma Qtrunc_dah_time : forall d, Qtrunc (inject_Z d * 3) = 3 * d.
Proof.
  intro d. unfold Qtrunc. cbn [Qmult inject_Z Qnum Qden].
  change (Z.pos (1 * 1)) with 1. rewrite Z.quot_1_r. ring.
Qed.

(** What [setWordSpeed] computes for a positive speed: the word time is
    truncated to whole seconds before the dit time is derived from it. *)
Lemma setWordSpeed_positive : forall speed g,
  0 < speed ->
  setWordSpeed speed g =
  Some (set_dahTime (3 * (20 * (60 / speed)))
          (set_ditTime (20 * (60 / speed)) g)).
Proof.
  intros speed g Hpos. unfold setWordSpeed.
  destruct (Z.eqb_spec speed 0) as [E | _]; [lia |].
  assert (Hw : 0 <= 60 / speed <= 60).
  { split; [apply Z.div_pos; lia |].
    apply Z.div_le_upper_bound; lia. }
  rewrite to_ulong_in_range; rewrite Qtrunc_word_time by exact Hpos; [| lia].
  rewrite to_ulong_in_range; rewrite Qtrunc_dit_time by lia; [| lia].
  cbn [ditTime set_ditTime].
  rewrite to_ulong_in_range; rewrite Qtrunc_dah_time; [| lia].
  reflexivity.
Qed.

Lemma setWordSpeed_20 : forall g,
  setWordSpeed 20 g = Some (set_dahTime 180 (set_ditTime 60 g)).
Proof. intro g. rewrite setWordSpeed_positive by lia. reflexivity. Qed.

Lemma setWordSpeed_10 : forall g,
  setWordSpeed 10 g = Some (set_dahTime 360 (set_ditTime 120 g)).
Proof. intro g. rewrite setWordSpeed_positive by lia. reflexivity. Qed.

(** For the speeds that divide 60 the result is the exact PARIS value. *)
Lemma setWordSpeed_exact : forall speed g,
  0 < speed -> (speed | 60) ->
  exists g', setWordSpeed speed g = Some g' /\
             ditTime g' * speed = 1200 /\ dahTime g' = 3 * ditTime g'.
Proof.
  intros speed g Hpos [k Hk].
  rewrite setWordSpeed_positive by exact Hpos.
  eexists. split; [reflexivity |].
  cbn [ditTime dahTime set_ditTime set_dahTime].
  split; [| reflexivity].
  rewrite Hk, Z.div_mul by lia. lia.
Qed.

(** C2, at 40 words per minute. The PARIS formula gives a dit of
    1000 * (60 / 40) / 50 = 30 ms.  [setWordSpeed] truncates the word time
    of 1.5 s to 1 s first and stores a dit of 20 ms and a dah of 60 ms. *)
Theorem setWordSpeed_40 : forall g,
  setWordSpeed 40 g = Some (set_dahTime 60 (set_ditTime 20 g)) /\
  Qtrunc (1000 * (60 / 40) / 50) = 30.
Proof.
  intro g. split.
  - rewrite setWordSpeed_positive by lia. reflexivity.
  - reflexivity.
Qed.

(** [setWordSpeed] writes [ditTime] and [dahTime] and nothing else. *)
Lemma setWordSpeed_writes : forall speed g g',
  setWordSpeed speed g = Some g' ->
  g' = set_dahTime (dahTime g') (set_ditTime (ditTime g') g).
Proof.
  intros speed g g'. unfold setWordSpeed.
  destruct (speed =? 0); [discriminate |].
  destruct (to_ulong (60 / inject_Z speed)) as [w |]; [| discriminate].
  destruct (to_ulong (1000 * inject_Z w / 50)) as [d |]; [| discriminate].
  destruct (to_ulong _) as [h |]; [| discriminate].
  intro E. injection E as <-. reflexivity.
Qed.

(** [updateToneState] reads neither of them: its deadlines come from the
    macros [DIT_TIME] and [DAH_TIME]. *)
Lemma updateToneState_ignores_speed : forall d h millis tt g,
  updateToneState millis tt (set_dahTime h (set_ditTime d g)) =
  option_map
    (fun r =>
       mkToneResult (set_dahTime h (set_ditTime d (after r)))
                    (emitted r) (done r))
    (updateToneState millis tt g).
Proof.
  intros d h millis tt g. unfold updateToneState.
  cbn [toneState toneTimer lastTone set_dahTime set_ditTime].
  destruct (deadline millis DIT_TIME), (deadline millis DAH_TIME);
    split_ifs; reflexivity.
Qed.

(** The loop never writes the speed settings: they stay as [setup] left
    them, equal to the values of the macros. *)
Lemma run_keeps_speed : forall ticks g,
  ditTime (run ticks g) = ditTime g /\ dahTime (run ticks g) = dahTime g.
Proof.
  induction ticks as [| t rest IH]; intro g; cbn [run].
  - auto.
  - destruct (loop (pins t) (clock t) g) as [[g' effs] |] eqn:Hl; [| auto].
    destruct (IH g') as [-> ->].
    destruct (loop_some _ _ _ _ _ Hl) as (r & Hr & -> & _).
    pose proof (updateToneState_frame _ _ _ _ Hr) as (_ & _ & Ed & Eh & _).
    pose proof (updateMainState_frame (pins t) g) as (_ & _ & _ & Ed' & Eh').
    cbv zeta in Ed, Eh, Ed', Eh'. rewrite Ed, Eh, Ed', Eh'. auto.
Qed.

(** C1, at a change to 10 words per minute. A dit starts at time 0 at the
    initial speed, so its deadline is 60.  [setWordSpeed 10] then stores a
    dit time of 120 ms.  The dit in progress and its pause keep their 60 ms;
    but the dit started at time 123, after the call, gets the deadline
    123 + 60 and not 123 + 120: the sequencer never reads what the setter
    wrote. *)
Theorem speed_change_not_applied :
  exists g,
    speed_change_run 10 = Some g /\
    ditTime g = 120 /\ dahTime g = 360 /\
    toneState g = TONE_ON /\ lastTone g = DIT /\
    toneTimer g = 123 + 60 /\
    toneTimer g <> 123 + ditTime g.
Proof.
  unfold speed_change_run. rewrite setWordSpeed_10.
  eexists. split; [reflexivity |].
  vm_compute. repeat split; try reflexivity. discriminate.
Qed.

(** The same for every positive speed: the dit started after the call has
    the deadline of the initial speed. *)
Lemma speed_change_never_applied : forall speed,
  0 < speed ->
  exists g,
    speed_change_run speed = Some g /\
    ditTime g = 20 * (60 / speed) /\ toneTimer g = 123 + 60.
Proof.
  intros speed Hpos. unfold speed_change_run.
  rewrite setWordSpeed_positive by exact Hpos.
  eexists. split; [reflexivity |].
  split; [| vm_compute; reflexivity].
  match goal with
  | |- ditTime (run ?ticks ?g) = _ =>
    rewrite (proj1 (run_keeps_speed ticks g))
  end.
  reflexivity.
Qed.

(** A pass of the loop does not depend on the speed settings, and carries
    them along unchanged. *)
Lemma updateMainState_ignores_speed : forall d h dr g,
  updateMainState dr (set_dahTime h (set_ditTime d g)) =
  set_dahTime h (set_ditTime d (updateMainState dr g)).
Proof.
  intros d h dr g. unfold updateMainState.
  cbn [state set_dahTime set_ditTime].
  split_ifs; reflexivity.
Qed.

Lemma loop_ignores_speed : forall d h dr millis g,
  loop dr millis (set_dahTime h (set_ditTime d g)) =
  option_map
    (fun ge => (set_dahTime h (set_ditTime d (fst ge)), snd ge))
    (loop dr millis g).
Proof.
  intros d h dr millis g. unfold loop.
  rewrite updateMainState_ignores_speed.
  cbn [toneType set_dahTime set_ditTime].
  rewrite updateToneState_ignores_speed.
  destruct (updateToneState millis _ _); reflexivity.
Qed.

Lemma trace_ignores_speed : forall ticks d h g,
  trace ticks (set_dahTime h (set_ditTime d g)) = trace ticks g.
Proof.
  induction ticks as [| t rest IH]; intros d h g; cbn [trace].
  - reflexivity.
  - rewrite loop_ignores_speed.
    destruct (loop (pins t) (clock t) g) as [[g' effs] |]; [| reflexivity].
    cbn [option_map fst snd]. rewrite IH. reflexivity.
Qed.

(** *** The loop at work *)

(** A brief press of the dit paddle gives one dit: tone for the passes up
    to the deadline, one pause, and back to idle with the completion
    signal. *)
Example single_dit :
  let ticks :=
    mkTick (paddles true false) 0 :: hold (paddles false false) 1 200 in
  trace ticks initial_state =
    [(0, tone TONE_PIN TONE_FREQ); (61, noTone TONE_PIN)] /\
  elements ticks initial_state = [DIT] /\
  toneState (run ticks initial_state) = IDLE_STATE.
Proof. vm_compute. repeat split; reflexivity. Qed.

(** Holding the dah paddle repeats dahs. *)
Example held_dah :
  trace (hold (paddles false true) 0 600) initial_state =
    [(0, tone TONE_PIN TONE_FREQ); (181, noTone TONE_PIN);
     (243, tone TONE_PIN TONE_FREQ); (424, noTone TONE_PIN);
     (486, tone TONE_PIN TONE_FREQ)] /\
  elements (hold (paddles false true) 0 600) initial_state = [DAH; DAH; DAH].
Proof. vm_compute. split; reflexivity. Qed.

(** A squeeze with the dit paddle first, read every millisecond for a
    second. *)
Example squeeze_dit_first :
  elements (mkTick (paddles true false) 0 :: hold (paddles true true) 1 1000)
           initial_state = [DIT; DAH; DIT; DAH; DIT; DAH].
Proof. vm_compute. reflexivity. Qed.

(** The same with the dah paddle first. *)
Example squeeze_dah_first :
  elements (mkTick (paddles false true) 0 :: hold (paddles true true) 1 1000)
           initial_state = [DAH; DIT; DAH; DIT; DAH; DIT].
Proof. vm_compute. reflexivity. Qed.

(** ** Further properties of the sketch *)

(** *** setWordSpeed on all of its domain *)

Lemma Qtrunc_word_time_neg : forall p,
  Qtrunc (60 / inject_Z (Z.neg p)) = - (60 / Z.pos p).
Proof.
  intro p. unfold Qtrunc. cbn [Qdiv Qinv Qmult inject_Z Qnum Qden].
  rewrite Pos.mul_1_l. change (60 * -1) with (Z.opp 60).
  rewrite Z.quot_opp_l by discriminate.
  rewrite Z.quot_div_nonneg by lia. reflexivity.
Qed.

Lemma setWordSpeed_negative : forall p g,
  setWordSpeed (Z.neg p) g =
  if 60 / Z.pos p =? 0 then Some (set_dahTime 0 (set_ditTime 0 g)) else None.
Proof.
  intros p g. unfold setWordSpeed. cbn [Z.eqb].
  unfold to_ulong at 1. rewrite Qtrunc_word_time_neg.
  assert (H0 : 0 <= 60 / Z.pos p) by (apply Z.div_pos; lia).
  destruct (Z.eqb_spec (60 / Z.pos p) 0) as [E | E].
  - rewrite E. cbn [Z.opp Z.leb Z.ltb Z.compare andb].
    reflexivity.
  - destruct (Z.leb_spec 0 (- (60 / Z.pos p))); [lia | reflexivity].
Qed.

(** Where [setWordSpeed] is defined. *)
Lemma setWordSpeed_cases : forall speed g,
  (-60 <= speed <= 0 /\ setWordSpeed speed g = None) \/
  (~ -60 <= speed <= 0 /\ exists g', setWordSpeed speed g = Some g').
Proof.
  intros speed g. destruct speed as [| p | p].
  - left. split; [lia | reflexivity].
  - right. split; [lia |].
    rewrite setWordSpeed_positive by lia. eexists. reflexivity.
  - rewrite setWordSpeed_negative.
    destruct (Z.eqb_spec (60 / Z.pos p) 0) as [E | E].
    + right. split; [| eexists; reflexivity].
      intro H. assert (1 <= 60 / Z.pos p); [| lia].
      apply Z.div_le_lower_bound; lia.
    + left. split; [| reflexivity].
      assert (~ 60 < Z.pos p); [| lia].
      intro H. apply E. apply Z.div_small. lia.
Qed.

(** X1. [setWordSpeed] is undefined exactly for the speeds from -60 to 0:
    zero divides by zero, and the other speeds in that range make the word
    time negative, which does not convert to [unsigned long]. *)
Theorem setWordSpeed_undefined_iff : forall speed g,
  setWordSpeed speed g = None <-> -60 <= speed <= 0.
Proof.
  intros speed g.
  destruct (setWordSpeed_cases speed g) as [[Hr E] | [Hr [g' E]]];
    rewrite E; split; intro H.
  - exact Hr.
  - reflexivity.
  - discriminate H.
  - contradiction.
Qed.

(** X2. Beyond 60 words per minute, and below -60, the word time truncates
    to zero seconds and [setWordSpeed] stores a dit and a dah of 0 ms. *)
Theorem setWordSpeed_zero_beyond_60 : forall speed g,
  speed < -60 \/ 60 < speed ->
  setWordSpeed speed g = Some (set_dahTime 0 (set_ditTime 0 g)).
Proof.
  intros speed g [H | H].
  - destruct speed as [| p | p]; try lia.
    rewrite setWordSpeed_negative.
    replace (60 / Z.pos p) with 0 by (symmetry; apply Z.div_small; lia).
    reflexivity.
  - rewrite setWordSpeed_positive by lia.
    replace (60 / speed) with 0 by (symmetry; apply Z.div_small; lia).
    reflexivity.
Qed.

Lemma setWordSpeed_zero_beyond_60_witness :
  setWordSpeed 61 initial_state =
    Some (set_dahTime 0 (set_ditTime 0 initial_state)) /\
  setWordSpeed (-61) initial_state =
    Some (set_dahTime 0 (set_ditTime 0 initial_state)).
Proof.
  split.
  - apply (setWordSpeed_zero_beyond_60 61 initial_state). right. reflexivity.
  - apply (setWordSpeed_zero_beyond_60 (-61) initial_state). left. reflexivity.
Defined.

(** X3. For a positive speed [setWordSpeed] stores a dit of 20 ms for every
    whole second of the word time 60 / speed, and a dah of three dits; no
    other variable changes, and a faster speed never gives a longer dit. *)
Theorem setWordSpeed_whole_seconds : forall speed g,
  0 < speed ->
  exists g',
    setWordSpeed speed g = Some g' /\
    ditTime g' = 20 * (60 / speed) /\ dahTime g' = 3 * ditTime g' /\
    0 <= ditTime g' <= 1200 /\
    g' = set_dahTime (dahTime g') (set_ditTime (ditTime g') g) /\
    (forall faster h',
       speed <= faster -> setWordSpeed faster g = Some h' ->
       ditTime h' <= ditTime g').
Proof.
  intros speed g Hpos.
  rewrite setWordSpeed_positive by exact Hpos.
  eexists. split; [reflexivity |].
  cbn [ditTime dahTime set_ditTime set_dahTime].
  assert (Hw : 0 <= 60 / speed <= 60).
  { split; [apply Z.div_pos; lia |].
    apply Z.div_le_upper_bound; lia. }
  repeat split; try lia.
  intros faster h' Hle Hf.
  rewrite setWordSpeed_positive in Hf by lia.
  assert (60 / faster <= 60 / speed)
    by (apply Z.div_le_compat_l; lia).
  assert (E : ditTime h' = 20 * (60 / faster))
    by (injection Hf as <-; reflexivity).
  rewrite E. lia.
Qed.

Lemma setWordSpeed_whole_seconds_witness :
  exists g',
    setWordSpeed 25 initial_state = Some g' /\
    ditTime g' = 20 * (60 / 25) /\ dahTime g' = 3 * ditTime g' /\
    0 <= ditTime g' <= 1200 /\
    g' = set_dahTime (dahTime g') (set_ditTime (ditTime g') initial_state) /\
    (forall faster h',
       25 <= faster -> setWordSpeed faster initial_state = Some h' ->
       ditTime h' <= ditTime g').
Proof.
  apply (setWordSpeed_whole_seconds 25 initial_state). reflexivity.
Defined.

(** *** What one pass does to the sequencer *)

Lemma deadline_exact_element : forall millis element,
  exact_clock millis ->
  deadline millis (element_time element) = Some (millis + duration element).
Proof.
  intros millis element Hc. unfold element_time, duration.
  destruct (element =? DIT);
    [apply deadline_exact_dit | apply deadline_exact_dah]; exact Hc.
Qed.

Lemma updateToneState_outcome : forall millis tt g r,
  tone_inv g ->
  updateToneState millis tt g = Some r ->
  tone_inv (after r) /\
  ((emitted r = [] /\ toneState (after r) = toneState g /\
    toneTimer (after r) = toneTimer g /\ lastTone (after r) = lastTone g) \/
   (emitted r = [tone TONE_PIN TONE_FREQ] /\
    (toneState g = IDLE_STATE \/
     (toneState g = TONE_PAUSE /\ toneTimer g < millis)) /\
    toneState (after r) = TONE_ON /\
    (lastTone (after r) = DIT \/ lastTone (after r) = DAH) /\
    deadline millis (element_time (lastTone (after r))) =
      Some (toneTimer (after r))) \/
   (emitted r = [noTone TONE_PIN] /\
    toneState g = TONE_ON /\ toneTimer g < millis /\
    toneState (after r) = TONE_PAUSE /\
    deadline millis DIT_TIME = Some (toneTimer (after r)) /\
    lastTone (after r) = lastTone g) \/
   (emitted r = [] /\
    toneState g = TONE_PAUSE /\ toneTimer g < millis /\
    toneState (after r) = IDLE_STATE /\ lastTone (after r) = QUIET)).
Proof.
  intros millis tt g r Hinv Hr. unfold updateToneState in Hr.
  destruct Hinv as [[Hs Hl] | [[Hs | Hs] Hl]]; rewrite Hs in Hr;
    cbn [Z.eqb Pos.eqb IDLE_STATE TONE_ON TONE_PAUSE] in Hr.
  - destruct ((tt =? DIT) || (tt =? DIT_DAH)).
    + destruct (deadline millis DIT_TIME) eqn:Hd; [| discriminate].
      injection Hr as <-.
      split; [right; split; [left |]; cbn; auto |].
      right; left. cbn. repeat split; auto.
    + destruct ((tt =? DAH) || (tt =? DAH_DIT)).
      * destruct (deadline millis DAH_TIME) eqn:Hd; [| discriminate].
        injection Hr as <-.
        split; [right; split; [left |]; cbn; auto |].
        right; left. cbn. repeat split; auto.
      * injection Hr as <-. split; [left; auto |]. left. cbn. auto.
  - destruct (Z.gtb_spec millis (toneTimer g)) as [Hg | Hg].
    + destruct (deadline millis DIT_TIME) eqn:Hd; [| discriminate].
      injection Hr as <-.
      split; [right; split; [right |]; cbn; auto |].
      right; right; left. cbn. repeat split; auto.
    + injection Hr as <-. split; [right; auto |]. left. cbn. auto.
  - destruct (Z.gtb_spec millis (toneTimer g)) as [Hg | Hg].
    + destruct ((tt =? QUIET) || (tt =? DIT) || (tt =? DAH)).
      * injection Hr as <-. split; [left; cbn; auto |].
        right; right; right. cbn. repeat split; auto.
      * destruct ((tt =? DIT_DAH) || (tt =? DAH_DIT)).
        { destruct (DIT =? lastTone g).
          - destruct (deadline millis DAH_TIME) eqn:Hd; [| discriminate].
            injection Hr as <-.
            split; [right; split; [left |]; cbn; auto |].
            right; left. cbn. repeat split; auto.
          - destruct (deadline millis DIT_TIME) eqn:Hd; [| discriminate].
            injection Hr as <-.
            split; [right; split; [left |]; cbn; auto |].
            right; left. cbn. repeat split; auto. }
        injection Hr as <-. split; [right; auto |]. left. cbn. auto.
    + injection Hr as <-. split; [right; auto |]. left. cbn. auto.
Qed.

Lemma loop_outcome : forall dr millis g g' effs,
  tone_inv g ->
  loop dr millis g = Some (g', effs) ->
  tone_inv g' /\
  ((effs = [] /\ toneState g' = toneState g /\
    toneTimer g' = toneTimer g /\ lastTone g' = lastTone g) \/
   (effs = [tone TONE_PIN TONE_FREQ] /\
    (toneState g = IDLE_STATE \/
     (toneState g = TONE_PAUSE /\ toneTimer g < millis)) /\
    toneState g' = TONE_ON /\
    (lastTone g' = DIT \/ lastTone g' = DAH) /\
    deadline millis (element_time (lastTone g')) = Some (toneTimer g')) \/
   (effs = [noTone TONE_PIN] /\
    toneState g = TONE_ON /\ toneTimer g < millis /\
    toneState g' = TONE_PAUSE /\
    deadline millis DIT_TIME = Some (toneTimer g') /\
    lastTone g' = lastTone g) \/
   (effs = [] /\
    toneState g = TONE_PAUSE /\ toneTimer g < millis /\
    toneState g' = IDLE_STATE /\ lastTone g' = QUIET)).
Proof.
  intros dr millis g g' effs Hinv Hl.
  destruct (loop_some _ _ _ _ _ Hl) as (r & Hr & -> & ->).
  set (m := updateMainState dr g) in *.
  pose proof (updateMainState_frame dr g) as (Fs & Fl & Ft & _).
  fold m in Fs, Fl, Ft.
  assert (Hm : tone_inv m)
    by (unfold tone_inv in *; rewrite Fs, Fl; exact Hinv).
  pose proof (updateToneState_outcome millis (toneType m) m r Hm Hr) as H.
  rewrite Fs, Fl, Ft in H. exact H.
Qed.

Lemma initial_tone_inv : tone_inv initial_state.
Proof. left. split; reflexivity. Qed.

Lemma run_tone_inv : forall ticks g, tone_inv g -> tone_inv (run ticks g).
Proof.
  induction ticks as [| t rest IH]; intros g H; cbn [run].
  - exact H.
  - destruct (loop (pins t) (clock t) g) as [[g' effs] |] eqn:Hl.
    + apply IH. apply (loop_outcome _ _ _ _ _ H Hl).
    + exact H.
Qed.

(** *** Every element sounds for its full time *)

Lemma labelled_tones : forall ticks g,
  tone_inv g -> clocks exact_clock ticks ->
  tones_kept (labelled ticks g) /\
  match labelled ticks g with
  | [] => True
  | (t, e, element) :: _ =>
    (toneState g = TONE_ON ->
     is_noTone e /\ element = lastTone g /\ toneTimer g < t) /\
    (toneState g <> TONE_ON -> is_tone e)
  end.
Proof.
  induction ticks as [| t rest IH]; intros g Hinv Hex.
  - cbn. auto.
  - cbn [labelled].
    inversion Hex as [| ? ? Hext Hexr]; subst.
    destruct (loop (pins t) (clock t) g) as [[g' effs] |] eqn:Hloop;
      [| cbn; auto].
    destruct (loop_outcome _ _ _ _ _ Hinv Hloop) as [Hinv' Hcases].
    destruct (IH g' Hinv' Hexr) as [IHk IHh].
    destruct Hcases as [(He & Hs & Ht & Hl) | [(He & Hfrom & Hs & Hl & Ht) |
                       [(He & Hon & Hlt & Hs & Ht & Hl) |
                        (He & Hp & Hlt & Hs & Hl)]]];
      rewrite He; cbn [map app].
    + split; [exact IHk |].
      destruct (labelled rest g') as [| [[t' e'] el'] tr']; [exact I |].
      rewrite Hs, Ht, Hl in IHh. exact IHh.
    + rewrite (deadline_exact_element _ _ Hext) in Ht. injection Ht as Ht.
      split.
      * cbn [tones_kept]. split; [| exact IHk].
        destruct (labelled rest g') as [| [[t' e'] el'] tr']; [exact I |].
        destruct IHh as [IHon _]. destruct (IHon Hs) as (Hno & Hel & Hlate).
        destruct e'; [exact Hno |].
        rewrite <- Ht in Hlate. repeat split; auto.
      * split; [| intros _; exact I].
        intro Hon. exfalso. unfold IDLE_STATE, TONE_ON, TONE_PAUSE in *. lia.
    + split.
      * cbn [tones_kept]. split; [exact I | exact IHk].
      * split; [| intro; contradiction].
        intros _. repeat split; auto.
    + split; [exact IHk |].
      destruct (labelled rest g') as [| [[t' e'] el'] tr']; [exact I |].
      destruct IHh as [_ IHoff].
      split.
      * intro Hon. exfalso. unfold TONE_ON, TONE_PAUSE in *. lia.
      * intros _. apply IHoff. rewrite Hs. discriminate.
Qed.

(** X4. In every run of the loop from the state [setup] leaves with the
    clock below 2^24 - 180 ms, whatever the paddles do, every pass is
    defined, a tone that is stopped was started as a dit or a dah and is
    stopped only after the clock has passed its start by more than the
    duration of that element (60 ms for a dit, 180 ms for a dah), and no
    tone is started while another sounds. *)
Theorem every_tone_runs_its_duration : forall ticks,
  clocks exact_clock ticks ->
  defined ticks initial_state /\
  tones_kept (labelled ticks initial_state).
Proof.
  intros ticks Hex. split; [apply defined_exact, Hex |].
  apply (labelled_tones ticks initial_state initial_tone_inv Hex).
Qed.

Lemma every_tone_runs_its_duration_witness :
  let ticks := [mkTick (paddles false true) 0; mkTick (paddles false true) 181;
                mkTick (paddles true true) 242; mkTick (paddles true true) 303;
                mkTick (paddles false false) 364] in
  clocks exact_clock ticks /\
  labelled ticks initial_state =
    [(0, tone TONE_PIN TONE_FREQ, DAH); (181, noTone TONE_PIN, DAH);
     (242, tone TONE_PIN TONE_FREQ, DIT); (303, noTone TONE_PIN, DIT)] /\
  defined ticks initial_state /\
  tones_kept (labelled ticks initial_state).
Proof.
  intro ticks.
  assert (Hc : clocks exact_clock ticks) by clock_range.
  split; [exact Hc |].
  split; [vm_compute; reflexivity |].
  apply (every_tone_runs_its_duration ticks Hc).
Defined.

(** *** The sequencer's variables and the tone generator agree *)

Lemma sounding_run : forall ticks g before,
  tone_inv g ->
  (before = true <-> toneState g = TONE_ON) ->
  (sounding before (trace ticks g) = true <->
   toneState (run ticks g) = TONE_ON).
Proof.
  induction ticks as [| t rest IH]; intros g before Hinv Hb.
  - exact Hb.
  - cbn [trace run].
    destruct (loop (pins t) (clock t) g) as [[g' effs] |] eqn:Hloop;
      [| exact Hb].
    unfold sounding. rewrite fold_left_app.
    fold (sounding (sounding before (map (pair (clock t)) effs))
            (trace rest g')).
    destruct (loop_outcome _ _ _ _ _ Hinv Hloop) as [Hinv' Hcases].
    apply IH; [exact Hinv' |].
    destruct Hcases as [(He & Hs & _) | [(He & _ & Hs & _) |
                       [(He & _ & _ & Hs & _) | (He & Hp & _ & Hs & _)]]];
      rewrite He, Hs; cbn.
    + exact Hb.
    + split; reflexivity.
    + split; discriminate.
    + destruct Hb as [Hb1 _]. split; [| discriminate].
      intro Hbt. apply Hb1 in Hbt. rewrite Hp in Hbt. discriminate.
Qed.

(** X5. After any run of the loop from the state [setup] leaves, the tone
    state is [IDLE_STATE], [TONE_ON] or [TONE_PAUSE]; the tone generator has
    been left oscillating exactly when it is [TONE_ON]; and [lastTone] is
    [QUIET] exactly when it is [IDLE_STATE], a dit or a dah otherwise. *)
Theorem sequencer_state_consistent : forall ticks,
  let g := run ticks initial_state in
  tone_state_ok g /\
  (sounding false (trace ticks initial_state) = true <->
   toneState g = TONE_ON) /\
  (lastTone g = QUIET <-> toneState g = IDLE_STATE) /\
  (lastTone g = QUIET \/ lastTone g = DIT \/ lastTone g = DAH).
Proof.
  intros ticks g.
  pose proof (run_tone_inv ticks initial_state initial_tone_inv) as Hinv.
  fold g in Hinv.
  split; [| split; [| split]].
  - unfold tone_state_ok. destruct Hinv as [[H _] | [[H | H] _]]; auto.
  - apply sounding_run; [exact initial_tone_inv |].
    split; discriminate.
  - destruct Hinv as [[Hs Hl] | [Hs Hl]].
    + split; auto.
    + split; intro H; exfalso.
      * destruct Hl as [Hl | Hl]; rewrite Hl in H; discriminate.
      * destruct Hs as [Hs | Hs]; rewrite Hs in H; discriminate.
  - destruct Hinv as [[_ Hl] | [_ [Hl | Hl]]]; auto.
Qed.

(** *** Passes with a plain tone type *)

(** One call of [updateToneState] with a tone type that is not a squeeze. *)
Lemma updateToneState_plain : forall millis tt g r,
  tone_inv g -> tt = QUIET \/ tt = DIT \/ tt = DAH ->
  updateToneState millis tt g = Some r ->
  tone_inv (after r) /\
  ((toneState g = IDLE_STATE /\ tt = QUIET /\ r = mkToneResult g [] false) \/
   (toneState g = IDLE_STATE /\ tt <> QUIET /\
    emitted r = [tone TONE_PIN TONE_FREQ] /\
    toneState (after r) = TONE_ON /\ lastTone (after r) = tt /\
    deadline millis (element_time tt) = Some (toneTimer (after r))) \/
   (toneState g <> IDLE_STATE /\ millis <= toneTimer g /\
    r = mkToneResult g [] false) \/
   (toneState g = TONE_ON /\ toneTimer g < millis /\
    emitted r = [noTone TONE_PIN] /\
    toneState (after r) = TONE_PAUSE /\
    deadline millis DIT_TIME = Some (toneTimer (after r)) /\
    lastTone (after r) = lastTone g) \/
   (toneState g = TONE_PAUSE /\ toneTimer g < millis /\
    emitted r = [] /\ done r = true /\
    toneState (after r) = IDLE_STATE /\ lastTone (after r) = QUIET /\
    toneTimer (after r) = toneTimer g)).
Proof.
  intros millis tt g r Hinv Htt Hr.
  split; [apply (updateToneState_outcome millis tt g r Hinv Hr) |].
  destruct Hinv as [[Hs Hl] | [[Hs | Hs] Hl]].
  - destruct Htt as [-> | [-> | ->]].
    + left. repeat split; auto.
      rewrite tone_idle_other in Hr by (auto; discriminate).
      injection Hr as <-. reflexivity.
    + right; left.
      rewrite (tone_idle_dit millis DIT g Hs (or_introl eq_refl)) in Hr.
      destruct (deadline millis DIT_TIME) eqn:Hd; [| discriminate].
      injection Hr as <-. cbn. repeat split; auto. discriminate.
    + right; left.
      rewrite (tone_idle_dah millis DAH g Hs (or_introl eq_refl)) in Hr.
      destruct (deadline millis DAH_TIME) eqn:Hd; [| discriminate].
      injection Hr as <-. cbn. repeat split; auto. discriminate.
  - destruct (Z.lt_ge_cases (toneTimer g) millis) as [Hlt | Hge].
    + right; right; right; left.
      rewrite (tone_on_expired millis tt g Hs Hlt) in Hr.
      destruct (deadline millis DIT_TIME) eqn:Hd; [| discriminate].
      injection Hr as <-. cbn. repeat split; auto.
    + right; right; left.
      rewrite (tone_on_running millis tt g Hs Hge) in Hr.
      injection Hr as <-.
      repeat split; auto. rewrite Hs. discriminate.
  - destruct (Z.lt_ge_cases (toneTimer g) millis) as [Hlt | Hge].
    + right; right; right; right.
      rewrite (tone_pause_finish millis tt g Hs Hlt Htt) in Hr.
      injection Hr as <-. cbn. repeat split; auto.
    + right; right; left.
      rewrite (tone_pause_running millis tt g Hs Hge) in Hr.
      injection Hr as <-.
      repeat split; auto. rewrite Hs. discriminate.
Qed.

(** The same for a pass of the loop in which the paddle machine hands over
    a plain tone type. *)
Lemma loop_plain : forall dr millis g g' effs,
  main_inv g -> tone_inv g ->
  let m := updateMainState dr g in
  toneType m = QUIET \/ toneType m = DIT \/ toneType m = DAH ->
  loop dr millis g = Some (g', effs) ->
  main_inv g' /\ tone_inv g' /\
  state g' = state m /\ toneType g' = toneType m /\
  ((toneState g = IDLE_STATE /\ toneType m = QUIET /\ effs = [] /\
    toneState g' = IDLE_STATE /\ toneTimer g' = toneTimer g) \/
   (toneState g = IDLE_STATE /\ toneType m <> QUIET /\
    effs = [tone TONE_PIN TONE_FREQ] /\
    toneState g' = TONE_ON /\ lastTone g' = toneType m /\
    deadline millis (element_time (toneType m)) = Some (toneTimer g')) \/
   (toneState g <> IDLE_STATE /\ millis <= toneTimer g /\ effs = [] /\
    toneState g' = toneState g /\ toneTimer g' = toneTimer g /\
    lastTone g' = lastTone g) \/
   (toneState g = TONE_ON /\ toneTimer g < millis /\
    effs = [noTone TONE_PIN] /\
    toneState g' = TONE_PAUSE /\
    deadline millis DIT_TIME = Some (toneTimer g') /\
    lastTone g' = lastTone g) \/
   (toneState g = TONE_PAUSE /\ toneTimer g < millis /\
    effs = [] /\
    toneState g' = IDLE_STATE /\ lastTone g' = QUIET /\
    toneTimer g' = toneTimer g)).
Proof.
  intros dr millis g g' effs Hmain Htone m Htt Hl.
  pose proof (loop_inv _ _ _ _ _ Hmain Hl) as Hmain'.
  destruct (loop_some _ _ _ _ _ Hl) as (r & Hr & -> & ->).
  fold m in Hr.
  pose proof (updateMainState_frame dr g) as (Fs & Fl & Ft & _).
  fold m in Fs, Fl, Ft.
  assert (Hm : tone_inv m)
    by (unfold tone_inv in *; rewrite Fs, Fl; exact Htone).
  pose proof (updateToneState_frame _ _ _ _ Hr) as (Es & Et & _).
  destruct (updateToneState_plain millis (toneType m) m r Hm Htt Hr)
    as [Htone' Hcases].
  cbv zeta in Es, Et.
  split; [exact Hmain' | split; [exact Htone' | split; [exact Es |]]].
  split; [exact Et |].
  rewrite Fs, Fl, Ft in Hcases.
  destruct Hcases as [(H1 & H2 & H3) | [(H1 & H2 & H3 & H4 & H5 & H6) |
                     [(H1 & H2 & H3) | [(H1 & H2 & H3 & H4 & H5 & H6) |
                      (H1 & H2 & H3 & _ & H4 & H5 & H6)]]]].
  - left. rewrite H3. cbn. rewrite Fs, Ft. auto.
  - right; left. auto 10.
  - right; right; left. rewrite H3. cbn. auto 10.
  - right; right; right; left. auto 10.
  - right; right; right; right. auto 10.
Qed.

(** What the paddle machine hands over for each reading of the paddles. *)
Lemma main_released : forall dr g,
  main_inv g -> dr DIT_PIN <> LOW -> dr DAH_PIN <> LOW ->
  state (updateMainState dr g) = IDLE_STATE /\
  toneType (updateMainState dr g) = QUIET.
Proof.
  intros dr g Hinv Hd Hh. unfold updateMainState.
  destruct (Z.eqb_spec (dr DIT_PIN) LOW); [contradiction |].
  destruct (Z.eqb_spec (dr DAH_PIN) LOW); [contradiction |].
  destruct Hinv as [[Hs Ht] | [[Hs Ht] | [[Hs Ht] | [Hs Ht]]]];
    rewrite Hs; cbn; auto.
Qed.

Lemma main_dah_only : forall dr g,
  main_inv g -> dr DIT_PIN <> LOW -> dr DAH_PIN = LOW ->
  let m := updateMainState dr g in
  (state g = DIT_INPUT -> m = g) /\
  (state g <> DIT_INPUT ->
   state m <> DIT_INPUT /\ (toneType m = QUIET \/ toneType m = DAH)).
Proof.
  intros dr g Hinv Hd Hh m. subst m. unfold updateMainState.
  destruct (Z.eqb_spec (dr DIT_PIN) LOW); [contradiction |].
  rewrite Hh.
  destruct Hinv as [[Hs Ht] | [[Hs Ht] | [[Hs Ht] | [Hs Ht]]]];
    rewrite Hs; cbn; (split; [intro H | intro H]);
    try discriminate; try reflexivity;
    try (exfalso; apply H; reflexivity);
    rewrite ?Hs, ?Ht; (split; [discriminate | auto]).
Qed.

Lemma main_dit_only : forall dr g,
  main_inv g -> dr DIT_PIN = LOW -> dr DAH_PIN <> LOW ->
  let m := updateMainState dr g in
  (state g = DAH_INPUT -> m = g) /\
  (state g <> DAH_INPUT ->
   state m <> DAH_INPUT /\ (toneType m = QUIET \/ toneType m = DIT)).
Proof.
  intros dr g Hinv Hd Hh m. subst m. unfold updateMainState.
  destruct (Z.eqb_spec (dr DAH_PIN) LOW); [contradiction |].
  rewrite Hd.
  destruct Hinv as [[Hs Ht] | [[Hs Ht] | [[Hs Ht] | [Hs Ht]]]];
    rewrite Hs; cbn; (split; [intro H | intro H]);
    try discriminate; try reflexivity;
    try (exfalso; apply H; reflexivity);
    rewrite ?Hs, ?Ht; (split; [discriminate | auto]).
Qed.

(** *** Released paddles *)

Lemma released_run : forall ticks g,
  main_inv g -> tone_inv g -> Forall released ticks ->
  elements ticks g = [] /\
  (trace ticks g = [] \/
   (toneState g = TONE_ON /\
    exists t, toneTimer g < t /\ trace ticks g = [(t, noTone TONE_PIN)])).
Proof.
  induction ticks as [| t rest IH]; intros g Hmain Htone Hall.
  - cbn. auto.
  - inversion Hall as [| t0 l [Hd Hh] Hrest]; subst.
    destruct (main_released (pins t) g Hmain Hd Hh) as [_ Hq].
    cbn [elements trace].
    destruct (loop (pins t) (clock t) g) as [[g' effs] |] eqn:Hl;
      [| auto].
    destruct (loop_plain (pins t) (clock t) g g' effs Hmain Htone
                (or_introl Hq) Hl)
      as (Hmain' & Htone' & _ & _ & Hcases).
    destruct (IH g' Hmain' Htone' Hrest) as [IHe IHt].
    rewrite Hq in Hcases.
    destruct Hcases as [(H1 & _ & H3 & H4 & _) | [(_ & H2 & _) |
                       [(H1 & H2 & H3 & H4 & H5 & _) |
                       [(H1 & H2 & H3 & H4 & _) | (H1 & H2 & H3 & H4 & _)]]]].
    + rewrite H3. cbn [started flat_map map app]. split; [exact IHe |].
      left. destruct IHt as [E | [Hon _]]; [exact E |].
      rewrite H4 in Hon. discriminate.
    + contradiction.
    + rewrite H3. cbn [started flat_map map app]. split; [exact IHe |].
      rewrite H4, H5 in IHt. exact IHt.
    + rewrite H3. cbn [started flat_map map app]. split; [exact IHe |].
      right. split; [exact H1 |]. exists (clock t). split; [exact H2 |].
      destruct IHt as [-> | [Hon _]]; [reflexivity |].
      rewrite H4 in Hon. discriminate.
    + rewrite H3. cbn [started flat_map map app]. split; [exact IHe |].
      left. destruct IHt as [E | [Hon _]]; [exact E |].
      rewrite H4 in Hon. discriminate.
Qed.

Lemma released_state : forall ticks g,
  main_inv g -> Forall released ticks -> ticks <> [] ->
  defined ticks g ->
  state (run ticks g) = IDLE_STATE /\ toneType (run ticks g) = QUIET.
Proof.
  induction ticks as [| t rest IH]; intros g Hmain Hall Hne Hdef.
  - contradiction.
  - inversion Hall as [| t0 l [Hd Hh] Hrest]; subst.
    cbn [run defined] in *.
    destruct (loop (pins t) (clock t) g) as [[g' effs] |] eqn:Hl;
      [| contradiction].
    pose proof (loop_inv _ _ _ _ _ Hmain Hl) as Hmain'.
    destruct rest as [| t' rest'].
    + cbn [run].
      destruct (loop_some _ _ _ _ _ Hl) as (r & Hr & -> & _).
      pose proof (updateToneState_frame _ _ _ _ Hr) as (Es & Et & _).
      cbv zeta in Es, Et. rewrite Es, Et.
      apply main_released; assumption.
    + apply IH; [exact Hmain' | exact Hrest | discriminate | exact Hdef].
Qed.

Lemma released_idle : forall ticks g,
  main_inv g -> tone_inv g -> Forall released ticks -> spaced 60 ticks ->
  clocks exact_clock ticks ->
  match ticks with [] => True | t :: _ => toneTimer g < clock t end ->
  ((if (toneState g =? IDLE_STATE)%Z then 0
    else if (toneState g =? TONE_PAUSE)%Z then 1 else 2) <= length ticks)%nat ->
  toneState (run ticks g) = IDLE_STATE /\ lastTone (run ticks g) = QUIET.
Proof.
  induction ticks as [| t rest IH];
    intros g Hmain Htone Hall Hsp Hex Hlate Hlen.
  - cbn [run]. destruct Htone as [[Hs Hl] | [[Hs | Hs] _]];
      rewrite Hs in Hlen; cbn in Hlen; [auto | lia | lia].
  - inversion Hall as [| t0 l [Hd Hh] Hrest]; subst.
    inversion Hex as [| ? ? Hext Hexr]; subst.
    destruct Hsp as [Hnext Hsp].
    destruct (main_released (pins t) g Hmain Hd Hh) as [_ Hq].
    destruct (loop_defined (pins t) (clock t) g (exact_clock_safe _ Hext))
      as (g' & effs & Hl).
    destruct (loop_plain (pins t) (clock t) g g' effs Hmain Htone
                (or_introl Hq) Hl)
      as (Hmain' & Htone' & _ & _ & Hcases).
    cbn [run]. rewrite Hl.
    assert (Hlate' : toneTimer g' <= clock t + 60 ->
              match rest with
              | [] => True
              | t' :: _ => toneTimer g' < clock t'
              end)
      by (intro; destruct rest; [exact I | lia]).
    cbn [length] in Hlen.
    destruct Hcases as [(H1 & _ & H3 & H4 & H5) | [(_ & H2 & _) |
                       [(H1 & H2 & _) |
                       [(H1 & H2 & H3 & H4 & H5 & _) |
                        (H1 & H2 & H3 & H4 & H5 & H6)]]]].
    + apply (IH g' Hmain' Htone' Hrest Hsp Hexr).
      * apply Hlate'. lia.
      * rewrite H4. cbn. lia.
    + contradiction.
    + lia.
    + rewrite (deadline_exact_dit _ Hext) in H5. injection H5 as H5.
      apply (IH g' Hmain' Htone' Hrest Hsp Hexr).
      * apply Hlate'. lia.
      * rewrite H4. rewrite H1 in Hlen. cbn in Hlen |- *. lia.
    + apply (IH g' Hmain' Htone' Hrest Hsp Hexr).
      * apply Hlate'. lia.
      * rewrite H4. cbn. lia.
Qed.

(** X6. From any state the loop reaches, passes that read both paddles
    released start no tone and make at most one call to the tone generator,
    the [noTone] that ends a tone in progress once its deadline has passed;
    when the passes are defined, the paddle machine is idle with tone type
    [QUIET] after the first of them; and when the clock is below
    2^24 - 180 ms and the passes are more than a dit apart, the first of
    them later than [toneTimer], the sequencer is idle after two of them. *)
Theorem released_paddles_go_quiet : forall before ticks,
  let g := run before initial_state in
  Forall released ticks ->
  elements ticks g = [] /\
  (trace ticks g = [] \/
   (toneState g = TONE_ON /\
    exists t, toneTimer g < t /\ trace ticks g = [(t, noTone TONE_PIN)])) /\
  (ticks <> [] -> defined ticks g ->
   state (run ticks g) = IDLE_STATE /\ toneType (run ticks g) = QUIET) /\
  (clocks exact_clock ticks ->
   spaced 60 ticks -> (2 <= length ticks)%nat ->
   match ticks with [] => True | t :: _ => toneTimer g < clock t end ->
   defined ticks g /\
   toneState (run ticks g) = IDLE_STATE /\ lastTone (run ticks g) = QUIET).
Proof.
  intros before ticks g Hall.
  pose proof (run_inv before initial_state initial_inv) as Hmain.
  pose proof (run_tone_inv before initial_state initial_tone_inv) as Htone.
  fold g in Hmain, Htone.
  destruct (released_run ticks g Hmain Htone Hall) as [He Ht].
  split; [exact He | split; [exact Ht | split]].
  - apply released_state; assumption.
  - intros Hex Hsp Hlen Hlate.
    split; [apply defined_exact, Hex |].
    apply released_idle; try assumption.
    destruct (toneState g =? IDLE_STATE); [lia |].
    destruct (toneState g =? TONE_PAUSE); lia.
Qed.

Lemma released_paddles_go_quiet_witness :
  let before :=
    [mkTick (paddles true false) 0; mkTick (paddles true true) 10] in
  let ticks := [mkTick (paddles false false) 100;
                mkTick (paddles false false) 161] in
  let g := run before initial_state in
  Forall released ticks /\ clocks exact_clock ticks /\
  elements ticks g = [] /\
  trace ticks g = [(100, noTone TONE_PIN)] /\
  state (run ticks g) = IDLE_STATE /\ toneType (run ticks g) = QUIET /\
  toneState (run ticks g) = IDLE_STATE /\ lastTone (run ticks g) = QUIET.
Proof.
  intros before ticks g.
  assert (Hall : Forall released ticks)
    by (repeat first [apply Forall_nil | apply Forall_cons];
        split; discriminate).
  assert (Hex : clocks exact_clock ticks)
    by (repeat first [apply Forall_nil | apply Forall_cons];
        unfold exact_clock; cbn [clock]; change (2 ^ 24) with 16777216; lia).
  assert (Ht : toneTimer g = 60) by (vm_compute; reflexivity).
  destruct (released_paddles_go_quiet before ticks Hall)
    as (He & _ & Hs & Hi).
  split; [exact Hall | split; [exact Hex | split; [exact He |]]].
  split; [vm_compute; reflexivity |].
  destruct Hs as [Hs1 Hs2]; [discriminate | vm_compute; exact I |].
  destruct Hi as (_ & Hi1 & Hi2);
    [exact Hex | cbn; lia | cbn; lia | fold g; rewrite Ht; cbn; lia |].
  repeat split; assumption.
Defined.

(** *** One paddle *)

(** The first pass after [setup] that reads a paddle pressed. *)
Lemma first_pass_dit : forall dr millis,
  dr DIT_PIN = LOW ->
  loop dr millis initial_state =
  option_map
    (fun d =>
       (set_toneState TONE_ON (set_lastTone DIT
          (set_toneTimer d
             (set_state DIT_INPUT (set_toneType DIT initial_state)))),
        [tone TONE_PIN TONE_FREQ]))
    (deadline millis DIT_TIME).
Proof.
  intros dr millis Hd. unfold loop, updateMainState. rewrite Hd.
  cbn [initial_state state Z.eqb IDLE_STATE LOW].
  rewrite (tone_idle_dit millis DIT); [| reflexivity | left; reflexivity].
  destruct (deadline millis DIT_TIME); reflexivity.
Qed.

Lemma first_pass_dah : forall dr millis,
  dr DIT_PIN <> LOW -> dr DAH_PIN = LOW ->
  loop dr millis initial_state =
  option_map
    (fun d =>
       (set_toneState TONE_ON (set_lastTone DAH
          (set_toneTimer d
             (set_state DAH_INPUT (set_toneType DAH initial_state)))),
        [tone TONE_PIN TONE_FREQ]))
    (deadline millis DAH_TIME).
Proof.
  intros dr millis Hd Hh. unfold loop, updateMainState. rewrite Hh.
  destruct (Z.eqb_spec (dr DIT_PIN) LOW); [contradiction |].
  cbn [initial_state state Z.eqb IDLE_STATE LOW].
  rewrite (tone_idle_dah millis DAH); [| reflexivity | left; reflexivity].
  destruct (deadline millis DAH_TIME); reflexivity.
Qed.

(** X7. While the clock is below 2^24 - 180 ms, a paddle pressed for one
    pass and released gives one element: the tone is started in that pass,
    no other is, and the only other call is the [noTone] that ends it, made
    by a pass that reads the clock more than the element's duration after
    the start. *)
Theorem brief_press_one_element : forall first rest,
  Forall released rest -> exact_clock (clock first) ->
  (dit_only first ->
   elements (first :: rest) initial_state = [DIT] /\
   (trace (first :: rest) initial_state =
      [(clock first, tone TONE_PIN TONE_FREQ)] \/
    exists t, clock first + 60 < t /\
      trace (first :: rest) initial_state =
        [(clock first, tone TONE_PIN TONE_FREQ); (t, noTone TONE_PIN)])) /\
  (dah_only first ->
   elements (first :: rest) initial_state = [DAH] /\
   (trace (first :: rest) initial_state =
      [(clock first, tone TONE_PIN TONE_FREQ)] \/
    exists t, clock first + 180 < t /\
      trace (first :: rest) initial_state =
        [(clock first, tone TONE_PIN TONE_FREQ); (t, noTone TONE_PIN)])).
Proof.
  intros first rest Hrest Hc.
  split; intros [Hd Hh]; cbn [elements trace].
  - pose proof (first_pass_dit (pins first) (clock first) Hd) as E1.
    rewrite (deadline_exact_dit _ Hc) in E1. cbn [option_map] in E1.
    pose proof (loop_inv _ _ _ _ _ initial_inv E1) as Hmain.
    pose proof (proj1 (loop_outcome _ _ _ _ _ initial_tone_inv E1)) as Htone.
    rewrite E1.
    cbn [started flat_map map app lastTone set_toneState set_lastTone].
    destruct (released_run rest _ Hmain Htone Hrest) as [-> Ht].
    split; [reflexivity |].
    destruct Ht as [-> | [_ (t & Hlt & ->)]]; [left; reflexivity |].
    right. exists t. split; [exact Hlt | reflexivity].
  - pose proof (first_pass_dah (pins first) (clock first) Hd Hh) as E1.
    rewrite (deadline_exact_dah _ Hc) in E1. cbn [option_map] in E1.
    pose proof (loop_inv _ _ _ _ _ initial_inv E1) as Hmain.
    pose proof (proj1 (loop_outcome _ _ _ _ _ initial_tone_inv E1)) as Htone.
    rewrite E1.
    cbn [started flat_map map app lastTone set_toneState set_lastTone].
    destruct (released_run rest _ Hmain Htone Hrest) as [-> Ht].
    split; [reflexivity |].
    destruct Ht as [-> | [_ (t & Hlt & ->)]]; [left; reflexivity |].
    right. exists t. split; [exact Hlt | reflexivity].
Qed.

Lemma brief_press_one_element_witness :
  let rest := [mkTick (paddles false false) 30;
               mkTick (paddles false false) 70;
               mkTick (paddles false false) 140] in
  Forall released rest /\ exact_clock 5 /\
  elements (mkTick (paddles true false) 5 :: rest) initial_state = [DIT] /\
  trace (mkTick (paddles true false) 5 :: rest) initial_state =
    [(5, tone TONE_PIN TONE_FREQ); (70, noTone TONE_PIN)] /\
  elements (mkTick (paddles false true) 5 :: rest) initial_state = [DAH].
Proof.
  intro rest.
  assert (Hall : Forall released rest)
    by (repeat first [apply Forall_nil | apply Forall_cons];
        split; discriminate).
  assert (Hc : exact_clock 5)
    by (unfold exact_clock; change (2 ^ 24) with 16777216; lia).
  split; [exact Hall | split; [exact Hc | split; [| split]]].
  - apply (proj1 (brief_press_one_element
                    (mkTick (paddles true false) 5) rest Hall Hc)).
    split; [reflexivity | discriminate].
  - vm_compute. reflexivity.
  - apply (proj2 (brief_press_one_element
                    (mkTick (paddles false true) 5) rest Hall Hc)).
    split; [discriminate | reflexivity].
Defined.

Section OnePaddle.

(** [only] is what the passes read, [X] the element of the pressed paddle,
    [YS] the state in which the paddle machine sends the other element,
    [Y]. *)
Variable only : Tick -> Prop.
Variables X YS Y : Z.

Hypothesis X_plain : X = DIT \/ X = DAH.
Hypothesis Y_plain : Y = DIT \/ Y = DAH.

Hypothesis main_only : forall t g,
  only t -> main_inv g ->
  let m := updateMainState (pins t) g in
  (state g = YS -> m = g) /\
  (state g <> YS ->
   state m <> YS /\ (toneType m = QUIET \/ toneType m = X)).

Hypothesis other_state : forall g,
  main_inv g -> state g = YS -> toneType g = Y.

Lemma only_elements : forall ticks g,
  main_inv g -> tone_inv g -> Forall only ticks ->
  (state g = YS ->
   Forall (eq Y) (elements ticks g) /\ state (run ticks g) = YS) /\
  (state g <> YS ->
   Forall (eq X) (elements ticks g) /\ state (run ticks g) <> YS).
Proof.
  induction ticks as [| t rest IH]; intros g Hmain Htone Hall.
  - cbn. split; intro; split; auto.
  - inversion Hall as [| t0 l Ht Hrest]; subst.
    destruct (main_only t g Ht Hmain) as [Hsame Hdiff].
    cbn [elements run].
    destruct (loop (pins t) (clock t) g) as [[g' effs] |] eqn:Hl;
      [| split; intro; split; auto].
    set (m := updateMainState (pins t) g) in *.
    assert (Hplain : toneType m = QUIET \/ toneType m = DIT \/
                     toneType m = DAH).
    { destruct (Z.eq_dec (state g) YS) as [E | E].
      - rewrite (Hsame E). rewrite (other_state g Hmain E).
        right. exact Y_plain.
      - destruct (Hdiff E) as [_ [Hq | Hx]]; [left; exact Hq |].
        right. rewrite Hx. exact X_plain. }
    destruct (loop_plain (pins t) (clock t) g g' effs Hmain Htone Hplain Hl)
      as (Hmain' & Htone' & Es & Et & Hcases).
    fold m in Es, Et, Hcases.
    destruct (IH g' Hmain' Htone' Hrest) as [IHsame IHdiff].
    assert (Hst : started g' effs = [] \/
                  (toneType m <> QUIET /\ started g' effs = [toneType m])).
    { destruct Hcases as [(_ & _ & H3 & _) | [(_ & H2 & H3 & _ & H5 & _) |
                         [(_ & _ & H3 & _) |
                         [(_ & _ & H3 & _) | (_ & _ & H3 & _)]]]];
        rewrite H3; cbn [started flat_map app]; auto.
      right. rewrite H5. auto. }
    split; intro E.
    + assert (E' : state g' = YS) by (rewrite Es, (Hsame E); exact E).
      destruct (IHsame E') as [IHe IHs]. split; [| exact IHs].
      destruct Hst as [-> | [_ ->]]; [exact IHe |].
      cbn [app]. constructor; [| exact IHe].
      rewrite (Hsame E). symmetry. apply other_state; assumption.
    + destruct (Hdiff E) as [Hne Htt].
      assert (E' : state g' <> YS) by (rewrite Es; exact Hne).
      destruct (IHdiff E') as [IHe IHs]. split; [| exact IHs].
      destruct Hst as [-> | [Hnq ->]]; [exact IHe |].
      cbn [app]. constructor; [| exact IHe].
      destruct Htt as [Hq | Hx]; [contradiction | symmetry; exact Hx].
Qed.

End OnePaddle.

Lemma dah_only_elements : forall ticks g,
  main_inv g -> tone_inv g -> Forall dah_only ticks ->
  (state g = DIT_INPUT ->
   Forall (eq DIT) (elements ticks g) /\ state (run ticks g) = DIT_INPUT) /\
  (state g <> DIT_INPUT ->
   Forall (eq DAH) (elements ticks g) /\ state (run ticks g) <> DIT_INPUT).
Proof.
  apply (only_elements dah_only DAH DIT_INPUT DIT).
  - right; reflexivity.
  - left; reflexivity.
  - intros t g [Hd Hh] Hmain. apply main_dah_only; assumption.
  - intros g Hmain Hs.
    destruct Hmain as [[Hs' Ht] | [[Hs' Ht] | [[Hs' Ht] | [Hs' Ht]]]];
      rewrite Hs in Hs'; try discriminate. exact Ht.
Qed.

Lemma dit_only_elements : forall ticks g,
  main_inv g -> tone_inv g -> Forall dit_only ticks ->
  (state g = DAH_INPUT ->
   Forall (eq DAH) (elements ticks g) /\ state (run ticks g) = DAH_INPUT) /\
  (state g <> DAH_INPUT ->
   Forall (eq DIT) (elements ticks g) /\ state (run ticks g) <> DAH_INPUT).
Proof.
  apply (only_elements dit_only DIT DAH_INPUT DAH).
  - left; reflexivity.
  - right; reflexivity.
  - intros t g [Hd Hh] Hmain. apply main_dit_only; assumption.
  - intros g Hmain Hs.
    destruct Hmain as [[Hs' Ht] | [[Hs' Ht] | [[Hs' Ht] | [Hs' Ht]]]];
      rewrite Hs in Hs'; try discriminate. exact Ht.
Qed.

(** X8. From any state the loop reaches other than [DIT_INPUT], and so from
    idle and from a squeeze, every element started while the passes read
    only the dah paddle pressed is a dah; and from any state it reaches
    other than [DAH_INPUT], every element started while they read only the
    dit paddle pressed is a dit. *)
Theorem held_paddle_repeats_its_element : forall before ticks,
  let g := run before initial_state in
  (Forall dah_only ticks -> state g <> DIT_INPUT ->
   Forall (eq DAH) (elements ticks g)) /\
  (Forall dit_only ticks -> state g <> DAH_INPUT ->
   Forall (eq DIT) (elements ticks g)).
Proof.
  intros before ticks g.
  pose proof (run_inv before initial_state initial_inv) as Hmain.
  pose proof (run_tone_inv before initial_state initial_tone_inv) as Htone.
  fold g in Hmain, Htone.
  split; intros Hall Hs.
  - apply (proj2 (dah_only_elements ticks g Hmain Htone Hall) Hs).
  - apply (proj2 (dit_only_elements ticks g Hmain Htone Hall) Hs).
Qed.

Lemma held_paddle_repeats_its_element_witness :
  let before := [mkTick (paddles true false) 0; mkTick (paddles true true) 1] in
  let g := run before initial_state in
  state g = DIT_DAH_INPUT /\
  Forall dah_only (hold (paddles false true) 2 700) /\
  Forall (eq DAH) (elements (hold (paddles false true) 2 700) g) /\
  Forall dit_only (hold (paddles true false) 2 700) /\
  Forall (eq DIT) (elements (hold (paddles true false) 2 700) g).
Proof.
  intros before g.
  assert (Hh : forall n s, Forall dah_only (hold (paddles false true) s n)).
  { induction n as [| n IH]; intro s; cbn [hold]; constructor; [| apply IH].
    split; [discriminate | reflexivity]. }
  assert (Hd : forall n s, Forall dit_only (hold (paddles true false) s n)).
  { induction n as [| n IH]; intro s; cbn [hold]; constructor; [| apply IH].
    split; [reflexivity | discriminate]. }
  split; [vm_compute; reflexivity |].
  split; [apply Hh | split; [| split; [apply Hd |]]].
  - apply (proj1 (held_paddle_repeats_its_element before
                    (hold (paddles false true) 2 700)));
      [apply Hh | vm_compute; discriminate].
  - apply (proj2 (held_paddle_repeats_its_element before
                    (hold (paddles true false) 2 700)));
      [apply Hd | vm_compute; discriminate].
Defined.

(** X9. Changing paddles between two passes does not change the element: in
    [DIT_INPUT], passes that read only the dah paddle pressed leave the
    state [DIT_INPUT] and every element they start is a dit; in [DAH_INPUT],
    passes that read only the dit paddle pressed leave the state [DAH_INPUT]
    and every element they start is a dah. *)
Theorem swapped_paddle_keeps_element : forall before ticks,
  let g := run before initial_state in
  (Forall dah_only ticks -> state g = DIT_INPUT ->
   Forall (eq DIT) (elements ticks g) /\ state (run ticks g) = DIT_INPUT) /\
  (Forall dit_only ticks -> state g = DAH_INPUT ->
   Forall (eq DAH) (elements ticks g) /\ state (run ticks g) = DAH_INPUT).
Proof.
  intros before ticks g.
  pose proof (run_inv before initial_state initial_inv) as Hmain.
  pose proof (run_tone_inv before initial_state initial_tone_inv) as Htone.
  fold g in Hmain, Htone.
  split; intros Hall Hs.
  - apply (proj1 (dah_only_elements ticks g Hmain Htone Hall) Hs).
  - apply (proj1 (dit_only_elements ticks g Hmain Htone Hall) Hs).
Qed.

Lemma swapped_paddle_keeps_element_witness :
  let ticks := [mkTick (paddles false true) 61; mkTick (paddles false true) 122;
                mkTick (paddles false true) 123] in
  (let g := run [mkTick (paddles true false) 0] initial_state in
   state g = DIT_INPUT /\ Forall dah_only ticks /\
   elements ticks g = [DIT] /\
   Forall (eq DIT) (elements ticks g) /\ state (run ticks g) = DIT_INPUT) /\
  (let ticks' := [mkTick (paddles true false) 181;
                  mkTick (paddles true false) 242;
                  mkTick (paddles true false) 243] in
   let g := run [mkTick (paddles false true) 0] initial_state in
   state g = DAH_INPUT /\ Forall dit_only ticks' /\
   elements ticks' g = [DAH] /\
   Forall (eq DAH) (elements ticks' g) /\ state (run ticks' g) = DAH_INPUT).
Proof.
  intro ticks. split.
  - intro g.
    assert (Hall : Forall dah_only ticks)
      by (repeat first [apply Forall_nil | apply Forall_cons];
          (split; [discriminate | reflexivity])).
    split; [vm_compute; reflexivity |].
    split; [exact Hall | split; [vm_compute; reflexivity |]].
    apply (proj1 (swapped_paddle_keeps_element
                    [mkTick (paddles true false) 0] ticks) Hall).
    vm_compute. reflexivity.
  - intros ticks' g.
    assert (Hall : Forall dit_only ticks')
      by (repeat first [apply Forall_nil | apply Forall_cons];
          (split; [reflexivity | discriminate])).
    split; [vm_compute; reflexivity |].
    split; [exact Hall | split; [vm_compute; reflexivity |]].
    apply (proj2 (swapped_paddle_keeps_element
                    [mkTick (paddles false true) 0] ticks') Hall).
    vm_compute. reflexivity.
Defined.

Section OnePaddleRate.

(** [only] is what the passes read, [X] the element of the pressed paddle
    and [XS] the state in which the paddle machine sends it. *)
Variable only : Tick -> Prop.
Variables X XS : Z.

Hypothesis X_plain : X = DIT \/ X = DAH.

Hypothesis main_only : forall t g,
  only t -> main_inv g -> state g = IDLE_STATE \/ state g = XS ->
  state (updateMainState (pins t) g) = XS /\
  toneType (updateMainState (pins t) g) = X.

Lemma only_rate : forall ticks g,
  main_inv g -> tone_inv g -> Forall only ticks -> spaced 180 ticks ->
  clocks exact_clock ticks ->
  state g = IDLE_STATE \/ state g = XS ->
  (toneState g <> IDLE_STATE ->
   match ticks with [] => True | t :: _ => toneTimer g < clock t end) ->
  length (elements ticks g) =
  ((length ticks +
    (if (toneState g =? IDLE_STATE)%Z then 2
     else if (toneState g =? TONE_PAUSE)%Z then 1 else 0)) / 3)%nat.
Proof.
  induction ticks as [| t rest IH];
    intros g Hmain Htone Hall Hsp Hex Hst Hlate.
  - cbn [elements length].
    destruct (toneState g =? IDLE_STATE); [reflexivity |].
    destruct (toneState g =? TONE_PAUSE); reflexivity.
  - inversion Hall as [| t0 l Ht Hrest]; subst.
    inversion Hex as [| ? ? Hext Hexr]; subst.
    destruct Hsp as [Hnext Hsp].
    destruct (main_only t g Ht Hmain Hst) as [Hms Hmt].
    destruct (loop_defined (pins t) (clock t) g (exact_clock_safe _ Hext))
      as (g' & effs & Hl).
    assert (Hdur : 0 < duration X <= 180)
      by (destruct X_plain as [-> | ->]; cbn; lia).
    assert (Hnq : X <> QUIET)
      by (destruct X_plain as [-> | ->]; discriminate).
    assert (Hplain : toneType (updateMainState (pins t) g) = QUIET \/
                     toneType (updateMainState (pins t) g) = DIT \/
                     toneType (updateMainState (pins t) g) = DAH)
      by (rewrite Hmt; right; exact X_plain).
    destruct (loop_plain (pins t) (clock t) g g' effs Hmain Htone Hplain Hl)
      as (Hmain' & Htone' & Es & Et & Hcases).
    rewrite Hms in Es. rewrite Hmt in Hcases.
    cbn [elements length]. rewrite Hl.
    assert (Hlate' : toneTimer g' <= clock t + 180 ->
              toneState g' <> IDLE_STATE ->
              match rest with
              | [] => True
              | t' :: _ => toneTimer g' < clock t'
              end)
      by (intros; destruct rest; [exact I | lia]).
    assert (IH' : (toneState g' <> IDLE_STATE ->
                   toneTimer g' <= clock t + 180) ->
              length (elements rest g') =
              ((length rest +
                (if (toneState g' =? IDLE_STATE)%Z then 2
                 else if (toneState g' =? TONE_PAUSE)%Z then 1 else 0))
               / 3)%nat).
    { intro Hb. apply (IH g' Hmain' Htone' Hrest Hsp Hexr (or_intror Es)).
      intro Hni. apply Hlate'; auto. }
    destruct Hcases as [(_ & H2 & _) | [(H1 & _ & H3 & H4 & _ & H6) |
                       [(H1 & H2 & _) |
                       [(H1 & _ & H3 & H4 & H5 & _) |
                        (H1 & _ & H3 & H4 & _)]]]].
    + contradiction.
    + rewrite (deadline_exact_element _ _ Hext) in H6. injection H6 as H6.
      rewrite H3, H1. cbn [started flat_map app length].
      rewrite IH' by (intros _; lia). rewrite H4.
      cbn [Z.eqb Pos.eqb IDLE_STATE TONE_ON TONE_PAUSE].
      replace (S (length rest) + 2)%nat with (length rest + 0 + 1 * 3)%nat
        by lia.
      rewrite Nat.div_add by discriminate. lia.
    + specialize (Hlate H1). cbn in Hlate. lia.
    + rewrite (deadline_exact_dit _ Hext) in H5. injection H5 as H5.
      rewrite H3, H1. cbn [started flat_map app length].
      rewrite IH' by (intros _; lia). rewrite H4.
      cbn [Z.eqb Pos.eqb IDLE_STATE TONE_ON TONE_PAUSE].
      f_equal. lia.
    + rewrite H3, H1. cbn [started flat_map app length].
      rewrite IH' by (intro Hc; rewrite H4 in Hc; contradiction).
      rewrite H4. cbn [Z.eqb Pos.eqb IDLE_STATE TONE_ON TONE_PAUSE].
      f_equal. lia.
Qed.

End OnePaddleRate.

Lemma main_dah_hold : forall t g,
  dah_only t -> main_inv g -> state g = IDLE_STATE \/ state g = DAH_INPUT ->
  state (updateMainState (pins t) g) = DAH_INPUT /\
  toneType (updateMainState (pins t) g) = DAH.
Proof.
  intros t g [Hd Hh] Hmain Hs. unfold updateMainState.
  destruct (Z.eqb_spec (pins t DIT_PIN) LOW); [contradiction |].
  rewrite Hh.
  destruct Hmain as [[Hs' Ht] | [[Hs' Ht] | [[Hs' Ht] | [Hs' Ht]]]];
    rewrite Hs' in *; destruct Hs as [Hs | Hs]; try discriminate;
    cbn; auto.
Qed.

Lemma main_dit_hold : forall t g,
  dit_only t -> main_inv g -> state g = IDLE_STATE \/ state g = DIT_INPUT ->
  state (updateMainState (pins t) g) = DIT_INPUT /\
  toneType (updateMainState (pins t) g) = DIT.
Proof.
  intros t g [Hd Hh] Hmain Hs. unfold updateMainState.
  destruct (Z.eqb_spec (pins t DAH_PIN) LOW); [contradiction |].
  rewrite Hd.
  destruct Hmain as [[Hs' Ht] | [[Hs' Ht] | [[Hs' Ht] | [Hs' Ht]]]];
    rewrite Hs' in *; destruct Hs as [Hs | Hs]; try discriminate;
    cbn; auto.
Qed.

(** X10. From the state [setup] leaves and while the clock is below
    2^24 - 180 ms, passes that read one paddle pressed, always the same,
    and come more than a dah apart start an element on the first pass and
    on every third pass after it: one pass ends the tone, one ends the
    pause and returns to idle, the next starts again. *)
Theorem held_paddle_rate : forall ticks,
  spaced 180 ticks -> clocks exact_clock ticks ->
  Forall dah_only ticks \/ Forall dit_only ticks ->
  defined ticks initial_state /\
  length (elements ticks initial_state) = ((length ticks + 2) / 3)%nat.
Proof.
  intros ticks Hsp Hex Hboth. split; [apply defined_exact, Hex |].
  destruct Hboth as [Hall | Hall].
  - apply (only_rate dah_only DAH DAH_INPUT (or_intror eq_refl)
             main_dah_hold ticks initial_state initial_inv
             initial_tone_inv Hall Hsp Hex (or_introl eq_refl)).
    intro H. exfalso. apply H. reflexivity.
  - apply (only_rate dit_only DIT DIT_INPUT (or_introl eq_refl)
             main_dit_hold ticks initial_state initial_inv
             initial_tone_inv Hall Hsp Hex (or_introl eq_refl)).
    intro H. exfalso. apply H. reflexivity.
Qed.

Lemma held_paddle_rate_witness :
  let ticks := [mkTick (paddles false true) 0; mkTick (paddles false true) 200;
                mkTick (paddles false true) 400;
                mkTick (paddles false true) 600;
                mkTick (paddles false true) 800] in
  spaced 180 ticks /\ clocks exact_clock ticks /\ Forall dah_only ticks /\
  elements ticks initial_state = [DAH; DAH] /\
  defined ticks initial_state /\
  length (elements ticks initial_state) = ((5 + 2) / 3)%nat.
Proof.
  intro ticks.
  assert (Hsp : spaced 180 ticks) by (cbn; lia).
  assert (Hex : clocks exact_clock ticks)
    by (repeat first [apply Forall_nil | apply Forall_cons];
        unfold exact_clock; cbn [clock]; change (2 ^ 24) with 16777216; lia).
  assert (Hall : Forall dah_only ticks)
    by (repeat first [apply Forall_nil | apply Forall_cons];
        (split; [discriminate | reflexivity])).
  split; [exact Hsp | split; [exact Hex | split; [exact Hall |]]].
  split; [vm_compute; reflexivity |].
  apply (held_paddle_rate ticks Hsp Hex). left. exact Hall.
Defined.

(** *** The other ways into a squeeze *)

(** One way into a squeeze from the state [setup] leaves: the first pass
    starts the element [X] and leaves the paddle machine in [XS]. *)
Lemma squeeze_from_first : forall first rest X XS XT time,
  X = DIT \/ X = DAH ->
  (XS = DIT_INPUT /\ XT = DIT) \/ (XS = DAH_INPUT /\ XT = DAH) ->
  time = element_time X ->
  Forall both_pressed rest ->
  loop (pins first) (clock first) initial_state =
  option_map
    (fun d =>
       (set_toneState TONE_ON (set_lastTone X
          (set_toneTimer d (set_state XS (set_toneType XT initial_state)))),
        [tone TONE_PIN TONE_FREQ]))
    (deadline (clock first) time) ->
  (exists n, elements (first :: rest) initial_state = alternating X n) /\
  (safe_clock (clock first) ->
   exists n, elements (first :: rest) initial_state = alternating X (S n)) /\
  (clocks exact_clock (first :: rest) -> spaced 180 (first :: rest) ->
   elements (first :: rest) initial_state =
   alternating X (S (Nat.div2 (length rest)))).
Proof.
  intros first rest X XS XT time HX HXS -> Hrest E1.
  assert (Hstep : forall d,
            deadline (clock first) (element_time X) = Some d ->
            exists g1,
              elements (first :: rest) initial_state = X :: elements rest g1 /\
              held g1 /\ lastTone g1 = X /\ toneState g1 = TONE_ON /\
              toneTimer g1 = d).
  { intros d Hd. rewrite Hd in E1. cbn [option_map] in E1.
    eexists. cbn [elements]. rewrite E1.
    cbn [started flat_map app lastTone set_toneState set_lastTone].
    split; [reflexivity |].
    split; [| repeat split].
    split; [| split]; [| | left; reflexivity].
    - destruct HXS as [[-> ->] | [-> ->]];
        [right; left | right; right; left]; split; reflexivity.
    - destruct HXS as [[-> _] | [-> _]]; discriminate. }
  assert (Halt : forall g1, held g1 -> lastTone g1 = X ->
            X :: elements rest g1 =
            alternating X (S (length (elements rest g1)))).
  { intros g1 Hheld Hlast. cbn [alternating]. f_equal.
    rewrite (elements_held rest g1 Hheld Hrest) at 1.
    rewrite Hlast. reflexivity. }
  split; [| split].
  - destruct (deadline (clock first) (element_time X)) as [d |] eqn:Hd.
    + destruct (Hstep d eq_refl) as (g1 & -> & Hheld & Hlast & _).
      eexists. apply Halt; assumption.
    + exists O. cbn [elements]. rewrite E1. reflexivity.
  - intro Hc.
    assert (Hsome : exists d,
              deadline (clock first) (element_time X) = Some d).
    { destruct (deadline_safe _ Hc) as [Hdit Hdah].
      unfold element_time. destruct (X =? DIT); assumption. }
    destruct Hsome as [d Hd].
    destruct (Hstep d Hd) as (g1 & -> & Hheld & Hlast & _).
    eexists. apply Halt; assumption.
  - intros Hex [Hnext Hsp].
    inversion Hex as [| ? ? Hext Hexr]; subst.
    destruct (Hstep _ (deadline_exact_element _ X Hext))
      as (g1 & -> & Hheld & Hlast & Hon & Ht).
    rewrite (Halt g1 Hheld Hlast). do 2 f_equal.
    rewrite (elements_spaced rest g1 Hheld Hrest Hsp Hexr).
    + rewrite Hon. cbn. rewrite Nat.add_0_r. reflexivity.
    + destruct rest as [| t' rest']; [exact I |]. rewrite Ht.
      assert (duration X <= 180)
        by (destruct HX as [-> | ->]; cbn; lia).
      lia.
Qed.

(** X11. From the state [setup] leaves, a pass with only the dah paddle
    pressed followed by passes with both pressed starts elements that
    alternate beginning with a dah; a first pass that already reads both
    paddles pressed is taken as a dit, and the elements alternate beginning
    with a dit.  There is the first element when the clock is below
    2^32 - 512 ms, and when it is below 2^24 - 180 ms and the passes come
    more than a dah apart, every second one starts the next element. *)
Theorem squeeze_leading_element : forall first rest,
  Forall both_pressed rest ->
  (dah_only first ->
   (exists n, elements (first :: rest) initial_state = alternating DAH n) /\
   (safe_clock (clock first) ->
    exists n,
      elements (first :: rest) initial_state = alternating DAH (S n)) /\
   (clocks exact_clock (first :: rest) -> spaced 180 (first :: rest) ->
    elements (first :: rest) initial_state =
    alternating DAH (S (Nat.div2 (length rest))))) /\
  (both_pressed first ->
   (exists n, elements (first :: rest) initial_state = alternating DIT n) /\
   (safe_clock (clock first) ->
    exists n,
      elements (first :: rest) initial_state = alternating DIT (S n)) /\
   (clocks exact_clock (first :: rest) -> spaced 180 (first :: rest) ->
    elements (first :: rest) initial_state =
    alternating DIT (S (Nat.div2 (length rest))))).
Proof.
  intros first rest Hrest. split; intros [Hd Hh].
  - apply (squeeze_from_first first rest DAH DAH_INPUT DAH DAH_TIME);
      auto.
    apply first_pass_dah; assumption.
  - apply (squeeze_from_first first rest DIT DIT_INPUT DIT DIT_TIME);
      auto.
    apply first_pass_dit; assumption.
Qed.

Lemma squeeze_leading_element_witness :
  let rest :=
    [mkTick (paddles true true) 200; mkTick (paddles true true) 400;
     mkTick (paddles true true) 600; mkTick (paddles true true) 800] in
  Forall both_pressed rest /\
  spaced 180 (mkTick (paddles false true) 0 :: rest) /\
  clocks exact_clock (mkTick (paddles false true) 0 :: rest) /\
  elements (mkTick (paddles false true) 0 :: rest) initial_state =
    [DAH; DIT; DAH] /\
  elements (mkTick (paddles true true) 0 :: rest) initial_state =
    [DIT; DAH; DIT].
Proof.
  intro rest.
  assert (Hall : Forall both_pressed rest)
    by (repeat first [apply Forall_nil | apply Forall_cons];
        (split; reflexivity)).
  assert (Hsp : forall dr, spaced 180 (mkTick dr 0 :: rest))
    by (intro; cbn; lia).
  assert (Hex : forall dr, clocks exact_clock (mkTick dr 0 :: rest))
    by (intro; repeat first [apply Forall_nil | apply Forall_cons];
        unfold exact_clock; cbn [clock]; change (2 ^ 24) with 16777216; lia).
  split; [exact Hall | split; [apply Hsp | split; [apply Hex | split]]].
  - apply (proj1 (squeeze_leading_element
                    (mkTick (paddles false true) 0) rest Hall)).
    + split; [discriminate | reflexivity].
    + apply Hex.
    + apply Hsp.
  - apply (proj2 (squeeze_leading_element
                    (mkTick (paddles true true) 0) rest Hall)).
    + split; reflexivity.
    + apply Hex.
    + apply Hsp.
Defined.

(** *** Speed changes between passes *)

(** X12. Whatever calls of [setWordSpeed] are made between the passes of the
    loop, and with whatever speeds, the tone generator is called as if there
    had been none: the elements keep the durations of [CODE_SPEED]. *)
Theorem speed_calls_leave_trace : forall calls g tr,
  trace_calls calls g = Some tr -> tr = trace (passes calls) g.
Proof.
  induction calls as [| [t | speed] rest IH]; intros g tr H;
    cbn [trace_calls passes trace] in *.
  - injection H as <-. reflexivity.
  - destruct (loop (pins t) (clock t) g) as [[g' effs] |];
      [| discriminate].
    destruct (trace_calls rest g') as [tr' |] eqn:E; [| discriminate].
    injection H as <-. rewrite (IH _ _ E). reflexivity.
  - destruct (setWordSpeed speed g) as [g' |] eqn:E; [| discriminate].
    rewrite (IH _ _ H).
    rewrite (setWordSpeed_writes speed g g' E).
    apply trace_ignores_speed.
Qed.

Lemma speed_calls_leave_trace_witness :
  let calls := [Pass (mkTick (paddles true false) 0); SetWordSpeed 10;
                Pass (mkTick (paddles true false) 61);
                Pass (mkTick (paddles true false) 122); SetWordSpeed 5;
                Pass (mkTick (paddles true false) 123);
                Pass (mkTick (paddles false false) 184)] in
  let tr := [(0, tone TONE_PIN TONE_FREQ); (61, noTone TONE_PIN);
             (123, tone TONE_PIN TONE_FREQ); (184, noTone TONE_PIN)] in
  trace_calls calls initial_state = Some tr /\
  tr = trace (passes calls) initial_state.
Proof.
  intros calls tr.
  assert (H : trace_calls calls initial_state = Some tr)
    by (vm_compute; reflexivity).
  split; [exact H |].
  apply (speed_calls_leave_trace calls initial_state tr H).
Defined.

(** *** The command interface *)

Lemma updateCommands_app : forall atoi a b s,
  Sketch.updateCommands atoi (a ++ b) s =
  match Sketch.updateCommands atoi a s with
  | inl f => inl f
  | inr s' => Sketch.updateCommands atoi b s'
  end.
Proof.
  induction a as [| c a IH]; intros b s; cbn [app Sketch.updateCommands].
  - reflexivity.
  - destruct (Sketch.updateCommands_char atoi c s) as [f | s'];
      [reflexivity | apply IH].
Qed.

Lemma help_only_char : forall atoi c s,
  help_only (Sketch.command s) ->
  exists s',
    Sketch.updateCommands_char atoi c s = inr s' /\
    Sketch.globals s' = Sketch.globals s /\
    help_only (Sketch.command s').
Proof.
  intros atoi c s [Hc Hs]. unfold Sketch.updateCommands_char.
  destruct Hs as [Hs | Hs]; rewrite Hs;
    cbn [Z.eqb Pos.eqb CMD_IDLE CMD_ARGUMENT].
  - destruct (Ascii.eqb c "?").
    + eexists. split; [reflexivity |]. split; [reflexivity |].
      split; [reflexivity | right; reflexivity].
    + destruct (Ascii.eqb c "w"); eexists;
        (split; [reflexivity |]); (split; [reflexivity |]);
        (split; [exact Hc | left; exact Hs]).
  - rewrite Hc. cbn [Z.eqb PRINT_HELP].
    destruct (Ascii.eqb c CR || Ascii.eqb c LF); eexists;
      (split; [reflexivity |]); (split; [reflexivity |]).
    + split; [exact Hc | left; reflexivity].
    + split; [exact Hc | right; exact Hs].
Qed.

Lemma help_only_commands : forall atoi received s,
  help_only (Sketch.command s) ->
  exists s',
    Sketch.updateCommands atoi received s = inr s' /\
    Sketch.globals s' = Sketch.globals s /\
    help_only (Sketch.command s').
Proof.
  induction received as [| c rest IH]; intros s H;
    cbn [Sketch.updateCommands].
  - exists s. auto.
  - destruct (help_only_char atoi c s H) as (s1 & E1 & G1 & H1).
    rewrite E1. destruct (IH s1 H1) as (s2 & E2 & G2 & H2).
    exists s2. split; [exact E2 |]. split; [congruence | exact H2].
Qed.

Lemma help_only_run : forall atoi ps s,
  help_only (Sketch.command s) ->
  (defined (map Sketch.tick ps) (Sketch.globals s) ->
   exists s',
     Sketch.run atoi ps s =
       inr (s', trace (map Sketch.tick ps) (Sketch.globals s)) /\
     Sketch.globals s' = run (map Sketch.tick ps) (Sketch.globals s) /\
     help_only (Sketch.command s')) /\
  (~ defined (map Sketch.tick ps) (Sketch.globals s) ->
   Sketch.run atoi ps s = inl UndefinedConversion).
Proof.
  intros atoi ps; induction ps as [| p rest IH]; intros s H;
    cbn [Sketch.run map trace run defined].
  - split; [intros _; exists s; auto | intro Hn; exfalso; apply Hn; exact I].
  - unfold Sketch.loop, loop.
    destruct (help_only_commands atoi (Sketch.received p) s H)
      as (s1 & E1 & G1 & H1).
    rewrite E1, G1. cbv zeta.
    destruct (updateToneState (clock (Sketch.tick p)) _ _) as [r |];
      [| split; [contradiction | reflexivity]].
    destruct (IH (Sketch.mk (after r) (Sketch.command s1) (Sketch.sent s1))
                 H1) as [IHd IHn].
    cbn [Sketch.globals] in IHd, IHn.
    split.
    + intro Hd. destruct (IHd Hd) as (s3 & E3 & G3 & H3).
      rewrite E3. exists s3. split; [reflexivity |].
      split; [exact G3 | exact H3].
    + intro Hn. rewrite (IHn Hn). reflexivity.
Qed.

(** X13. From power-on, through [setup] and any number of passes of the
    loop, whatever bytes arrive on the serial port and whatever [atoi]
    returns: as long as the passes of the two state machines alone are
    defined, which they are while the clock is below 2^32 - 512 ms, the
    sketch is defined, its globals are those the two state machines alone
    produce, the tone generator is called as they alone call it, and the
    dit and dah times stay 60 and 180: no command changes the speed.  When
    a pass of the two state machines is not defined, the sketch is not
    either. *)
Theorem serial_input_never_changes_the_keyer : forall atoi ps,
  exists s0,
    Sketch.setup Sketch.power_on = inr s0 /\
    Sketch.globals s0 = initial_state /\
    (clocks safe_clock (map Sketch.tick ps) ->
     defined (map Sketch.tick ps) initial_state) /\
    (defined (map Sketch.tick ps) initial_state ->
     exists s',
       Sketch.run atoi ps s0 =
         inr (s', trace (map Sketch.tick ps) initial_state) /\
       Sketch.globals s' = run (map Sketch.tick ps) initial_state /\
       ditTime (Sketch.globals s') = 60 /\
       dahTime (Sketch.globals s') = 180) /\
    (~ defined (map Sketch.tick ps) initial_state ->
     Sketch.run atoi ps s0 = inl UndefinedConversion).
Proof.
  intros atoi ps.
  exists (Sketch.mk initial_state Command.power_on (printHelp [])).
  assert (H0 : help_only Command.power_on)
    by (split; [reflexivity | left; reflexivity]).
  destruct (help_only_run atoi ps
              (Sketch.mk initial_state Command.power_on (printHelp [])) H0)
    as [Hd Hn].
  cbn [Sketch.globals] in *.
  split; [vm_compute; reflexivity |]. split; [reflexivity |].
  split; [apply defined_safe |]. split; [| exact Hn].
  intro Hdef. destruct (Hd Hdef) as (s' & E & G & _).
  exists s'. split; [exact E |]. split; [exact G |].
  rewrite G.
  destruct (run_keeps_speed (map Sketch.tick ps) initial_state)
    as [-> ->].
  split; reflexivity.
Qed.

Lemma serial_input_never_changes_the_keyer_witness :
  let atoi := fun _ : list ascii => 10 in
  let ps := [Sketch.mkPass ["w"%char; "9"%char; CR]
               (mkTick (paddles true false) 0);
             Sketch.mkPass ["?"%char; LF]
               (mkTick (paddles false false) 61);
             Sketch.mkPass [] (mkTick (paddles false false) 122)] in
  clocks safe_clock (map Sketch.tick ps) /\
  exists s0 s',
    Sketch.setup Sketch.power_on = inr s0 /\
    Sketch.run atoi ps s0 =
      inr (s', [(0, tone TONE_PIN TONE_FREQ); (61, noTone TONE_PIN)]) /\
    Sketch.globals s' = run (map Sketch.tick ps) initial_state /\
    ditTime (Sketch.globals s') = 60 /\
    dahTime (Sketch.globals s') = 180.
Proof.
  intros atoi ps.
  assert (Hc : clocks safe_clock (map Sketch.tick ps))
    by (repeat first [apply Forall_nil | apply Forall_cons];
        unfold safe_clock; cbn [clock Sketch.tick ps];
        change (2 ^ 32) with 4294967296; lia).
  split; [exact Hc |].
  destruct (serial_input_never_changes_the_keyer atoi ps)
    as (s0 & E0 & _ & Hsafe & Hdef & _).
  destruct (Hdef (Hsafe Hc)) as (s' & E & G & Hd & Hh).
  exists s0, s'.
  split; [exact E0 |]. split; [| split; [exact G | split; assumption]].
  rewrite E. reflexivity.
Defined.

(** With the clock at 4294967290 ms, 6 ms before it wraps, the sum a dit
    deadline is computed from does not fit [unsigned long]: the pass that
    starts the dit is not defined. *)
Example dit_deadline_overflow :
  deadline 4294967290 DIT_TIME = None /\
  loop (paddles true false) 4294967290 initial_state = None /\
  (exists s0,
     Sketch.setup Sketch.power_on = inr s0 /\
     Sketch.loop (fun _ => 0) [] (paddles true false) 4294967290 s0 =
     inl UndefinedConversion).
Proof.
  split; [vm_compute; reflexivity |].
  split; [vm_compute; reflexivity |].
  eexists. split; vm_compute; reflexivity.
Qed.

(** While the help command waits for the end of the line, every other
    character is dropped. *)
Lemma help_waits : forall atoi junk s,
  Command.state (Sketch.command s) = CMD_ARGUMENT ->
  Command.command (Sketch.command s) = PRINT_HELP ->
  Forall (fun c => is_newline c = false) junk ->
  Sketch.updateCommands atoi junk s = inr s.
Proof.
  induction junk as [| c junk IH]; intros s Hs Hc Hall;
    cbn [Sketch.updateCommands].
  - reflexivity.
  - inversion Hall as [| c0 l Hn Hrest]; subst.
    unfold Sketch.updateCommands_char. rewrite Hs, Hc.
    cbn [Z.eqb Pos.eqb CMD_IDLE CMD_ARGUMENT PRINT_HELP].
    unfold is_newline in Hn. rewrite Hn. apply IH; assumption.
Qed.

(** X14. In [CMD_IDLE], a question mark followed by any characters and the
    end of the line, a carriage return or a line feed, sends the help text
    once and returns to [CMD_IDLE]; the characters between are dropped
    without an answer, the line buffer is cleared, and the globals of the
    state machines are not touched. *)
Theorem help_command : forall atoi s junk nl,
  Command.state (Sketch.command s) = CMD_IDLE ->
  Forall (fun c => is_newline c = false) junk ->
  nl = CR \/ nl = LF ->
  Sketch.updateCommands atoi ("?"%char :: junk ++ [nl]) s =
  inr (Sketch.mk (Sketch.globals s)
         (Command.mk CMD_IDLE PRINT_HELP 0 (repeat NUL 80))
         (printHelp (Sketch.sent s))).
Proof.
  intros atoi s junk nl Hs Hjunk Hnl.
  cbn [Sketch.updateCommands]. unfold Sketch.updateCommands_char at 1.
  rewrite Hs. cbn [Z.eqb CMD_IDLE Ascii.eqb Bool.eqb andb].
  rewrite updateCommands_app.
  rewrite help_waits; [| reflexivity | reflexivity | exact Hjunk].
  cbn [Sketch.updateCommands]. unfold Sketch.updateCommands_char.
  cbn [Sketch.command Sketch.globals Sketch.sent Command.state
       Command.command Command.begin].
  cbn [Z.eqb Pos.eqb CMD_IDLE CMD_ARGUMENT PRINT_HELP].
  destruct Hnl as [-> | ->]; reflexivity.
Qed.

Lemma help_command_witness :
  let s := Sketch.mk initial_state Command.power_on [] in
  Sketch.updateCommands (fun _ => 0)
    ("?"%char :: ["x"; " "; "1"]%char ++ [CR]) s =
  inr (Sketch.mk initial_state
         (Command.mk CMD_IDLE PRINT_HELP 0 (repeat NUL 80))
         (printHelp [])).
Proof.
  intro s.
  apply (help_command (fun _ => 0) s ["x"; " "; "1"]%char CR).
  - reflexivity.
  - repeat constructor.
  - left. reflexivity.
Defined.

(** X15. In [CMD_IDLE] nothing but a question mark is a command: any other
    characters leave the command and the globals as they are, and each is
    answered on the serial port, a [w] with the line about the code speed
    and every other character, the end of a line included, with
    [Unrecognized command] and the character. The [w] does not take a speed. *)
Theorem idle_characters_are_answered : forall atoi received s,
  Command.state (Sketch.command s) = CMD_IDLE ->
  Forall (fun c => Ascii.eqb c "?" = false) received ->
  Sketch.updateCommands atoi received s =
  inr (Sketch.mk (Sketch.globals s) (Sketch.command s)
         (Sketch.sent s ++ flat_map idle_reply received)).
Proof.
  induction received as [| c rest IH]; intros s Hs Hall;
    cbn [Sketch.updateCommands flat_map].
  - rewrite app_nil_r. destruct s; reflexivity.
  - inversion Hall as [| c0 l Hq Hrest]; subst.
    unfold Sketch.updateCommands_char. rewrite Hs, Hq.
    cbn [Z.eqb CMD_IDLE]. unfold idle_reply at 1.
    destruct (Ascii.eqb c "w").
    + rewrite IH by assumption.
      cbn [Sketch.globals Sketch.command Sketch.sent].
      unfold Serial_println, Serial_print.
      rewrite <- !app_assoc. reflexivity.
    + rewrite IH by assumption.
      cbn [Sketch.globals Sketch.command Sketch.sent].
      unfold Serial_println_char, Serial_print.
      rewrite <- !app_assoc. reflexivity.
Qed.

Lemma idle_characters_are_answered_witness :
  let s := Sketch.mk initial_state Command.power_on [] in
  let received := ["w"; " "; "2"; "5"]%char ++ [CR] in
  Sketch.updateCommands (fun _ => 25) received s =
  inr (Sketch.mk initial_state Command.power_on
         ([] ++ flat_map idle_reply received)).
Proof.
  intros s received.
  apply (idle_characters_are_answered (fun _ => 25) received s).
  - reflexivity.
  - repeat constructor.
Defined.

(** *** The line buffer *)

Lemma store_in_range : forall (ds : list ascii) c k,
  store (ds ++ repeat NUL (S k)) (Z.of_nat (length ds)) c =
  if Z.of_nat (length ds) <? 80
  then Some ((ds ++ [c]) ++ repeat NUL k) else None.
Proof.
  intros ds c k. unfold store.
  replace (0 <=? Z.of_nat (length ds)) with true
    by (symmetry; apply Z.leb_le; lia).
  cbn [andb]. destruct (Z.of_nat (length ds) <? 80); [| reflexivity].
  rewrite Nat2Z.id. f_equal.
  rewrite firstn_app, Nat.sub_diag, firstn_all. cbn [firstn].
  rewrite app_nil_r, <- app_assoc. cbn [app]. do 2 f_equal.
  rewrite skipn_app.
  rewrite skipn_all2 by lia.
  replace (S (length ds) - length ds)%nat with 1%nat by lia.
  reflexivity.
Qed.

Lemma store_length : forall line i c line',
  store line i c = Some line' -> length line = 80%nat ->
  length line' = 80%nat /\ 0 <= i < 80.
Proof.
  intros line i c line' H Hlen. unfold store in H.
  destruct (Z.leb_spec 0 i); [| discriminate].
  destruct (Z.ltb_spec i 80); [| discriminate].
  cbn [andb] in H. injection H as <-.
  split; [| lia].
  rewrite length_app, length_firstn, length_cons.
  change (match line with [] => [] | _ :: l => skipn (Z.to_nat i) l end)
    with (skipn (S (Z.to_nat i)) line).
  rewrite length_skipn. lia.
Qed.

Lemma command_ok_char : forall atoi c s,
  command_ok (Sketch.command s) ->
  Sketch.updateCommands_char atoi c s <> inl BufferOverrun /\
  (forall s', Sketch.updateCommands_char atoi c s = inr s' ->
              command_ok (Sketch.command s')).
Proof.
  intros atoi c s [Hlen Hidx]. unfold Sketch.updateCommands_char.
  destruct (Z.eqb_spec (Command.state (Sketch.command s)) CMD_IDLE)
    as [Hs | Hs].
  { destruct (Ascii.eqb c "?"); [| destruct (Ascii.eqb c "w")];
      (split; [discriminate |]); intros s' E; injection E as <-;
      cbn [Sketch.command].
    - split; [apply repeat_length | intros _; cbn; lia].
    - split; assumption.
    - split; assumption. }
  destruct (Z.eqb_spec (Command.state (Sketch.command s)) CMD_ARGUMENT)
    as [Ha | Ha].
  2: { split; [discriminate |]. intros s' E. injection E as <-.
       split; assumption. }
  specialize (Hidx Ha).
  destruct (Command.command (Sketch.command s) =? PRINT_HELP).
  { destruct (Ascii.eqb c CR || Ascii.eqb c LF);
      (split; [discriminate |]); intros s' E; injection E as <-.
    - split; [exact Hlen | intro H; discriminate H].
    - split; [exact Hlen | intros _; exact Hidx]. }
  destruct (Command.command (Sketch.command s) =? SET_SPEED).
  2: { split; [discriminate |]. intros s' E. injection E as <-.
       split; [exact Hlen | intros _; exact Hidx]. }
  destruct (Ascii.eqb c CR || Ascii.eqb c LF).
  { destruct (setWordSpeed _ _);
      (split; [discriminate |]); intros s' E; [| discriminate E].
    injection E as <-. split; [exact Hlen | intro H; discriminate H]. }
  destruct ((char_code "0" <=? char_code c) && (char_code c <=? char_code "9")).
  2: { split; [discriminate |]. intros s' E. injection E as <-.
       split; [exact Hlen | intros _; exact Hidx]. }
  destruct (store (Command.line (Sketch.command s))
              (Command.index (Sketch.command s)) c) as [line' |] eqn:Est.
  2: { exfalso. unfold store in Est.
       destruct (Z.leb_spec 0 (Command.index (Sketch.command s))); [| lia].
       destruct (Z.ltb_spec (Command.index (Sketch.command s)) 80); [| lia].
       discriminate Est. }
  destruct (store_length _ _ _ _ Est Hlen) as [Hlen' _].
  cbn [Command.index].
  destruct (Z.geb_spec (Command.index (Sketch.command s) + 1)
              LINE_BUFFER_SIZE) as [Hfull | Hroom];
    (split; [discriminate |]); intros s' E; injection E as <-;
    cbn [Sketch.command Command.set_state Command.line Command.state
         Command.index].
  - split; [exact Hlen' | intro H; discriminate H].
  - unfold LINE_BUFFER_SIZE in Hroom.
    split; [exact Hlen' | intros _; cbn [Command.index]; lia].
Qed.

(** X16. As long as the line buffer has its 80 characters and an argument is
    awaited only with an index inside it, which holds at power-on and after
    every [begin], [updateCommands] never writes outside the buffer,
    whatever is received, and leaves the command in such a state again. *)
Theorem line_buffer_never_overrun : forall atoi received s,
  command_ok (Sketch.command s) ->
  Sketch.updateCommands atoi received s <> inl BufferOverrun /\
  (forall s', Sketch.updateCommands atoi received s = inr s' ->
              command_ok (Sketch.command s')).
Proof.
  induction received as [| c rest IH]; intros s Hok;
    cbn [Sketch.updateCommands].
  - split; [discriminate |]. intros s' E. injection E as <-. exact Hok.
  - destruct (command_ok_char atoi c s Hok) as [Hno Hnext].
    destruct (Sketch.updateCommands_char atoi c s) as [f | s1].
    + split; [exact Hno | discriminate].
    + apply IH. apply Hnext. reflexivity.
Qed.

Lemma line_buffer_never_overrun_witness :
  let s := Sketch.mk initial_state
             (Command.begin SET_SPEED Command.power_on) [] in
  let received := repeat "7"%char 200 in
  command_ok (Sketch.command s) /\
  Sketch.updateCommands (fun _ => 7) received s <> inl BufferOverrun.
Proof.
  intros s received.
  assert (Hok : command_ok (Sketch.command s))
    by (split; [reflexivity | intros _; cbn; lia]).
  split; [exact Hok |].
  apply (proj1 (line_buffer_never_overrun (fun _ => 7) received s Hok)).
Defined.

(** *** Typing a speed *)

Lemma digit_not_newline : forall c, is_digit c = true -> is_newline c = false.
Proof.
  intros [b0 b1 b2 b3 b4 b5 b6 b7].
  destruct b0, b1, b2, b3, b4, b5, b6, b7; vm_compute; intro H;
    first [reflexivity | discriminate H].
Qed.

Lemma entry_begin : forall g c0 sent,
  Sketch.mk g (Command.begin SET_SPEED c0) sent = entry_state g [] sent.
Proof. reflexivity. Qed.

Lemma entry_digits : forall atoi chars ds g sent,
  Forall (fun c => is_newline c = false) chars ->
  (length ds + length (filter is_digit chars) < 80)%nat ->
  Sketch.updateCommands atoi chars (entry_state g ds sent) =
  inr (entry_state g (ds ++ filter is_digit chars)
         (sent ++ filter is_digit chars)).
Proof.
  induction chars as [| c chars IH]; intros ds g sent Hall Hlen;
    cbn [Sketch.updateCommands filter].
  - rewrite !app_nil_r. reflexivity.
  - inversion Hall as [| c0 l Hn Hrest]; subst.
    unfold Sketch.updateCommands_char at 1.
    cbn [entry_state Sketch.command Sketch.globals Sketch.sent
         Command.state Command.command Command.index Command.line].
    cbn [Z.eqb Pos.eqb CMD_IDLE CMD_ARGUMENT SET_SPEED PRINT_HELP].
    unfold is_newline in Hn. rewrite Hn.
    cbn [filter] in Hlen.
    fold (is_digit c). destruct (is_digit c) eqn:Hd.
    + cbn [length] in Hlen.
      replace (80 - length ds)%nat with (S (80 - length (ds ++ [c])))%nat
        by (rewrite length_app; cbn [length]; lia).
      rewrite store_in_range.
      replace (Z.of_nat (length ds) <? 80) with true
        by (symmetry; apply Z.ltb_lt; lia).
      replace (Z.of_nat (length ds) + 1 >=? LINE_BUFFER_SIZE) with false
        by (symmetry; unfold LINE_BUFFER_SIZE;
            destruct (Z.geb_spec (Z.of_nat (length ds) + 1) 80);
            [lia | reflexivity]).
      replace (Z.of_nat (length ds) + 1)
        with (Z.of_nat (length (ds ++ [c])))
        by (rewrite length_app; cbn [length]; lia).
      fold (entry_state g (ds ++ [c]) (Serial_print_char c sent)).
      rewrite IH; [| exact Hrest | rewrite length_app; cbn [length]; lia].
      unfold Serial_print_char. rewrite <- !app_assoc. reflexivity.
    + fold (entry_state g ds sent). apply IH; assumption.
Qed.

(** X17. After [begin(SET_SPEED)], characters that are neither digits nor
    the end of the line are dropped, the digits, fewer than 80, are echoed
    and stored at the start of the cleared line buffer, and the carriage
    return or line feed that follows passes what [atoi] reads from the
    buffer to [setWordSpeed], sends an end of line and returns to
    [CMD_IDLE]; where [setWordSpeed] is undefined for that speed, so is the
    command. *)
Theorem speed_entry : forall atoi g c0 sent chars nl,
  Forall (fun c => is_newline c = false) chars ->
  (length (filter is_digit chars) < 80)%nat ->
  nl = CR \/ nl = LF ->
  let ds := filter is_digit chars in
  let line := ds ++ repeat NUL (80 - length ds) in
  Sketch.updateCommands atoi (chars ++ [nl])
    (Sketch.mk g (Command.begin SET_SPEED c0) sent) =
  match setWordSpeed (atoi line) g with
  | None => inl UndefinedConversion
  | Some g' =>
    inr (Sketch.mk g'
           (Command.mk CMD_IDLE SET_SPEED (Z.of_nat (length ds)) line)
           (sent ++ ds ++ [CR; LF]))
  end.
Proof.
  intros atoi g c0 sent chars nl Hall Hlen Hnl ds line.
  rewrite entry_begin, updateCommands_app.
  rewrite entry_digits by (cbn [length]; assumption).
  cbn [app]. fold ds.
  cbn [Sketch.updateCommands]. unfold Sketch.updateCommands_char.
  cbn [entry_state Sketch.command Sketch.globals Sketch.sent
       Command.state Command.command Command.index Command.line].
  cbn [Z.eqb Pos.eqb CMD_IDLE CMD_ARGUMENT SET_SPEED PRINT_HELP].
  replace (Ascii.eqb nl CR || Ascii.eqb nl LF) with true
    by (destruct Hnl as [-> | ->]; reflexivity).
  fold line. destruct (setWordSpeed (atoi line) g); [| reflexivity].
  unfold Serial_println_empty. rewrite <- app_assoc. reflexivity.
Qed.

Lemma speed_entry_witness :
  let chars := ["2"; "x"; "5"]%char in
  let line := ["2"; "5"]%char ++ repeat NUL 78 in
  Sketch.updateCommands (fun _ => 25) (chars ++ [CR])
    (Sketch.mk initial_state (Command.begin SET_SPEED Command.power_on) []) =
  inr (Sketch.mk (set_dahTime 120 (set_ditTime 40 initial_state))
         (Command.mk CMD_IDLE SET_SPEED 2 line)
         (["2"; "5"]%char ++ [CR; LF])).
Proof.
  intros chars line.
  assert (Hall : Forall (fun c => is_newline c = false) chars)
    by (repeat constructor).
  assert (Hlen : (length (filter is_digit chars) < 80)%nat)
    by (cbn; lia).
  exact (speed_entry (fun _ => 25) initial_state Command.power_on []
           chars CR Hall Hlen (or_introl eq_refl)).
Defined.

(** X18. After [begin(SET_SPEED)], the 80th digit fills the line buffer and
    ends the entry: the command returns to [CMD_IDLE] with all 80 digits
    echoed and stored, and [setWordSpeed] is not called. *)
Theorem speed_entry_full : forall atoi g c0 sent chars d,
  Forall (fun c => is_newline c = false) chars ->
  length (filter is_digit chars) = 79%nat ->
  is_digit d = true ->
  Sketch.updateCommands atoi (chars ++ [d])
    (Sketch.mk g (Command.begin SET_SPEED c0) sent) =
  inr (Sketch.mk g
         (Command.mk CMD_IDLE SET_SPEED 80 (filter is_digit chars ++ [d]))
         (sent ++ filter is_digit chars ++ [d])).
Proof.
  intros atoi g c0 sent chars d Hall Hlen Hd.
  rewrite entry_begin, updateCommands_app.
  rewrite entry_digits by (cbn [length]; try assumption; lia).
  cbn [app]. set (ds := filter is_digit chars) in *.
  cbn [Sketch.updateCommands]. unfold Sketch.updateCommands_char.
  cbn [entry_state Sketch.command Sketch.globals Sketch.sent
       Command.state Command.command Command.index Command.line].
  cbn [Z.eqb Pos.eqb CMD_IDLE CMD_ARGUMENT SET_SPEED PRINT_HELP].
  pose proof (digit_not_newline d Hd) as Hn. unfold is_newline in Hn.
  rewrite Hn. fold (is_digit d). rewrite Hd.
  rewrite Hlen. change (80 - 79)%nat with 1%nat.
  rewrite <- Hlen at 1. rewrite store_in_range. rewrite Hlen.
  cbn [Z.of_nat Pos.of_succ_nat Z.ltb Z.compare Pos.compare
       Pos.compare_cont Pos.succ Z.add Pos.add Z.geb LINE_BUFFER_SIZE repeat].
  rewrite app_nil_r. unfold Serial_print_char.
  rewrite <- app_assoc. reflexivity.
Qed.

Lemma speed_entry_full_witness :
  let chars := repeat "1"%char 79 in
  Sketch.updateCommands (fun _ => 1) (chars ++ ["2"%char])
    (Sketch.mk initial_state (Command.begin SET_SPEED Command.power_on) []) =
  inr (Sketch.mk initial_state
         (Command.mk CMD_IDLE SET_SPEED 80 (chars ++ ["2"%char]))
         ([] ++ chars ++ ["2"%char])).
Proof.
  intro chars.
  assert (Hall : Forall (fun c => is_newline c = false) chars)
    by (apply Forall_forall; intros c Hin;
        apply repeat_spec in Hin; subst c; reflexivity).
  assert (Hlen : length (filter is_digit chars) = 79%nat) by reflexivity.
  exact (speed_entry_full (fun _ => 1) initial_state Command.power_on []
           chars "2"%char Hall Hlen eq_refl).
Defined.

(** X19. While a speed is awaited, the end of the line is undefined exactly
    when [atoi] reads the buffer as a number from -60 to 0: an entry with no
    digits, which [atoi] reads as 0, divides by zero. *)
Theorem speed_entry_undefined_iff : forall atoi s nl,
  Command.state (Sketch.command s) = CMD_ARGUMENT ->
  Command.command (Sketch.command s) = SET_SPEED ->
  nl = CR \/ nl = LF ->
  (Sketch.updateCommands atoi [nl] s = inl UndefinedConversion <->
   -60 <= atoi (Command.line (Sketch.command s)) <= 0).
Proof.
  intros atoi s nl Hs Hc Hnl.
  cbn [Sketch.updateCommands]. unfold Sketch.updateCommands_char.
  rewrite Hs, Hc.
  cbn [Z.eqb Pos.eqb CMD_IDLE CMD_ARGUMENT SET_SPEED PRINT_HELP].
  replace (Ascii.eqb nl CR || Ascii.eqb nl LF) with true
    by (destruct Hnl as [-> | ->]; reflexivity).
  destruct (setWordSpeed_cases (atoi (Command.line (Sketch.command s)))
              (Sketch.globals s)) as [[Hr E] | [Hr [g' E]]];
    rewrite E; split; intro H.
  - exact Hr.
  - reflexivity.
  - discriminate H.
  - contradiction.
Qed.

Lemma speed_entry_undefined_iff_witness :
  let s := Sketch.mk initial_state
             (Command.begin SET_SPEED Command.power_on) [] in
  Sketch.updateCommands (fun _ => 0) [CR] s = inl UndefinedConversion.
Proof.
  intro s.
  apply (proj2 (speed_entry_undefined_iff (fun _ => 0) s CR
                  eq_refl eq_refl (or_introl eq_refl))).
  cbn. lia.
Defined.
